(** * The metric catalog of snap (control/metrics.go)

    A shallow embedding of the metric catalog: the namespace key codec,
    the namespace validator, the wildcard match cache, version
    resolution, subscription counting and the iterator, followed by
    the properties of the specification that they satisfy or break.

    Conventions.
    - A Go [string] is a sequence of bytes: Rocq's [string].
    - A Go [int] is a 64-bit two's complement integer: a [Z] kept in
      range by [wrap_int] wherever the source does arithmetic on it.
    - A Go [map] is a [gmap]; a slice is a [list].
    - A method of [*metricCatalog] is a function of the catalog that
      returns the catalog it leaves behind. *)

From Stdlib Require Import ZArith Ascii String DecimalString.
From stdpp Require Import base decidable option list gmap strings fin_maps sorting.

#[local] Open Scope Z_scope.
#[local] Set Warnings "-register-all".

(* ================================================================== *)
(** * Part I: definitions                                              *)
(* ================================================================== *)

(** ** Go's [int] *)

Definition int_bits : Z := 64.
Definition max_int : Z := 2 ^ (int_bits - 1) - 1.
Definition min_int : Z := - 2 ^ (int_bits - 1).

(** Signed overflow wraps around in Go. *)
Definition wrap_int (z : Z) : Z :=
  (z - min_int) `mod` 2 ^ int_bits + min_int.

Arguments max_int : simpl never.
Arguments min_int : simpl never.
Arguments wrap_int : simpl never.

(** ** The functions of package [strings] that the catalog calls *)

(** [strings.Join(a, sep)]. *)
Fixpoint strings_Join (a : list string) (sep : string) : string :=
  match a with
  | [] => EmptyString
  | s :: rest =>
      match rest with
      | [] => s
      | _ :: _ => s +:+ sep +:+ strings_Join rest sep
      end
  end.

(** [strings.Split(s, sep)] for a separator of one byte (the catalog
    only splits at ["."]): the pieces between the occurrences of the
    separator; a string without separator, the empty string included,
    gives one piece. *)
Fixpoint strings_Split (s : string) (sep : ascii) : list string :=
  match s with
  | EmptyString => [EmptyString]
  | String c s' =>
      if Ascii.eqb c sep then EmptyString :: strings_Split s' sep
      else match strings_Split s' sep with
           | piece :: pieces => String c piece :: pieces
           | [] => [String c EmptyString]
           end
  end.

(** [strings.Replace(s, old, new, -1)] for [old] of one byte: every
    occurrence is replaced. *)
Fixpoint strings_Replace (s : string) (old : ascii) (new : string) : string :=
  match s with
  | EmptyString => EmptyString
  | String c s' =>
      if Ascii.eqb c old then new +:+ strings_Replace s' old new
      else String c (strings_Replace s' old new)
  end.

(** Does byte [c] occur in [s]? *)
Fixpoint string_mem (c : ascii) (s : string) : bool :=
  match s with
  | EmptyString => false
  | String c' s' => Ascii.eqb c c' || string_mem c s'
  end.

(** [strings.ContainsAny(s, chars)]: some byte of [chars] occurs in [s]
    (all the characters the catalog asks about are ASCII). *)
Fixpoint strings_ContainsAny (s chars : string) : bool :=
  match chars with
  | EmptyString => false
  | String c chars' => string_mem c s || strings_ContainsAny s chars'
  end.

(** [strings.HasSuffix(s, suffix)] for a suffix of one byte. *)
Fixpoint strings_HasSuffix (s : string) (suffix : ascii) : bool :=
  match s with
  | EmptyString => false
  | String c EmptyString => Ascii.eqb c suffix
  | String _ s' => strings_HasSuffix s' suffix
  end.

(** ** The namespace key codec *)

Definition getMetricKey (metric : list string) : string :=
  strings_Join metric ".".

Definition getMetricNamespace (key : string) : list string :=
  strings_Split key "."%char.

(** ** Errors, panics and results *)

(** The error values the catalog builds.  [errMetricNotFound] and
    [errNegativeSubCount] are the package variables;
    [errorMetricNotFound] carries the namespace and, when given, the
    version it was asked for. *)
Inductive error : Type :=
  | errMetricNotFound
  | errNegativeSubCount
  | errorMetricNotFound (ns : list string) (ver : option Z)
  | errorMetricContainsNotAllowedChars (ns : list string)
  | errorMetricEndsWithAsterisk (ns : list string)
  | errConfigPolicyNil.

(** The kinds of error of the specification. *)
Inductive error_kind : Type :=
  | InvalidNamespace
  | MissingConfigPolicy
  | MetricNotFound
  | NegativeSubscriptionCount.

Definition kind_of (e : error) : error_kind :=
  match e with
  | errMetricNotFound | errorMetricNotFound _ _ => MetricNotFound
  | errNegativeSubCount => NegativeSubscriptionCount
  | errorMetricContainsNotAllowedChars _
  | errorMetricEndsWithAsterisk _ => InvalidNamespace
  | errConfigPolicyNil => MissingConfigPolicy
  end.

(** A Go result [(T, error)]. *)
Inductive ret (A : Type) : Type :=
  | Ok (a : A)
  | Err (e : error).
Arguments Ok {A} a.
Arguments Err {A} e.

(** The run-time panics the catalog code can raise. *)
Inductive panic : Type :=
  | IndexOutOfRange
  | NilDereference
  | RegexpCompile.

(** Code without side effect that may panic. *)
Inductive exec (A : Type) : Type :=
  | Done (a : A)
  | Panicked (p : panic).
Arguments Done {A} a.
Arguments Panicked {A} p.

(** ** Plugins and metric entries *)

(** The packages [cpolicy], [cdata] and [core] are outside the catalog;
    their values are carried, never inspected. *)
Definition ConfigPolicyNode : Type := list string.
Definition ConfigDataNode : Type := list (string * string).
Definition Label : Type := (Z * string)%type.

(** Modelled from the spec: [loadedPlugin], declared in the plugin
    manager, of which the catalog reads the version and the config
    policy (a pointer that may be nil, looked up by namespace).  Two
    references designate the same plugin when type, name and version
    agree. *)
Record loadedPlugin : Type := {
  lp_TypeName : string;
  lp_Name : string;
  lp_Version : Z;
  lp_ConfigPolicy : option (list (list string * ConfigPolicyNode))
}.

(** Modelled from the spec: the test of [MTTrie.DeleteByPlugin] that
    the "owning plugin matches". *)
Definition same_plugin (a b : loadedPlugin) : bool :=
  String.eqb (lp_TypeName a) (lp_TypeName b)
  && String.eqb (lp_Name a) (lp_Name b)
  && (lp_Version a =? lp_Version b).

(** Modelled from the spec: [ConfigPolicy.Get(ns)], the policy node of
    a namespace (the empty node when the policy has none). *)
Definition ConfigPolicy_Get (cp : list (list string * ConfigPolicyNode))
    (ns : list string) : ConfigPolicyNode :=
  match list_find (λ e, e.1 = ns) cp with
  | Some (_, (_, node)) => node
  | None => []
  end.

Record metricType : Type := {
  Plugin : option loadedPlugin;
  namespace : list string;
  version : Z;
  lastAdvertisedTime : Z;
  subscriptions : Z;
  policy : option ConfigPolicyNode;
  config : option ConfigDataNode;
  data : option string;
  source : string;
  labels : list Label;
  tags : list (string * string);
  timestamp : Z
}.

Definition newMetricType (ns : list string) (last : Z)
    (plugin : option loadedPlugin) : metricType :=
  {| Plugin := plugin; namespace := ns; version := 0;
     lastAdvertisedTime := last; subscriptions := 0;
     policy := None; config := None; data := None;
     source := EmptyString;
     labels := []; tags := []; timestamp := 0 |}.

Definition set_subscriptions (n : Z) (m : metricType) : metricType :=
  {| Plugin := Plugin m; namespace := namespace m; version := version m;
     lastAdvertisedTime := lastAdvertisedTime m; subscriptions := n;
     policy := policy m; config := config m; data := data m;
     source := source m; labels := labels m; tags := tags m;
     timestamp := timestamp m |}.

(** [metricType.Subscribe]: [m.subscriptions++]. *)
Definition Subscribe_mt (m : metricType) : metricType :=
  set_subscriptions (wrap_int (subscriptions m + 1)) m.

(** [metricType.Unsubscribe]: the entry it leaves and the error it
    returns ([None] is Go's nil). *)
Definition Unsubscribe_mt (m : metricType) : metricType * option error :=
  if subscriptions m =? 0 then (m, Some errNegativeSubCount)
  else (set_subscriptions (wrap_int (subscriptions m - 1)) m, None).

Definition SubscriptionCount (m : metricType) : Z := subscriptions m.

(** [metricType.Version]: the explicit version when it is set, else
    the version of the owning plugin, else -1. *)
Definition Version (m : metricType) : Z :=
  if 0 <? version m then version m
  else match Plugin m with
       | None => -1
       | Some lp => lp_Version lp
       end.

(** Modelled from the spec: [m.Plugin.Version()], the method
    [loadedPlugin.Version] on the plugin pointer of the entry, which
    reads the plugin and so panics on a nil pointer (as
    [metricType.Version] guards against). *)
Definition Plugin_Version (m : metricType) : exec Z :=
  match Plugin m with
  | None => Panicked NilDereference
  | Some lp => Done (lp_Version lp)
  end.

(** What [AddLoadedMetricType] reads of the [core.Metric] a plugin
    advertises. *)
Record coreMetric : Type := {
  cm_Namespace : list string;
  cm_Version : Z;
  cm_LastAdvertisedTime : Z;
  cm_Tags : list (string * string);
  cm_Labels : list Label
}.

(** ** The trie store *)

(** Modelled from the spec: [MTTrie], the prefix tree of
    control/mttrie.go.  A node holds the versions registered for the namespace that leads to
    it, each version mapped to one entry, and its children by
    namespace segment. *)
Inductive mttNode : Type :=
  | MttNode (mts : gmap Z metricType) (children : gmap string mttNode).

Definition node_mts (t : mttNode) : gmap Z metricType :=
  let 'MttNode m _ := t in m.
Definition node_children (t : mttNode) : gmap string mttNode :=
  let 'MttNode _ c := t in c.

(** Modelled from the spec: [NewMTTrie], the empty tree. *)
Definition NewMTTrie : mttNode := MttNode ∅ ∅.

(** Modelled from the spec: the node that a path leads to, if any. *)
Fixpoint MTTrie_find (ns : list string) (t : mttNode) : option mttNode :=
  match ns with
  | [] => Some t
  | s :: ns' =>
      match node_children t !! s with
      | Some c => MTTrie_find ns' c
      | None => None
      end
  end.

(** Modelled from the spec: storing [m] under version [v] at the end
    of path [ns], "creating intermediate nodes as needed". *)
Fixpoint MTTrie_store (ns : list string) (v : Z) (m : metricType)
    (t : mttNode) : mttNode :=
  match ns with
  | [] => MttNode (<[v := m]> (node_mts t)) (node_children t)
  | s :: ns' =>
      MttNode (node_mts t)
        (<[s := MTTrie_store ns' v m (default NewMTTrie (node_children t !! s))]>
           (node_children t))
  end.

(** Modelled from the spec: [MTTrie.Add] "inserts along the path of
    entry.namespace, creating intermediate nodes as needed; stores
    entry under its version at the terminal node"; re-adding
    overwrites. *)
Definition MTTrie_Add (m : metricType) (t : mttNode) : mttNode :=
  MTTrie_store (namespace m) (Version m) m t.

(** Modelled from the spec: [MTTrie.Get], "exact-path lookup; returns
    all versions at that terminal node, or a not-found error if the
    path does not terminate in a populated node".  The node keeps its
    versions in a mapping, which has no order of its own; this
    definition lists them in one order, the same at every call, where
    the code may list them in another at each call.  A statement that
    depends on which of several entries a caller picks therefore
    ranges over every order of the list ([resolves], below), and a
    statement that does not may take this one. *)
Definition MTTrie_Get (ns : list string) (t : mttNode) : ret (list metricType) :=
  match MTTrie_find ns t with
  | None => Err (errorMetricNotFound ns None)
  | Some n =>
      match (map_to_list (node_mts n)).*2 with
      | [] => Err (errorMetricNotFound ns None)
      | mts => Ok mts
      end
  end.

(** Modelled from the spec: [MTTrie.Remove] "deletes all versions at
    the exact terminal node; does not affect sibling/descendant
    nodes". *)
Fixpoint MTTrie_Remove (ns : list string) (t : mttNode) : mttNode :=
  match ns with
  | [] => MttNode ∅ (node_children t)
  | s :: ns' =>
      match node_children t !! s with
      | Some c => MttNode (node_mts t) (<[s := MTTrie_Remove ns' c]> (node_children t))
      | None => t
      end
  end.

(** Modelled from the spec: the entry is owned by the plugin. *)
Definition owned_by (lp : loadedPlugin) (m : metricType) : bool :=
  match Plugin m with
  | Some lp' => same_plugin lp' lp
  | None => false
  end.

(** Modelled from the spec: a "now-empty" node has neither versions
    nor children. *)
Definition node_is_empty (t : mttNode) : bool :=
  bool_decide (node_mts t = ∅) && bool_decide (node_children t = ∅).

(** Modelled from the spec: [MTTrie.DeleteByPlugin] "removes every
    entry anywhere in the tree whose owning plugin matches; prunes
    now-empty nodes". *)
Fixpoint MTTrie_DeleteByPlugin (lp : loadedPlugin) (t : mttNode) : mttNode :=
  match t with
  | MttNode m c =>
      MttNode (filter (λ kv, owned_by lp kv.2 = false) m)
        (omap (λ c', let c'' := MTTrie_DeleteByPlugin lp c' in
                     if node_is_empty c'' then None else Some c'') c)
  end.

(** Modelled from the spec: all the entries at or below a node. *)
Fixpoint MTTrie_gather (t : mttNode) : list metricType :=
  match t with
  | MttNode m c =>
      (map_to_list m).*2 ++ concat (map_to_list (MTTrie_gather <$> c)).*2
  end.

(** Modelled from the spec: [MTTrie.Fetch] "returns all entries whose
    namespace is at or below the given path". *)
Definition MTTrie_Fetch (ns : list string) (t : mttNode) : ret (list metricType) :=
  match MTTrie_find ns t with
  | None => Err (errorMetricNotFound ns None)
  | Some n =>
      match MTTrie_gather n with
      | [] => Err (errorMetricNotFound ns None)
      | mts => Ok mts
      end
  end.

(** ** Regular expressions *)

(** Package [regexp] is Go's.  The catalog uses two of its functions:
    [regexp.MustCompile], which panics on a pattern it cannot compile
    ([None]), and [FindStringSubmatch], of which it only asks whether
    the result is nil.  The catalog is defined over any such pair. *)
Class Regexp : Type := {
  Regexp_t : Type;
  regexp_MustCompile : string → option Regexp_t;
  regexp_matches : Regexp_t → string → bool
}.

(** The catalog hands [regexp.MustCompile] the pattern
    ["^" + exp + "$"], where [exp] is a query key with every ["."]
    turned into ["[.]"] and every ["*"] into [".*"].  The fragment of
    the syntax that such patterns use for wildcard queries is modelled
    for the statements that depend on what a pattern matches: a
    literal ASCII byte, the class ["[.]"], and [".*"], between the two
    anchors. *)
Inductive re_item : Type :=
  | ReLit (c : ascii)   (* a literal byte, or the class [.] *)
  | ReAnyStar.          (* .* : any bytes but a newline *)

(** The bytes that are operators of the syntax. *)
Definition re_meta : string := "\.+*?()|[]{}^$".

(** A byte that stands for itself in a pattern. *)
Definition re_literal (c : ascii) : bool :=
  negb (string_mem c re_meta) && (nat_of_ascii c <? 128)%nat.

(** The items of a pattern after its leading ["^"], up to the closing
    ["$"]; [None] when the pattern leaves the fragment (a group, an
    alternative, another quantifier or class, a byte that is not
    ASCII).  The patterns [regexp.MustCompile] panics on are among
    them, and so are patterns that Go compiles: ["^a[.]?b$"], which
    matches the key ["ab"], or ["^.*[.]b|c$"], which matches ["c"]. *)
Fixpoint re_parse_items (p : string) : option (list re_item) :=
  match p with
  | EmptyString => None
  | String c p' =>
      if Ascii.eqb c "$" then
        match p' with
        | EmptyString => Some []
        | String _ _ => None
        end
      else if Ascii.eqb c "[" then
        match p' with
        | String c1 (String c2 p'') =>
            if Ascii.eqb c1 "." && Ascii.eqb c2 "]"
            then (ReLit "." ::.) <$> re_parse_items p''
            else None
        | _ => None
        end
      else if Ascii.eqb c "." then
        match p' with
        | String c1 p'' =>
            if Ascii.eqb c1 "*" then (ReAnyStar ::.) <$> re_parse_items p''
            else None
        | EmptyString => None
        end
      else if re_literal c then (ReLit c ::.) <$> re_parse_items p'
      else None
  end.

(** [regexp.MustCompile] on the fragment.  It stands for Go's function
    on the patterns of the fragment only: outside it [None] says that
    the pattern is not modelled, not that Go panics. *)
Definition fragment_MustCompile (p : string) : option (list re_item) :=
  match p with
  | String "^" p' => re_parse_items p'
  | _ => None
  end.

(** Does the whole of [s] match the items?  (Both ends are anchored.) *)
Fixpoint re_match (r : list re_item) (s : string) : bool :=
  match r with
  | [] => match s with EmptyString => true | _ => false end
  | ReLit c :: r' =>
      match s with
      | String c' s' => Ascii.eqb c c' && re_match r' s'
      | EmptyString => false
      end
  | ReAnyStar :: r' =>
      (fix any (s : string) : bool :=
         re_match r' s
         || match s with
            | String c s' => negb (Ascii.eqb c "010") && any s'
            | EmptyString => false
            end) s
  end.

(** The fragment as an instance: [regexp_matches r key] is
    [regex.FindStringSubmatch(key) != nil].  What is proved of the
    catalog holds for every instance; the instance of the fragment
    runs the sample histories, whose queries are within it, and what
    is stated of the keys a pattern matches is stated for the query
    keys whose pattern the fragment compiles ([in_fragment]), of
    this instance or of every instance that agrees with it there
    ([agrees_on_fragment]). *)
#[global] Instance wildcard_fragment : Regexp := {|
  Regexp_t := list re_item;
  regexp_MustCompile := fragment_MustCompile;
  regexp_matches := re_match
|}.

(** ** The catalog *)

Record metricCatalog : Type := {
  tree : mttNode;
  mutex : bool;                       (* is the mutex held? *)
  keys : list string;
  mKeys : gmap string (list string);
  currentIter : Z
}.

Definition newMetricCatalog : metricCatalog :=
  {| tree := NewMTTrie; mutex := false; currentIter := 0;
     keys := []; mKeys := ∅ |}.

Definition set_tree (t : mttNode) (mc : metricCatalog) : metricCatalog :=
  {| tree := t; mutex := mutex mc; keys := keys mc; mKeys := mKeys mc;
     currentIter := currentIter mc |}.
Definition set_mutex (b : bool) (mc : metricCatalog) : metricCatalog :=
  {| tree := tree mc; mutex := b; keys := keys mc; mKeys := mKeys mc;
     currentIter := currentIter mc |}.
Definition set_keys (ks : list string) (mc : metricCatalog) : metricCatalog :=
  {| tree := tree mc; mutex := mutex mc; keys := ks; mKeys := mKeys mc;
     currentIter := currentIter mc |}.
Definition set_mKeys (mk : gmap string (list string)) (mc : metricCatalog)
    : metricCatalog :=
  {| tree := tree mc; mutex := mutex mc; keys := keys mc; mKeys := mk;
     currentIter := currentIter mc |}.
Definition set_currentIter (i : Z) (mc : metricCatalog) : metricCatalog :=
  {| tree := tree mc; mutex := mutex mc; keys := keys mc; mKeys := mKeys mc;
     currentIter := i |}.

(** What a method call on the catalog comes to: it returns a value and
    leaves a catalog, or panics and leaves a catalog, or never gets the
    mutex. *)
Inductive outcome (A : Type) : Type :=
  | Returns (a : A) (mc : metricCatalog)
  | Panics (p : panic) (mc : metricCatalog)
  | Blocks.
Arguments Returns {A} a mc.
Arguments Panics {A} p mc.
Arguments Blocks {A}.

Definition M (A : Type) : Type := metricCatalog → outcome A.

Definition bind {A B : Type} (m : M A) (k : A → M B) : M B :=
  λ mc, match m mc with
        | Returns a mc' => k a mc'
        | Panics p mc' => Panics p mc'
        | Blocks => Blocks
        end.

#[global] Instance M_ret : MRet M := λ A a mc, Returns a mc.
#[global] Instance M_bind : MBind M := λ A B k m, bind m k.

(** [mc.mutex.Lock()]: waits for ever when the mutex is held. *)
Definition Lock : M unit :=
  λ mc, if mutex mc then Blocks else Returns () (set_mutex true mc).

(** [mc.mutex.Unlock()]. *)
Definition Unlock : M unit :=
  λ mc, Returns () (set_mutex false mc).

(** [defer f]: [f] runs when the body returns and when it panics. *)
Definition defer {A : Type} (f : M unit) (body : M A) : M A :=
  λ mc, match body mc with
        | Returns a mc' =>
            match f mc' with
            | Returns _ mc'' => Returns a mc''
            | Panics p mc'' => Panics p mc''
            | Blocks => Blocks
            end
        | Panics p mc' =>
            match f mc' with
            | Returns _ mc'' => Panics p mc''
            | Panics p' mc'' => Panics p' mc''
            | Blocks => Blocks
            end
        | Blocks => Blocks
        end.

(** The opening of the methods that take the mutex:
    [mc.mutex.Lock(); defer mc.mutex.Unlock()]. *)
Definition locked {A : Type} (body : M A) : M A :=
  Lock ;; defer Unlock body.

(** Reading and updating the fields of the receiver. *)
Definition gets {A : Type} (f : metricCatalog → A) : M A :=
  λ mc, Returns (f mc) mc.
Definition modify (f : metricCatalog → metricCatalog) : M unit :=
  λ mc, Returns () (f mc).

Definition run_exec {A : Type} (e : exec A) : M A :=
  λ mc, match e with
        | Done a => Returns a mc
        | Panicked p => Panics p mc
        end.

Fixpoint for_each {A : Type} (f : A → M unit) (l : list A) : M unit :=
  match l with
  | [] => mret ()
  | a :: l' => f a ;; for_each f l'
  end.

(** *** Package-level helpers *)

Definition notAllowedChars : list (string * list string) :=
  [ ("brackets", ["("; ")"; "["; "]"; "{"; "}"]);
    ("spaces", [" "]);
    ("punctuations", ["."; ","; ";"; "?"; "!"]);
    ("slashes", ["|"; "\"; "/"]);
    ("carets", ["^"]);
    ("quotations", [String "034" EmptyString; "`"; "'"]) ].

(** [validateMetricNamespace]; [None] is the nil error.  The source
    ranges over a map, in no fixed order: every hit returns the same
    error. *)
Definition validateMetricNamespace (ns : list string) : option error :=
  let name := strings_Join ns EmptyString in
  if existsb (λ group, existsb (λ ch, strings_ContainsAny name ch) group.2)
       notAllowedChars
  then Some (errorMetricContainsNotAllowedChars ns)
  else if strings_HasSuffix name "*"
  then Some (errorMetricEndsWithAsterisk ns)
  else None.

Definition appendIfMissing (keys : list string) (ns : string) : list string :=
  if existsb (λ key, String.eqb ns key) keys then keys else keys ++ [ns].

Fixpoint getVersion (c : list metricType) (ver : Z) : exec (ret metricType) :=
  match c with
  | [] => Done (Err errMetricNotFound)
  | m :: c' =>
      match Plugin_Version m with
      | Panicked p => Panicked p
      | Done v => if v =? ver then Done (Ok m) else getVersion c' ver
      end
  end.

Definition getLatest (c : list metricType) : exec metricType :=
  match c with
  | [] => Panicked IndexOutOfRange
  | c0 :: _ =>
      Done (foldl (λ cur mt, if Version cur <? Version mt then mt else cur) c0 c)
  end.

Definition convertKeysToNamespaces (keys : list string) : list (list string) :=
  foldl (λ nss key,
           let ns := getMetricNamespace key in
           if bool_decide (length ns ≠ 0%nat) then nss ++ [ns] else nss)
        [] keys.

(** *** Methods that expect the mutex to be held *)

Definition matchedNamespaces (wkey : string) (mc : metricCatalog)
    : ret (list (list string)) :=
  match default [] (mKeys mc !! wkey) with
  | [] => Err (errorMetricNotFound (getMetricNamespace wkey) None)
  | mkeys => Ok (convertKeysToNamespaces mkeys)
  end.

Definition removeItemFromMatchingMap (wkey : string) (mc : metricCatalog)
    : metricCatalog :=
  match mKeys mc !! wkey with
  | Some _ => set_mKeys (delete wkey (mKeys mc)) mc
  | None => mc
  end.

(** The pattern [addItemToMatchingMap] compiles for a query key. *)
Definition wildcard_pattern (wkey : string) : string :=
  let exp := strings_Replace wkey "." "[.]" in
  let exp := strings_Replace exp "*" ".*" in
  "^" +:+ exp +:+ "$".

(** The keys of the key list that the compiled pattern matches, in the
    order of the key list. *)
Definition matchedKeys_of `{Regexp} (regex : Regexp_t) (keys : list string)
    : list string :=
  foldl (λ matchedKeys key,
           if regexp_matches regex key then appendIfMissing matchedKeys key
           else matchedKeys)
        [] keys.

Definition addItemToMatchingMap `{Regexp} (wkey : string) : M unit :=
  λ mc,
    match regexp_MustCompile (wildcard_pattern wkey) with
    | None => Panics RegexpCompile mc
    | Some regex =>
        match matchedKeys_of regex (keys mc) with
        | [] => Returns () (removeItemFromMatchingMap wkey mc)
        | matchedKeys =>
            Returns () (set_mKeys (<[wkey := matchedKeys]> (mKeys mc)) mc)
        end
    end.

(** [updateMatchingMap] ranges over the cache while
    [addItemToMatchingMap] rewrites or deletes the entry of the key at
    hand only: every key cached at the start is visited once. *)
Definition updateMatchingMap `{Regexp} : M unit :=
  λ mc, for_each addItemToMatchingMap (map_to_list (mKeys mc)).*1 mc.

(** [append(mkeys[:index], mkeys[index+1:]...)] has room in the array
    behind [mkeys] and is done in place: the elements after [index]
    move one place down, the last place keeps its element, and the
    result is the array without its last place. *)
Definition remove_in_place (arr : list string) (index : nat) : list string :=
  take index arr ++ drop (S index) arr ++ drop (length arr - 1) arr.

(** The body of the inner loop of [removeMatchedKey], on the array
    behind [mkeys] and the cache: the place [index] is read from the
    array as it is by then. *)
Definition scan_step (key wkey : string)
    (st : list string * gmap string (list string)) (index : nat)
    : list string * gmap string (list string) :=
  let '(arr, mk) := st in
  match arr !! index with
  | Some mkey =>
      if String.eqb mkey key
      then let arr' := remove_in_place arr index in
           (arr', <[wkey := take (length arr - 1) arr']> mk)
      else (arr, mk)
  | None => (arr, mk)
  end.

(** The inner loop of [removeMatchedKey]: it ranges over the places of
    [mkeys]. *)
Definition removeMatchedKey_scan (key wkey : string) (mkeys : list string)
    (mk : gmap string (list string)) : gmap string (list string) :=
  (foldl (scan_step key wkey) (mkeys, mk) (seq 0 (length mkeys))).2.

(** [removeMatchedKey] ranges over the cache and, for each query key,
    rewrites or deletes the entry of that query key only: every entry
    cached at the start is visited once, with the list it had at the
    start. *)
Definition removeMatchedKey (key : string) (mc : metricCatalog) : metricCatalog :=
  foldl (λ mc '(wkey, mkeys),
           let mc := set_mKeys (removeMatchedKey_scan key wkey mkeys (mKeys mc)) mc in
           if bool_decide (length (default [] (mKeys mc !! wkey)) = 0%nat)
           then removeItemFromMatchingMap wkey mc
           else mc)
        mc (map_to_list (mKeys mc)).

Definition getVersions (ns : list string) (mc : metricCatalog)
    : ret (list metricType) :=
  match MTTrie_Get ns (tree mc) with
  | Err e => Err e
  | Ok [] => Err (errorMetricNotFound ns None)
  | Ok mts => Ok mts
  end.

Definition get (ns : list string) (ver : Z) (mc : metricCatalog)
    : exec (ret metricType) :=
  match getVersions ns mc with
  | Err e => Done (Err e)
  | Ok mts =>
      if 0 <? ver then
        match getVersion mts ver with
        | Panicked p => Panicked p
        | Done (Err _) => Done (Err (errorMetricNotFound ns (Some ver)))
        | Done (Ok l) => Done (Ok l)
        end
      else
        match getLatest mts with
        | Panicked p => Panicked p
        | Done m => Done (Ok m)
        end
  end.

(** Entries live in the trie and [get] hands out a pointer to one.
    The embedding keeps entries by value, so what a method writes
    through that pointer is written back to the place of the entry:
    the node of its namespace, under its version. *)
Definition write_back (ns : list string) (m : metricType) (mc : metricCatalog)
    : metricCatalog :=
  set_tree (MTTrie_store ns (Version m) m (tree mc)) mc.

(** *** The public methods *)

Definition Keys : M (list string) :=
  λ mc, Returns (keys mc) mc.

Definition GetQueriedNamespaces (ns : list string) : M (ret (list (list string))) :=
  locked (
    let wkey := getMetricKey ns in
    gets (matchedNamespaces wkey)).

Definition MatchQuery `{Regexp} (ns : list string)
    : M (ret (list (list string))) :=
  locked (
    let wkey := getMetricKey ns in
    addItemToMatchingMap wkey ;;
    gets (matchedNamespaces wkey)).

Definition RmUnloadedPluginMetrics `{Regexp} (lp : loadedPlugin) : M unit :=
  locked (
    modify (λ mc, set_tree (MTTrie_DeleteByPlugin lp (tree mc)) mc) ;;
    updateMatchingMap).

Definition Add (m : metricType) : M unit :=
  locked (
    let key := getMetricKey (namespace m) in
    modify (λ mc, set_keys (appendIfMissing (keys mc) key) mc) ;;
    modify (λ mc, set_tree (MTTrie_Add m (tree mc)) mc)).

Definition AddLoadedMetricType (lp : loadedPlugin) (mt : coreMetric)
    : M (option error) :=
  match validateMetricNamespace (cm_Namespace mt) with
  | Some err => mret (Some err)
  | None =>
      match lp_ConfigPolicy lp with
      | None => mret (Some errConfigPolicyNil)
      | Some cp =>
          let newMt :=
            {| Plugin := Some lp; namespace := cm_Namespace mt;
               version := cm_Version mt;
               lastAdvertisedTime := cm_LastAdvertisedTime mt;
               subscriptions := 0;
               policy := Some (ConfigPolicy_Get cp (cm_Namespace mt));
               config := None; data := None; source := EmptyString;
               labels := cm_Labels mt; tags := cm_Tags mt; timestamp := 0 |} in
          Add newMt ;; mret None
      end
  end.

Definition Get (ns : list string) (version : Z) : M (ret metricType) :=
  locked (λ mc, run_exec (get ns version mc) mc).

Definition GetVersions (ns : list string) : M (ret (list metricType)) :=
  locked (gets (getVersions ns)).

Definition Fetch (ns : list string) : M (ret (list metricType)) :=
  locked (gets (λ mc, MTTrie_Fetch ns (tree mc))).

Definition Remove (ns : list string) : M unit :=
  locked (
    modify (λ mc, set_tree (MTTrie_Remove ns (tree mc)) mc) ;;
    let key := getMetricKey ns in
    modify (removeMatchedKey key)).

Definition Item : M (string * list metricType) :=
  λ mc,
    let index := wrap_int (currentIter mc - 1) in
    if (index <? 0) || (Z.of_nat (length (keys mc)) <=? index)
    then Panics IndexOutOfRange mc
    else
      let key := default EmptyString (keys mc !! Z.to_nat index) in
      let ns := strings_Split key "." in
      let mtsi := match MTTrie_Get ns (tree mc) with
                  | Ok mtsi => mtsi
                  | Err _ => []
                  end in
      Returns (key, foldl (λ mts mt, mts ++ [mt]) [] mtsi) mc.

Definition Next : M bool :=
  λ mc,
    let mc := set_currentIter (wrap_int (currentIter mc + 1)) mc in
    if Z.of_nat (length (keys mc)) <? currentIter mc
    then Returns false (set_currentIter 0 mc)
    else Returns true mc.

Definition Subscribe (ns : list string) (version : Z) : M (option error) :=
  locked (λ mc,
    match get ns version mc with
    | Panicked p => Panics p mc
    | Done (Err err) => Returns (Some err) mc
    | Done (Ok m) => Returns None (write_back ns (Subscribe_mt m) mc)
    end).

Definition Unsubscribe (ns : list string) (version : Z) : M (option error) :=
  locked (λ mc,
    match get ns version mc with
    | Panicked p => Panics p mc
    | Done (Err err) => Returns (Some err) mc
    | Done (Ok m) =>
        let '(m', err) := Unsubscribe_mt m in
        Returns err (write_back ns m' mc)
    end).

Definition GetPlugin (mns : list string) (ver : Z) : M (ret (option loadedPlugin)) :=
  r ← Get mns ver;
  match r with
  | Err err => mret (Err err)
  | Ok m => mret (Ok (Plugin m))
  end.

(** ** Outcomes of calls *)

(** What a call returned, and the catalog it left (the catalog it was
    made on when it never got the mutex). *)
Definition returned {A : Type} (o : outcome A) : option A :=
  match o with
  | Returns a _ => Some a
  | Panics _ _ | Blocks => None
  end.

Definition state_after {A : Type} (o : outcome A) (mc : metricCatalog)
    : metricCatalog :=
  match o with
  | Returns _ mc' | Panics _ mc' => mc'
  | Blocks => mc
  end.

(** ** Sample data *)

Definition mock1 : loadedPlugin :=
  {| lp_TypeName := "collector"; lp_Name := "mock"; lp_Version := 1;
     lp_ConfigPolicy := Some [] |}.

Definition mock_foo : metricType :=
  newMetricType ["intel"; "mock"; "foo"] 0 (Some mock1).
Definition mock_bar : metricType :=
  newMetricType ["intel"; "mock"; "bar"] 0 (Some mock1).

(** /intel/mock/foo advertised with the explicit version 2 by version 1
    of the plugin, and the catalog that holds it. *)
Definition mock_foo_v2 : metricType :=
  {| Plugin := Some mock1; namespace := ["intel"; "mock"; "foo"];
     version := 2; lastAdvertisedTime := 0; subscriptions := 0;
     policy := None; config := None; data := None; source := EmptyString;
     labels := []; tags := []; timestamp := 0 |}.

(** A catalog with the one metric /intel/mock/foo. *)
Definition catalog_foo : metricCatalog :=
  state_after (Add mock_foo newMetricCatalog) newMetricCatalog.

(** A catalog with /intel/mock/foo and /intel/mock/bar. *)
Definition catalog_foo_bar : metricCatalog :=
  state_after (Add mock_bar catalog_foo) catalog_foo.

Definition catalog_foo_v2 : metricCatalog :=
  state_after (Add mock_foo_v2 newMetricCatalog) newMetricCatalog.

(** ** Statements about the key codec *)

(** A segment is free of the separator. *)
Definition dot_free (s : string) : Prop := string_mem "." s = false.

(** The number of separators in a key, and of segments it splits
    into. *)
Fixpoint count_sep (s : string) : nat :=
  match s with
  | EmptyString => 0
  | String c s' => (if Ascii.eqb c "." then 1 else 0) + count_sep s'
  end.

Definition segments (key : string) : nat := length (getMetricNamespace key).

(** ** Statements about subscriptions *)

(** A call on one entry, and the course of a sequence of calls: for
    each call the entry before, the entry after and the error
    returned. *)
Inductive call : Type :=
  | CallSubscribe
  | CallUnsubscribe.

Definition do_call (c : call) (m : metricType) : metricType * option error :=
  match c with
  | CallSubscribe => (Subscribe_mt m, None)
  | CallUnsubscribe => Unsubscribe_mt m
  end.

Record call_step : Type := {
  step_before : metricType;
  step_call : call;
  step_after : metricType;
  step_err : option error
}.

Fixpoint do_calls (cs : list call) (m : metricType) : list call_step :=
  match cs with
  | [] => []
  | c :: cs' =>
      let '(m', err) := do_call c m in
      {| step_before := m; step_call := c; step_after := m'; step_err := err |}
      :: do_calls cs' m'
  end.

(** What the specification says of one call. *)
Definition call_step_ok (st : call_step) : Prop :=
  0 ≤ SubscriptionCount (step_after st)
  ∧ match step_call st with
    | CallSubscribe =>
        SubscriptionCount (step_after st) = SubscriptionCount (step_before st) + 1
        ∧ step_err st = None
    | CallUnsubscribe =>
        if SubscriptionCount (step_before st) =? 0
        then step_err st = Some errNegativeSubCount
             ∧ step_after st = step_before st
        else SubscriptionCount (step_after st) = SubscriptionCount (step_before st) - 1
             ∧ step_err st = None
    end.

(** ** Statements about the validator *)

(** The characters of the disallowed sets as the specification names
    them: brackets, whitespace, the punctuation marks . , ; ? !, the
    slash characters, the caret and the quote marks. *)
Definition spec_brackets : list ascii := ["("; ")"; "["; "]"; "{"; "}"]%char.
Definition spec_whitespace : list ascii :=
  [" "; "009"; "010"; "011"; "012"; "013"]%char.
Definition spec_punctuation : list ascii := ["."; ","; ";"; "?"; "!"]%char.
Definition spec_slashes : list ascii := ["|"; "\"; "/"]%char.
Definition spec_quotes : list ascii := ["034"; "`"; "'"]%char.

Definition spec_disallowed : list ascii :=
  spec_brackets ++ spec_whitespace ++ spec_punctuation ++ spec_slashes
  ++ ["^"%char] ++ spec_quotes.

(** The same with the space as the only whitespace character. *)
Definition disallowed : list ascii :=
  spec_brackets ++ [" "%char] ++ spec_punctuation ++ spec_slashes
  ++ ["^"%char] ++ spec_quotes.

(** The joined namespace contains one of the characters of [set]. *)
Definition contains_one_of (set : list ascii) (ns : list string) : Prop :=
  ∃ c, c ∈ set ∧ string_mem c (strings_Join ns EmptyString) = true.

Definition ends_with_asterisk (ns : list string) : Prop :=
  strings_HasSuffix (strings_Join ns EmptyString) "*" = true.

(** Registration is turned down for the namespace. *)
Definition rejected (ns : list string) : Prop :=
  ∃ e, validateMetricNamespace ns = Some e ∧ kind_of e = InvalidNamespace.

(** ** Statements about wildcard patterns *)

(** The items of the pattern of a query key, read off the key: a
    separator stands for itself, an asterisk for any run of bytes, any
    other ASCII byte for itself unless it is an operator of the
    syntax. *)
Fixpoint glob_items (wkey : string) : option (list re_item) :=
  match wkey with
  | EmptyString => Some []
  | String c wkey' =>
      if Ascii.eqb c "." then (ReLit "." ::.) <$> glob_items wkey'
      else if Ascii.eqb c "*" then (ReAnyStar ::.) <$> glob_items wkey'
      else if re_literal c then (ReLit c ::.) <$> glob_items wkey'
      else None
  end.

(** The pattern of a query key, after its leading anchor. *)
Definition pattern_tail (wkey : string) : string :=
  strings_Replace (strings_Replace wkey "." "[.]") "*" ".*" +:+ "$".

(** A string without line feed. *)
Fixpoint one_line (s : string) : bool :=
  match s with
  | EmptyString => true
  | String c s' => negb (Ascii.eqb c "010") && one_line s'
  end.

#[global] Instance re_item_eq_dec : EqDecision re_item.
Proof. solve_decision. Defined.

(** The separators among the items of a pattern. *)
Definition count_lit_sep (r : list re_item) : nat :=
  length (filter (λ i, i = ReLit ".") r).

(** The query key is within the modelled part of the pattern syntax:
    each of its bytes is a separator, an asterisk or an ASCII byte
    that is no operator of the syntax, so that its pattern is made of
    literal bytes, ["[.]"] and [".*"] between the two anchors. *)
Definition in_fragment (wkey : string) : Prop := is_Some (glob_items wkey).

(** The engine agrees with the modelled part of the syntax: it
    compiles the pattern of every query key within that part, and
    the compiled pattern matches exactly the keys that the items of
    the query key match.  Nothing is asked of the engine on the other
    patterns. *)
Definition agrees_on_fragment `{Regexp} : Prop :=
  ∀ wkey items, glob_items wkey = Some items →
    ∃ regex, regexp_MustCompile (wildcard_pattern wkey) = Some regex
             ∧ ∀ key, regexp_matches regex key = re_match items key.

(** ** Statements about the trie *)

(** The versions registered for a namespace, with their entries. *)
Definition trie_lookup (ns : list string) (t : mttNode) : gmap Z metricType :=
  match MTTrie_find ns t with
  | Some n => node_mts n
  | None => ∅
  end.

(** The namespace has at least one registered version. *)
Definition registered (ns : list string) (mc : metricCatalog) : Prop :=
  trie_lookup ns (tree mc) ≠ ∅.

(** ** Statements about the cache *)

(** What the cache holds for a query key once it is derived from a key
    list: the matched keys, and no entry when there is none. *)
Definition derive `{Regexp} (keys : list string) (wkey : string)
    : option (list string) :=
  match regexp_MustCompile (wildcard_pattern wkey) with
  | Some regex =>
      match matchedKeys_of regex keys with
      | [] => None
      | matchedKeys => Some matchedKeys
      end
  | None => None
  end.

(** The pattern of the query key compiles. *)
Definition compiles `{Regexp} (wkey : string) : Prop :=
  is_Some (regexp_MustCompile (wildcard_pattern wkey)).

(** The cache after a query key is derived afresh from the key list. *)
Definition refresh `{Regexp} (wkey : string) (keys : list string)
    (mk : gmap string (list string)) : gmap string (list string) :=
  match derive keys wkey with
  | Some l => <[wkey := l]> mk
  | None => delete wkey mk
  end.

(** A cached list without a key, and no entry when nothing is left. *)
Definition without (key : string) (l : list string) : option (list string) :=
  match filter (λ k, k ≠ key) l with
  | [] => None
  | l' => Some l'
  end.

(** The body of the outer loop of [removeMatchedKey], on the cache. *)
Definition removeMatchedKey_step (key : string)
    (mk : gmap string (list string)) (item : string * list string)
    : gmap string (list string) :=
  let mk1 := removeMatchedKey_scan key item.1 item.2 mk in
  if bool_decide (length (default [] (mk1 !! item.1)) = 0%nat)
  then delete item.1 mk1 else mk1.

(** The outer loop of [removeMatchedKey], on the cache. *)
Definition removeMatchedKey_map (key : string) (mk : gmap string (list string))
    : gmap string (list string) :=
  foldl (removeMatchedKey_step key) mk (map_to_list mk).

(** Every cached list is without repetition. *)
Definition cache_NoDup (mk : gmap string (list string)) : Prop :=
  ∀ wkey l, mk !! wkey = Some l → NoDup l.

(** Every cached query key has a pattern that compiles. *)
Definition cache_compiles `{Regexp} (mk : gmap string (list string)) : Prop :=
  ∀ wkey l, mk !! wkey = Some l → compiles wkey.

(** How often a key occurs in a key list. *)
Definition occurrences (key : string) (keys : list string) : nat :=
  length (filter (λ k, k = key) keys).

(** The catalog keys cached for a query (none when it is not cached). *)
Definition cached_keys (Q : list string) (mc : metricCatalog) : list string :=
  default [] (mKeys mc !! getMetricKey Q).

(** What GetQueriedNamespaces makes of the keys cached for a query. *)
Definition namespaces_of (Q : list string) (l : list string)
    : ret (list (list string)) :=
  match l with
  | [] => Err (errorMetricNotFound (getMetricNamespace (getMetricKey Q)) None)
  | _ :: _ => Ok (map getMetricNamespace l)
  end.






(** ** Histories of calls *)

(** A call of a public method of the catalog. *)
Inductive op : Type :=
  | OpKeys
  | OpGetQueriedNamespaces (ns : list string)
  | OpMatchQuery (ns : list string)
  | OpAddLoadedMetricType (lp : loadedPlugin) (mt : coreMetric)
  | OpRmUnloadedPluginMetrics (lp : loadedPlugin)
  | OpAdd (m : metricType)
  | OpGet (ns : list string) (version : Z)
  | OpGetVersions (ns : list string)
  | OpFetch (ns : list string)
  | OpRemove (ns : list string)
  | OpItem
  | OpNext
  | OpSubscribe (ns : list string) (version : Z)
  | OpUnsubscribe (ns : list string) (version : Z)
  | OpGetPlugin (mns : list string) (ver : Z).

(** The catalog a call leaves. *)
Definition call_op `{Regexp} (o : op) (mc : metricCatalog) : metricCatalog :=
  match o with
  | OpKeys => state_after (Keys mc) mc
  | OpGetQueriedNamespaces ns => state_after (GetQueriedNamespaces ns mc) mc
  | OpMatchQuery ns => state_after (MatchQuery ns mc) mc
  | OpAddLoadedMetricType lp mt => state_after (AddLoadedMetricType lp mt mc) mc
  | OpRmUnloadedPluginMetrics lp => state_after (RmUnloadedPluginMetrics lp mc) mc
  | OpAdd m => state_after (Add m mc) mc
  | OpGet ns version => state_after (Get ns version mc) mc
  | OpGetVersions ns => state_after (GetVersions ns mc) mc
  | OpFetch ns => state_after (Fetch ns mc) mc
  | OpRemove ns => state_after (Remove ns mc) mc
  | OpItem => state_after (Item mc) mc
  | OpNext => state_after (Next mc) mc
  | OpSubscribe ns version => state_after (Subscribe ns version mc) mc
  | OpUnsubscribe ns version => state_after (Unsubscribe ns version mc) mc
  | OpGetPlugin mns ver => state_after (GetPlugin mns ver mc) mc
  end.

(** The catalog after a history of calls, one after the other, on a
    new catalog. *)
Definition run `{Regexp} (ops : list op) : metricCatalog :=
  foldl (λ mc o, call_op o mc) newMetricCatalog ops.

(** What holds of the catalog between calls. *)
Record catalog_inv `{Regexp} (mc : metricCatalog) : Prop := {
  inv_mutex : mutex mc = false;
  inv_keys : NoDup (keys mc);
  inv_iter :
    Z.of_nat (length (keys mc)) < max_int →
    0 ≤ currentIter mc ≤ Z.of_nat (length (keys mc));
  inv_cache :
    ∀ wkey l, mKeys mc !! wkey = Some l →
      l ≠ [] ∧ NoDup l ∧ (∀ k, k ∈ l → k ∈ keys mc) ∧ compiles wkey;
  inv_trie :
    ∀ ns k m, trie_lookup ns (tree mc) !! k = Some m →
      namespace m = ns ∧ Version m = k;
  inv_registered :
    ∀ ns, registered ns mc → getMetricKey ns ∈ keys mc
}.

(** ** Statements about the mutex *)

(** The method does nothing as long as another caller holds the mutex. *)
Definition waits_for_mutex {A : Type} (method : M A) : Prop :=
  ∀ mc, mutex mc = true → method mc = Blocks.

(** Called with the mutex free, the method comes to an end, by a return
    or by a panic, and leaves the mutex free. *)
Definition releases_mutex {A : Type} (method : M A) : Prop :=
  ∀ mc, mutex mc = false →
    match method mc with
    | Returns _ mc' | Panics _ mc' => mutex mc' = false
    | Blocks => False
    end.

(** The computation neither takes nor releases the mutex: it runs
    whether the mutex is held or not, and leaves it as it is. *)
Definition ignores_mutex {A : Type} (method : M A) : Prop :=
  ∀ mc, match method mc with
        | Returns _ mc' | Panics _ mc' => mutex mc' = mutex mc
        | Blocks => False
        end.

(** ** Statements about the helpers and the public methods *)

(** The entry has a plugin of another version than [ver]. *)
Definition other_version (ver : Z) (m : metricType) : Prop :=
  ∃ v, Plugin_Version m = Done v ∧ v ≠ ver.

(** Called with the mutex free, the method comes to an end and leaves
    the catalog as it found it. *)
Definition read_only {A : Type} (method : M A) : Prop :=
  ∀ mc, mutex mc = false →
    match method mc with
    | Returns _ mc' | Panics _ mc' => mc' = mc
    | Blocks => False
    end.

(** The catalog after [n] calls of Next. *)
Definition after_Next (n : nat) (mc : metricCatalog) : metricCatalog :=
  Nat.iter n (λ mc, state_after (Next mc) mc) mc.

(** A cache with one query key. *)
Definition cache_mock : gmap string (list string) :=
  {[ "intel.mock.*" := ["intel.mock.foo"; "intel.mock.bar"] ]}.

Definition catalog_cached : metricCatalog :=
  set_mKeys cache_mock catalog_foo_bar.

(** Every byte of the key is the separator or a literal of the
    pattern syntax: the key holds no asterisk and no other operator. *)
Fixpoint plain_key (wkey : string) : bool :=
  match wkey with
  | EmptyString => true
  | String c wkey' => (Ascii.eqb c "." || re_literal c) && plain_key wkey'
  end.

(** The items of a pattern that stands for the string itself. *)
Fixpoint lits (s : string) : list re_item :=
  match s with
  | EmptyString => []
  | String c s' => ReLit c :: lits s'
  end.

(** The entries registered for a namespace, in the order in which the
    modelled trie returns them. *)
Definition entries (ns : list string) (mc : metricCatalog) : list metricType :=
  (map_to_list (trie_lookup ns (tree mc))).*2.

(** What [get] makes of the entries of the namespace once
    [mc.tree.Get] has returned them in the order [mts]: the trie
    ranges over the map of the node, in an order that may differ from
    one call to the next. *)
Definition get_of (mts : list metricType) (ns : list string) (ver : Z)
    : exec (ret metricType) :=
  match mts with
  | [] => Done (Err (errorMetricNotFound ns None))
  | _ :: _ =>
      if 0 <? ver then
        match getVersion mts ver with
        | Panicked p => Panicked p
        | Done (Err _) => Done (Err (errorMetricNotFound ns (Some ver)))
        | Done (Ok l) => Done (Ok l)
        end
      else
        match getLatest mts with
        | Panicked p => Panicked p
        | Done m => Done (Ok m)
        end
  end.

(** [get] comes to [r] in whatever order the trie returns the entries
    of the namespace. *)
Definition resolves (ns : list string) (ver : Z) (mc : metricCatalog)
    (r : exec (ret metricType)) : Prop :=
  ∀ mts, mts ≡ₚ entries ns mc → get_of mts ns ver = r.

(** ** snapctl: the metric commands (cmd/snapctl/metric.go) *)

Module snapctl.

(** How a command comes to an end: it runs to its end, it panics on a
    slice expression whose bounds are out of range, or it leaves
    through [os.Exit]. *)
Inductive ending (A : Type) : Type :=
  | Finishes (a : A)
  | SliceBoundsOutOfRange
  | Exits (code : Z).
Arguments Finishes {A} a.
Arguments SliceBoundsOutOfRange {A}.
Arguments Exits {A} code.

(** The string without its first [n] bytes. *)
Fixpoint drop_bytes (n : nat) (s : string) : string :=
  match n, s with
  | O, _ => s
  | S n', String _ s' => drop_bytes n' s'
  | S _, EmptyString => EmptyString
  end.

(** The slice expression [s[i:]]; [None] is the run-time panic, raised
    unless [0 <= i <= len(s)]. *)
Definition slice_from (s : string) (i : Z) : option string :=
  if (i <? 0) || (Z.of_nat (String.length s) <? i) then None
  else Some (drop_bytes (Z.to_nat i) s).

(** The opening of [listMetrics]: the namespace that is asked of the
    server, made to end with ["/*"]. *)
Definition listMetrics_ns (ns : string) : ending string :=
  if negb (String.eqb ns EmptyString) then
    match slice_from ns (Z.of_nat (String.length ns) - 2) with
    | None => SliceBoundsOutOfRange
    | Some last2 =>
        if negb (String.eqb last2 "/*") then
          match slice_from ns (Z.of_nat (String.length ns) - 1) with
          | None => SliceBoundsOutOfRange
          | Some last1 =>
              if String.eqb last1 "/" then Finishes (ns +:+ "*")
              else Finishes (ns +:+ "/*")
          end
        else Finishes ns
    end
  else Finishes "/*".

(** What [listMetrics] reads of the answer of the client: the error,
    and of each metric of the catalog the namespace and the version. *)
Record Metric : Type := {
  mt_Namespace : string;
  mt_Version : Z
}.

Record GetMetricsResult : Type := {
  r_Catalog : list Metric;
  r_Err : option string
}.

(** [strconv.Itoa]: the decimal digits, after a minus sign when the
    integer is negative. *)
Definition strconv_Itoa (i : Z) : string :=
  NilZero.string_of_int (Z.to_int i).

(** The map [metsByVer] once the loop over the catalog is done. *)
Definition metsByVer (catalog : list Metric) : gmap string (list string) :=
  foldl (λ m mt,
           <[mt_Namespace mt :=
               default [] (m !! mt_Namespace mt) ++ [strconv_Itoa (mt_Version mt)]]> m)
        ∅ catalog.

(** The order of Go on strings: byte by byte, a proper prefix first. *)
Fixpoint string_leb (s t : string) : bool :=
  match s, t with
  | EmptyString, _ => true
  | String _ _, EmptyString => false
  | String a s', String b t' =>
      (nat_of_ascii a <? nat_of_ascii b)%nat
      || (Ascii.eqb a b && string_leb s' t')
  end.

Definition string_le (s t : string) : Prop := string_leb s t = true.

#[global] Instance string_le_dec : RelDecision string_le.
Proof. intros s t. unfold string_le. apply _. Defined.

(** [sort.Strings]: the strings in increasing order. *)
Definition sort_Strings (l : list string) : list string :=
  merge_sort string_le l.

(** The calls of [printFields] that [listMetrics] makes for a catalog,
    each with its fields: the header, then one row for each key of
    [metsByVer], the keys sorted. *)
Definition listMetrics_rows (catalog : list Metric) : list (list string) :=
  let m := metsByVer catalog in
  let key := sort_Strings (map_to_list m).*1 in
  ["NAMESPACE"; "VERSIONS"]
  :: map (λ ns, [ns; strings_Join (default [] (m !! ns)) ","]) key.

(** [listMetrics], given what the flags hold and the client: the rows
    it prints, unless it panics or exits with code 1 on an error of
    the client. *)
Definition listMetrics (FetchMetrics : string → Z → GetMetricsResult)
    (ns : string) (ver : Z) : ending (list (list string)) :=
  match listMetrics_ns ns with
  | Finishes ns' =>
      let mts := FetchMetrics ns' ver in
      match r_Err mts with
      | Some _ => Exits 1
      | None => Finishes (listMetrics_rows (r_Catalog mts))
      end
  | SliceBoundsOutOfRange => SliceBoundsOutOfRange
  | Exits code => Exits code
  end.

End snapctl.

(** The versions of the metrics of a namespace, in the order of the
    catalog. *)
Definition versions_of (ns : string) (catalog : list snapctl.Metric) : list Z :=
  snapctl.mt_Version <$> filter (λ mt, snapctl.mt_Namespace mt = ns) catalog.

(** The string ends with the suffix. *)
Definition ends_with (s suffix : string) : Prop := ∃ p, s = p +:+ suffix.

(** Strictly before, in the order of Go on strings. *)
Definition string_lt (s t : string) : Prop := snapctl.string_le s t ∧ s ≠ t.

(** A server with two versions of one metric and one of another. *)
Definition fetch_mock (ns : string) (ver : Z) : snapctl.GetMetricsResult :=
  {| snapctl.r_Catalog :=
       [ {| snapctl.mt_Namespace := "/intel/mock/foo"; snapctl.mt_Version := 1 |};
         {| snapctl.mt_Namespace := "/intel/mock/bar"; snapctl.mt_Version := 1 |};
         {| snapctl.mt_Namespace := "/intel/mock/foo"; snapctl.mt_Version := 2 |} ];
     snapctl.r_Err := None |}.

(** ** tribe: the default configuration *)

Module tribe.

(** Package [net] is Go's.  [getIP] uses the type [net.IP], of which
    it asks whether it is a loopback address ([IsLoopback]), its
    4-byte form when it has one ([To4], nil otherwise) and its text
    ([String]). *)
Class Net : Type := {
  IP : Type;
  IP_IsLoopback : IP → bool;
  IP_To4 : IP → option IP;
  IP_String : IP → string
}.

Section WithNet.

Context {net : Net}.

(** A [net.Addr] as the type switch of [getIP] sees it: a
    [*net.IPAddr] or a [*net.IPNet] with its field [IP], which may be
    nil, or an address of another type. *)
Inductive Addr : Type :=
  | IPAddr (ip : option IP)
  | IPNet (ip : option IP)
  | OtherAddr.

(** A network interface: what [Addrs] returns for it, [None] when it
    returns an error. *)
Record Interface : Type := {
  Addrs : option (list Addr)
}.

(** The body of the inner loop: the text that [getIP] returns for the
    address, [None] when it goes on to the next address. *)
Definition addr_text (addr : Addr) : option string :=
  let ip := match addr with
            | IPAddr ip | IPNet ip => ip
            | OtherAddr => None
            end in
  match ip with
  | None => None
  | Some ip =>
      if IP_IsLoopback ip then None
      else match IP_To4 ip with
           | None => None
           | Some ip4 => Some (IP_String ip4)
           end
  end.

(** The inner loop: the text for the first address that has one. *)
Fixpoint addrs_text (addrs : list Addr) : option string :=
  match addrs with
  | [] => None
  | addr :: addrs' =>
      match addr_text addr with
      | Some text => Some text
      | None => addrs_text addrs'
      end
  end.

(** The outer loop. *)
Fixpoint ifaces_text (ifaces : list Interface) : string :=
  match ifaces with
  | [] => "127.0.0.1"
  | i :: ifaces' =>
      match Addrs i with
      | None => "127.0.0.1"
      | Some addrs =>
          match addrs_text addrs with
          | Some text => text
          | None => ifaces_text ifaces'
          end
      end
  end.

(** [getIP], given what [net.Interfaces] returns ([None] for an
    error). *)
Definition getIP (interfaces : option (list Interface)) : string :=
  match interfaces with
  | None => "127.0.0.1"
  | Some ifaces => ifaces_text ifaces
  end.

End WithNet.

End tribe.

(** The interface lists its addresses and none of them has a text for
    getIP. *)
Definition no_address `{tribe.Net} (i : tribe.Interface) : Prop :=
  ∃ addrs, tribe.Addrs i = Some addrs
           ∧ Forall (λ addr, tribe.addr_text addr = None) addrs.

(* ================================================================== *)
(** * Part II: properties                                              *)
(* ================================================================== *)

Section KeyCodec.

Lemma Split_no_sep s sep :
  string_mem sep s = false → strings_Split s sep = [s].
Proof.
  induction s as [|c s IH]; simpl; [done|].
  rewrite Ascii.eqb_sym.
  destruct (Ascii.eqb c sep); simpl; [done|].
  intros Hs. by rewrite IH.
Qed.

Lemma Split_app_sep s t sep :
  string_mem sep s = false →
  strings_Split (s +:+ String sep t) sep = s :: strings_Split t sep.
Proof.
  induction s as [|c s IH]; simpl.
  - by rewrite Ascii.eqb_refl.
  - rewrite Ascii.eqb_sym.
    destruct (Ascii.eqb c sep); simpl; [done|].
    intros Hs. by rewrite IH.
Qed.

End KeyCodec.

(** ** C7: the key codec *)

Section KeyCodecRoundTrip.

Lemma Split_Join_dot_free (N : list string) :
  N ≠ [] → Forall dot_free N →
  strings_Split (strings_Join N ".") "." = N.
Proof.
  induction N as [|s N IH]; [done|].
  intros _ HN. apply Forall_cons in HN as [Hs HN].
  destruct N as [|s' N].
  - simpl. by apply Split_no_sep.
  - change (strings_Join (s :: s' :: N) ".")
      with (s +:+ String "." (strings_Join (s' :: N) ".")).
    rewrite Split_app_sep by done.
    f_equal. by apply IH.
Qed.

(** C7 (amended): for every namespace N with at least one segment,
    none of which contains the separator ".", getMetricKey followed
    by getMetricNamespace gives N back. *)
Theorem getMetricNamespace_getMetricKey (N : list string) :
  N ≠ [] → Forall dot_free N →
  getMetricNamespace (getMetricKey N) = N.
Proof. apply Split_Join_dot_free. Qed.

Lemma getMetricNamespace_getMetricKey_witness :
  getMetricNamespace (getMetricKey ["intel"; "mock"; "foo"])
  = ["intel"; "mock"; "foo"].
Proof.
  apply (getMetricNamespace_getMetricKey ["intel"; "mock"; "foo"]).
  - discriminate.
  - repeat constructor.
Defined.

(** C7 as stated fails: a segment that contains "." comes back as
    two segments, and the namespace without segments comes back as
    one empty segment. *)
Lemma getMetricNamespace_getMetricKey_counterexample :
  getMetricNamespace (getMetricKey ["intel"; "v1.0"]) ≠ ["intel"; "v1.0"]
  ∧ getMetricNamespace (getMetricKey []) ≠ [].
Proof. split; vm_compute; discriminate. Qed.

End KeyCodecRoundTrip.

(** ** C4: subscription counting *)

Section Subscriptions.

Lemma wrap_int_in_range z : min_int ≤ z ≤ max_int → wrap_int z = z.
Proof.
  unfold wrap_int, min_int, max_int, int_bits. intros Hz.
  rewrite Z.mod_small; lia.
Qed.

Lemma max_int_pos : 0 < max_int.
Proof. reflexivity. Qed.

Lemma min_int_neg : min_int < 0.
Proof. reflexivity. Qed.

Lemma do_call_ok c m :
  0 ≤ subscriptions m < max_int →
  call_step_ok {| step_before := m; step_call := c;
                  step_after := (do_call c m).1; step_err := (do_call c m).2 |}.
Proof.
  intros Hm. pose proof min_int_neg.
  destruct c; unfold call_step_ok, SubscriptionCount; simpl.
  - rewrite wrap_int_in_range by lia. repeat split; lia.
  - unfold Unsubscribe_mt.
    destruct (subscriptions m =? 0) eqn:E; simpl.
    + split; [lia | done].
    + apply Z.eqb_neq in E. rewrite wrap_int_in_range by lia.
      repeat split; lia.
Qed.

Lemma do_call_count_le c m :
  0 ≤ subscriptions m < max_int →
  subscriptions (do_call c m).1 ≤ subscriptions m + 1.
Proof.
  intros Hm. pose proof min_int_neg.
  destruct c; simpl.
  - rewrite wrap_int_in_range by lia. lia.
  - unfold Unsubscribe_mt.
    destruct (subscriptions m =? 0) eqn:E; simpl; [lia|].
    apply Z.eqb_neq in E. rewrite wrap_int_in_range by lia. lia.
Qed.

Lemma do_calls_length cs m : length (do_calls cs m) = length cs.
Proof.
  revert m. induction cs as [|c cs IH]; intros m; simpl; [done|].
  destruct (do_call c m). simpl. by rewrite IH.
Qed.

(** C4 (amended): for every entry with a count of zero or more and
    every sequence of Subscribe and Unsubscribe calls that is too
    short to take the count past the largest int, the count is never
    negative: Subscribe increments it by one; Unsubscribe on a count
    of zero returns the NegativeSubscriptionCount error and leaves
    the entry as it is, and otherwise decrements the count by one
    and returns no error. *)
Theorem subscription_count_never_negative (m : metricType) (cs : list call) :
  0 ≤ subscriptions m →
  subscriptions m + Z.of_nat (length cs) ≤ max_int →
  length (do_calls cs m) = length cs
  ∧ Forall call_step_ok (do_calls cs m).
Proof.
  intros H0 Hlen. split; [apply do_calls_length|].
  revert m H0 Hlen. induction cs as [|c cs IH]; intros m H0 Hlen; simpl.
  - constructor.
  - assert (0 ≤ subscriptions m < max_int) as Hm by (simpl in Hlen; lia).
    pose proof (do_call_ok c m Hm) as Hok.
    pose proof (do_call_count_le c m Hm) as Hle.
    destruct (do_call c m) as [m' err]; simpl in *.
    constructor; [done|].
    apply IH; [apply Hok | lia].
Qed.

Lemma subscription_count_never_negative_witness :
  Forall call_step_ok
    (do_calls [CallSubscribe; CallUnsubscribe; CallUnsubscribe]
       (newMetricType ["intel"; "mock"; "foo"] 0 None)).
Proof.
  apply (subscription_count_never_negative
           (newMetricType ["intel"; "mock"; "foo"] 0 None)
           [CallSubscribe; CallUnsubscribe; CallUnsubscribe]).
  - simpl. lia.
  - vm_compute. discriminate.
Defined.

(** C4 as stated fails at the end of the int range: Subscribe on a
    count of the largest int wraps to the smallest one. *)
Lemma subscription_count_counterexample :
  let m := set_subscriptions max_int (newMetricType ["intel"; "mock"; "foo"] 0 None) in
  0 ≤ SubscriptionCount m
  ∧ SubscriptionCount (do_call CallSubscribe m).1 < 0.
Proof. vm_compute. split; [discriminate | reflexivity]. Qed.

End Subscriptions.

(** ** C5: the namespace validator *)

Section Validator.

Lemma ContainsAny_byte name c :
  strings_ContainsAny name (String c EmptyString) = string_mem c name.
Proof. simpl. apply orb_false_r. Qed.

(** The walk over the table of the source asks, for each character
    of [disallowed], whether the name contains it. *)
Lemma notAllowedChars_check name :
  existsb (λ group, existsb (λ ch, strings_ContainsAny name ch) group.2)
    notAllowedChars
  = existsb (λ c, string_mem c name) disallowed.
Proof.
  unfold notAllowedChars, disallowed. cbn [existsb snd app spec_brackets
    spec_punctuation spec_slashes spec_quotes].
  rewrite !ContainsAny_byte, !orb_false_r, <- !orb_assoc. reflexivity.
Qed.

Lemma contains_one_of_disallowed ns :
  contains_one_of disallowed ns
  ↔ existsb (λ c, string_mem c (strings_Join ns EmptyString)) disallowed = true.
Proof.
  unfold contains_one_of. rewrite existsb_exists.
  split; intros (c & Hc & Hm); exists c; by rewrite ?list_elem_of_In in *.
Qed.

Lemma validateMetricNamespace_cases ns :
  validateMetricNamespace ns =
    if existsb (λ c, string_mem c (strings_Join ns EmptyString)) disallowed
    then Some (errorMetricContainsNotAllowedChars ns)
    else if strings_HasSuffix (strings_Join ns EmptyString) "*"
    then Some (errorMetricEndsWithAsterisk ns)
    else None.
Proof. unfold validateMetricNamespace. by rewrite notAllowedChars_check. Qed.

(** C5 (amended): registration validation rejects with
    InvalidNamespace exactly when the joined namespace contains one
    of the characters ( ) [ ] { }, the space, . , ; ? !, | \ /, the
    caret, or one of the three quote marks, or ends with an
    asterisk; the namespaces "/intel/mock/foo*" and
    "/intel/mock (foo)" are rejected; a namespace with none of those
    characters that does not end with an asterisk passes. *)
Theorem validateMetricNamespace_rejects_iff (ns : list string) :
  (rejected ns ↔ contains_one_of disallowed ns ∨ ends_with_asterisk ns)
  ∧ (validateMetricNamespace ns = None
     ↔ ¬ contains_one_of disallowed ns ∧ ¬ ends_with_asterisk ns)
  ∧ rejected ["intel"; "mock"; "foo*"]
  ∧ rejected ["intel"; "mock (foo)"].
Proof.
  split_and!.
  - rewrite contains_one_of_disallowed.
    unfold rejected, ends_with_asterisk.
    rewrite validateMetricNamespace_cases.
    destruct (existsb _ disallowed); [|destruct (strings_HasSuffix _ _)].
    + split; [by left|]. intros _. by eexists.
    + split; [by right|]. intros _. by eexists.
    + split; [by intros (e & ? & _) | by intros [?|?]].
  - rewrite contains_one_of_disallowed.
    unfold ends_with_asterisk. rewrite validateMetricNamespace_cases.
    destruct (existsb _ disallowed); [|destruct (strings_HasSuffix _ _)].
    + split; [done | by intros [[] _]].
    + split; [done | by intros [_ []]].
    + split; [|done]. intros _. split; discriminate.
  - by eexists.
  - by eexists.
Qed.

Lemma validateMetricNamespace_rejects_iff_witness :
  validateMetricNamespace ["intel"; "mock"; "foo"] = None
  ∧ rejected ["intel"; "mock"; "foo;bar"].
Proof.
  destruct (validateMetricNamespace_rejects_iff ["intel"; "mock"; "foo"])
    as (_ & Hpass & _).
  destruct (validateMetricNamespace_rejects_iff ["intel"; "mock"; "foo;bar"])
    as (Hrej & _).
  split.
  - apply Hpass. rewrite contains_one_of_disallowed. split; vm_compute; discriminate.
  - apply Hrej. left. exists ";"%char. split; [|reflexivity].
    repeat first [apply list_elem_of_here | apply list_elem_of_further].
Defined.

(** C5 as stated fails for whitespace other than the space: a
    namespace with a tab passes validation. *)
Lemma validateMetricNamespace_counterexample :
  let ns := ["intel"; String "m" (String "009" "k")] in
  contains_one_of spec_disallowed ns ∧ ¬ rejected ns.
Proof.
  split.
  - exists "009"%char. split; [|reflexivity].
    repeat first [apply list_elem_of_here | apply list_elem_of_further].
  - intros (e & He & _). vm_compute in He. discriminate.
Qed.

End Validator.

(** ** C6: what an asterisk matches *)

Section Wildcard.

Lemma Split_length s : length (strings_Split s ".") = S (count_sep s).
Proof.
  induction s as [|c s IH]; simpl; [done|].
  destruct (Ascii.eqb c "."); simpl; [by rewrite IH|].
  destruct (strings_Split s ".") as [|piece pieces]; simpl in *; lia.
Qed.

Lemma segments_count_sep key : segments key = S (count_sep key).
Proof. apply Split_length. Qed.

Lemma string_app_assoc (s t u : string) : (s +:+ t) +:+ u = s +:+ t +:+ u.
Proof.
  induction s as [|c s IH]; [done|].
  change (String c ((s +:+ t) +:+ u) = String c (s +:+ t +:+ u)).
  by rewrite IH.
Qed.

Lemma Replace_app s t old new :
  strings_Replace (s +:+ t) old new
  = strings_Replace s old new +:+ strings_Replace t old new.
Proof.
  induction s as [|c s IH]; simpl; [done|].
  destruct (Ascii.eqb c old); simpl; rewrite IH; [|done].
  by rewrite string_app_assoc.
Qed.

Lemma wildcard_pattern_tail wkey :
  wildcard_pattern wkey = String "^" (pattern_tail wkey).
Proof. reflexivity. Qed.

Lemma pattern_tail_cons c wkey :
  pattern_tail (String c wkey) =
    if Ascii.eqb c "." then "[.]" +:+ pattern_tail wkey
    else if Ascii.eqb c "*" then ".*" +:+ pattern_tail wkey
    else String c (pattern_tail wkey).
Proof.
  unfold pattern_tail. simpl.
  destruct (Ascii.eqb_spec c ".") as [->|Hdot]; simpl.
  - by rewrite Replace_app.
  - destruct (Ascii.eqb c "*"); simpl; [done|done].
Qed.

(** The tail of a pattern never begins with [".]"], so that a "["
    of the query key is not read as the opening of a class. *)
Lemma pattern_tail_head wkey :
  match pattern_tail wkey with
  | String c1 (String c2 _) => Ascii.eqb c1 "." && Ascii.eqb c2 "]" = false
  | _ => True
  end.
Proof.
  destruct wkey as [|c wkey]; [done|].
  rewrite pattern_tail_cons.
  destruct (Ascii.eqb_spec c ".") as [->|Hdot]; [done|].
  destruct (Ascii.eqb_spec c "*") as [->|Hstar]; [done|].
  simpl. destruct (pattern_tail wkey); [done|].
  apply andb_false_intro1. by apply Ascii.eqb_neq.
Qed.

Lemma pattern_tail_nonempty wkey : pattern_tail wkey ≠ EmptyString.
Proof.
  unfold pattern_tail.
  destruct (strings_Replace _ _ _); discriminate.
Qed.

(** Compiling the pattern of a query key gives the items read off
    the key. *)
Lemma re_parse_pattern_tail wkey :
  re_parse_items (pattern_tail wkey) = glob_items wkey.
Proof.
  induction wkey as [|c wkey IH]; [done|].
  rewrite pattern_tail_cons. cbn [glob_items].
  destruct (Ascii.eqb_spec c ".") as [->|Hdot]; [by rewrite <- IH|].
  destruct (Ascii.eqb_spec c "*") as [->|Hstar]; [by rewrite <- IH|].
  cbn [re_parse_items].
  destruct (Ascii.eqb_spec c "$") as [->|Hdollar].
  { pose proof (pattern_tail_nonempty wkey).
    by destruct (pattern_tail wkey). }
  destruct (Ascii.eqb_spec c "[") as [->|Hbr].
  { pose proof (pattern_tail_head wkey) as Hhead.
    destruct (pattern_tail wkey) as [|c1 [|c2 tl]]; [done..|].
    by rewrite Hhead. }
  destruct (Ascii.eqb_spec c ".") as [->|_]; [done|].
  by rewrite IH.
Qed.

Lemma MustCompile_wildcard_pattern wkey :
  regexp_MustCompile (wildcard_pattern wkey) = glob_items wkey.
Proof. rewrite wildcard_pattern_tail. simpl. apply re_parse_pattern_tail. Qed.

End Wildcard.

Section WildcardMatch.

Lemma re_match_star r s :
  re_match (ReAnyStar :: r) s =
    re_match r s
    || match s with
       | String c s' => negb (Ascii.eqb c "010") && re_match (ReAnyStar :: r) s'
       | EmptyString => false
       end.
Proof. by destruct s. Qed.

(** An asterisk takes any run of bytes of one line, separators
    included. *)
Lemma re_match_star_absorbs r s t :
  one_line s = true → re_match r t = true →
  re_match (ReAnyStar :: r) (s +:+ t) = true.
Proof.
  intros Hs Ht. induction s as [|c s IH].
  - rewrite re_match_star. change (EmptyString +:+ t) with t. by rewrite Ht.
  - change (String c s +:+ t) with (String c (s +:+ t)).
    rewrite re_match_star. simpl in Hs.
    apply andb_prop in Hs as [Hc Hs]. rewrite Hc, IH by done.
    apply orb_true_r.
Qed.

Lemma count_lit_sep_cons i r :
  count_lit_sep (i :: r)
  = ((if decide (i = ReLit ".") then 1 else 0) + count_lit_sep r)%nat.
Proof.
  unfold count_lit_sep. rewrite filter_cons.
  by destruct (decide (i = ReLit ".")).
Qed.

(** Every separator of the pattern is matched by a separator of the
    key. *)
Lemma re_match_count_sep r key :
  re_match r key = true → (count_lit_sep r ≤ count_sep key)%nat.
Proof.
  revert key. induction r as [|i r IH]; intros key.
  - unfold count_lit_sep. simpl. lia.
  - rewrite count_lit_sep_cons. destruct i as [c|].
    + destruct key as [|c' key]; simpl; [done|].
      intros [Hc Hm]%andb_prop. apply Ascii.eqb_eq in Hc as <-.
      specialize (IH _ Hm).
      destruct (decide (ReLit c = ReLit ".")) as [[= ->]|Hne]; simpl; [lia|].
      destruct (Ascii.eqb c "."); lia.
    + rewrite decide_False by done. simpl plus.
      induction key as [|c' key IHkey]; rewrite re_match_star.
      * rewrite orb_false_r. apply IH.
      * intros [Hm|[_ Hm]%andb_prop]%orb_prop.
        -- apply IH, Hm.
        -- specialize (IHkey Hm). simpl. lia.
Qed.

Lemma glob_items_count_sep wkey r :
  glob_items wkey = Some r → count_lit_sep r = count_sep wkey.
Proof.
  revert r. induction wkey as [|c wkey IH]; intros r;
    cbn [glob_items count_sep].
  - by intros [= <-].
  - destruct (Ascii.eqb_spec c ".") as [->|Hdot].
    { destruct (glob_items wkey) as [r'|]; [|done]. intros [= <-].
      rewrite count_lit_sep_cons, decide_True by done. by rewrite (IH r'). }
    destruct (Ascii.eqb c "*").
    { destruct (glob_items wkey) as [r'|]; [|done]. intros [= <-].
      rewrite count_lit_sep_cons, decide_False by done. by rewrite (IH r'). }
    destruct (re_literal c); [|done].
    destruct (glob_items wkey) as [r'|]; [|done]. intros [= <-].
    rewrite count_lit_sep_cons, decide_False by congruence. by rewrite (IH r').
Qed.

(** A key that the pattern of a query key matches has at least the
    segments of the query key. *)
Lemma wildcard_match_segments wkey regex key :
  regexp_MustCompile (wildcard_pattern wkey) = Some regex →
  regexp_matches regex key = true →
  (segments wkey ≤ segments key)%nat.
Proof.
  rewrite MustCompile_wildcard_pattern. intros Hglob Hm.
  rewrite !segments_count_sep, <- (glob_items_count_sep _ _ Hglob).
  apply re_match_count_sep in Hm. lia.
Qed.

End WildcardMatch.

(** ** The mutex *)

Section Mutex.

Lemma locked_unfold {A} (body : M A) mc :
  locked body mc =
    if mutex mc then Blocks
    else match body (set_mutex true mc) with
         | Returns a mc' => Returns a (set_mutex false mc')
         | Panics p mc' => Panics p (set_mutex false mc')
         | Blocks => Blocks
         end.
Proof.
  unfold locked, mbind, M_bind, bind, Lock, defer, Unlock.
  destruct (mutex mc); [done|]. by destruct (body _).
Qed.

Lemma locked_held {A} (body : M A) mc :
  mutex mc = true → locked body mc = Blocks.
Proof. intros H. by rewrite locked_unfold, H. Qed.

End Mutex.

(** ** The wildcard match cache *)

Section Cache.

Context {regexp : Regexp}.

Lemma existsb_eqb_elem (y : string) l :
  existsb (λ key, String.eqb y key) l = true ↔ y ∈ l.
Proof.
  rewrite existsb_exists. split.
  - intros (x & Hx & ->%String.eqb_eq). by apply list_elem_of_In.
  - intros Hy. exists y. split; [by apply list_elem_of_In|apply String.eqb_refl].
Qed.

Lemma appendIfMissing_spec l y :
  appendIfMissing l y = if decide (y ∈ l) then l else l ++ [y].
Proof.
  unfold appendIfMissing.
  destruct (existsb _ l) eqn:E.
  - apply existsb_eqb_elem in E. by rewrite decide_True.
  - rewrite decide_False; [done|]. intros H%existsb_eqb_elem. congruence.
Qed.

Lemma appendIfMissing_elem l y x :
  x ∈ appendIfMissing l y ↔ x ∈ l ∨ x = y.
Proof.
  rewrite appendIfMissing_spec. case_decide.
  - split; [by left | by intros [?| ->]].
  - rewrite elem_of_app, list_elem_of_singleton. done.
Qed.

Lemma appendIfMissing_NoDup l y : NoDup l → NoDup (appendIfMissing l y).
Proof.
  intros Hl. rewrite appendIfMissing_spec. case_decide; [done|].
  apply NoDup_app. split_and!; [done| |apply NoDup_singleton].
  intros x Hx ->%list_elem_of_singleton. done.
Qed.

Lemma occurrences_notin (y : string) l : y ∉ l → occurrences y l = 0%nat.
Proof.
  unfold occurrences. induction l as [|x l IH]; [done|].
  intros [Hx Hl]%not_elem_of_cons. rewrite filter_cons, decide_False by done.
  by apply IH.
Qed.

Lemma occurrences_NoDup (y : string) l :
  NoDup l → y ∈ l → occurrences y l = 1%nat.
Proof.
  unfold occurrences. induction l as [|x l IH]; [by intros _ ?%elem_of_nil|].
  intros [Hx Hl]%NoDup_cons Hy. rewrite filter_cons.
  destruct (decide (x = y)) as [->|Hne].
  - simpl. f_equal. by apply occurrences_notin.
  - apply IH; [done|]. apply elem_of_cons in Hy as [->|]; done.
Qed.

Lemma appendIfMissing_occurrences l y :
  NoDup l → occurrences y (appendIfMissing l y) = 1%nat.
Proof.
  intros Hl. apply occurrences_NoDup; [by apply appendIfMissing_NoDup|].
  apply appendIfMissing_elem. by right.
Qed.

(** The matched keys, seen as a fold with an accumulator. *)
Lemma matchedKeys_fold_elem regex keys acc x :
  x ∈ foldl (λ matchedKeys key,
               if regexp_matches regex key then appendIfMissing matchedKeys key
               else matchedKeys) acc keys
  ↔ x ∈ acc ∨ (x ∈ keys ∧ regexp_matches regex x = true).
Proof.
  revert acc. induction keys as [|k keys IH]; intros acc; simpl.
  - split; [by left|]. intros [?|[H%elem_of_nil _]]; done.
  - rewrite IH. destruct (regexp_matches regex k) eqn:Ek.
    + rewrite appendIfMissing_elem, elem_of_cons.
      split; [intros [[?| ->]|[? ?]] | intros [?|[[->|?] ?]]]; auto.
    + rewrite elem_of_cons.
      split; [intros [?|[? ?]] | intros [?|[[->|?] ?]]]; auto; congruence.
Qed.

Lemma matchedKeys_of_elem regex keys x :
  x ∈ matchedKeys_of regex keys ↔ x ∈ keys ∧ regexp_matches regex x = true.
Proof.
  unfold matchedKeys_of. rewrite matchedKeys_fold_elem.
  split; [|by right]. intros [H%elem_of_nil|H]; done.
Qed.

Lemma matchedKeys_fold_NoDup regex keys acc :
  NoDup acc →
  NoDup (foldl (λ matchedKeys key,
                  if regexp_matches regex key then appendIfMissing matchedKeys key
                  else matchedKeys) acc keys).
Proof.
  revert acc. induction keys as [|k keys IH]; intros acc Hacc; simpl; [done|].
  apply IH. destruct (regexp_matches regex k); [|done].
  by apply appendIfMissing_NoDup.
Qed.

Lemma matchedKeys_of_NoDup regex keys : NoDup (matchedKeys_of regex keys).
Proof. apply matchedKeys_fold_NoDup, NoDup_nil_2. Qed.

Lemma matchedKeys_fold_filter regex keys acc :
  NoDup keys → (∀ k, k ∈ keys → k ∉ acc) →
  foldl (λ matchedKeys key,
           if regexp_matches regex key then appendIfMissing matchedKeys key
           else matchedKeys) acc keys
  = acc ++ filter (λ k, regexp_matches regex k = true) keys.
Proof.
  revert acc. induction keys as [|k keys IH]; intros acc Hnd Hacc; simpl.
  - by rewrite app_nil_r.
  - apply NoDup_cons in Hnd as [Hk Hnd]. rewrite filter_cons.
    destruct (regexp_matches regex k) eqn:Ek.
    + rewrite decide_True by done.
      rewrite appendIfMissing_spec, decide_False by (apply Hacc; left).
      rewrite IH; [by rewrite <- app_assoc|done|].
      intros k' Hk' [?| ->%list_elem_of_singleton]%elem_of_app; [|done].
      by eapply Hacc; [right|].
    + rewrite decide_False by congruence.
      apply IH; [done|]. intros k' Hk'. apply Hacc. by right.
Qed.

(** From a key list without repetition, the matched keys are the
    keys that match, in the order of the key list. *)
Lemma matchedKeys_of_filter regex keys :
  NoDup keys →
  matchedKeys_of regex keys = filter (λ k, regexp_matches regex k = true) keys.
Proof.
  intros Hnd. unfold matchedKeys_of.
  rewrite matchedKeys_fold_filter; [done..|]. intros k _. apply not_elem_of_nil.
Qed.

Lemma convertKeysToNamespaces_fold keys acc :
  foldl (λ nss key,
           let ns := getMetricNamespace key in
           if bool_decide (length ns ≠ 0%nat) then nss ++ [ns] else nss)
        acc keys
  = acc ++ map getMetricNamespace keys.
Proof.
  revert acc. induction keys as [|k keys IH]; intros acc; simpl.
  - by rewrite app_nil_r.
  - rewrite bool_decide_true.
    + rewrite IH. by rewrite <- app_assoc.
    + unfold getMetricNamespace. rewrite Split_length. lia.
Qed.

Lemma convertKeysToNamespaces_map keys :
  convertKeysToNamespaces keys = map getMetricNamespace keys.
Proof. apply convertKeysToNamespaces_fold. Qed.

Lemma set_mKeys_id mc : set_mKeys (mKeys mc) mc = mc.
Proof. by destruct mc. Qed.

Lemma removeItemFromMatchingMap_delete wkey mc :
  removeItemFromMatchingMap wkey mc = set_mKeys (delete wkey (mKeys mc)) mc.
Proof.
  unfold removeItemFromMatchingMap.
  destruct (mKeys mc !! wkey) eqn:E; [done|].
  by rewrite delete_id, set_mKeys_id.
Qed.

(** [addItemToMatchingMap] sets the cache of the query key to what
    the key list gives, and panics on a pattern that does not
    compile. *)
Lemma addItemToMatchingMap_spec wkey mc :
  addItemToMatchingMap wkey mc =
    match regexp_MustCompile (wildcard_pattern wkey) with
    | None => Panics RegexpCompile mc
    | Some _ =>
        Returns () (set_mKeys (match derive (keys mc) wkey with
                               | Some l => <[wkey := l]> (mKeys mc)
                               | None => delete wkey (mKeys mc)
                               end) mc)
    end.
Proof.
  unfold addItemToMatchingMap, derive.
  destruct (regexp_MustCompile _) as [regex|]; [|done].
  destruct (matchedKeys_of regex (keys mc)); [|done].
  by rewrite removeItemFromMatchingMap_delete.
Qed.

End Cache.

Section MatchQuery.

Context {regexp : Regexp}.

Lemma unlock_lock mc :
  mutex mc = false → set_mutex false (set_mutex true mc) = mc.
Proof. destruct mc; simpl. by intros ->. Qed.

Lemma unlock_set_mKeys mk mc :
  mutex mc = false →
  set_mutex false (set_mKeys mk (set_mutex true mc)) = set_mKeys mk mc.
Proof. destruct mc; simpl. by intros ->. Qed.

Lemma derive_nonempty keys wkey l : derive keys wkey = Some l → l ≠ [].
Proof.
  unfold derive. destruct (regexp_MustCompile _); [|done].
  destruct (matchedKeys_of _ _); [done|]. by intros [= <-].
Qed.

Lemma refresh_lookup wkey keys mk :
  refresh wkey keys mk !! wkey = derive keys wkey.
Proof.
  unfold refresh. destruct (derive keys wkey).
  - apply lookup_insert_eq.
  - apply lookup_delete_eq.
Qed.

Lemma refresh_lookup_ne wkey keys mk wkey' :
  wkey ≠ wkey' → refresh wkey keys mk !! wkey' = mk !! wkey'.
Proof.
  intros Hne. unfold refresh. destruct (derive keys wkey).
  - by apply lookup_insert_ne.
  - by apply lookup_delete_ne.
Qed.

(** What a lookup of the cache gives the caller. *)
Lemma matchedNamespaces_spec wkey mc :
  matchedNamespaces wkey mc =
    match mKeys mc !! wkey with
    | Some (k :: l) => Ok (map getMetricNamespace (k :: l))
    | _ => Err (errorMetricNotFound (getMetricNamespace wkey) None)
    end.
Proof.
  unfold matchedNamespaces.
  destruct (mKeys mc !! wkey) as [[|k l]|]; simpl; [done| |done].
  by rewrite convertKeysToNamespaces_map.
Qed.

Lemma MatchQuery_unfold ns mc :
  mutex mc = false →
  MatchQuery ns mc =
    match regexp_MustCompile (wildcard_pattern (getMetricKey ns)) with
    | None => Panics RegexpCompile mc
    | Some _ =>
        Returns
          match derive (keys mc) (getMetricKey ns) with
          | Some l => Ok (map getMetricNamespace l)
          | None => Err (errorMetricNotFound
                           (getMetricNamespace (getMetricKey ns)) None)
          end
          (set_mKeys (refresh (getMetricKey ns) (keys mc) (mKeys mc)) mc)
    end.
Proof.
  intros Hmu. unfold MatchQuery. rewrite locked_unfold, Hmu.
  unfold mbind, M_bind, bind. rewrite addItemToMatchingMap_spec.
  destruct (regexp_MustCompile _) as [regex|] eqn:Ec; [|by rewrite unlock_lock].
  unfold gets. rewrite matchedNamespaces_spec.
  change (keys (set_mutex true mc)) with (keys mc).
  change (mKeys (set_mutex true mc)) with (mKeys mc).
  fold (refresh (getMetricKey ns) (keys mc) (mKeys mc)).
  rewrite unlock_set_mKeys by done. f_equal.
  cbn [mKeys set_mKeys]. rewrite refresh_lookup.
  destruct (derive _ _) as [l|] eqn:Ed; [|done].
  apply derive_nonempty in Ed. by destruct l.
Qed.

Lemma GetQueriedNamespaces_unfold ns mc :
  mutex mc = false →
  GetQueriedNamespaces ns mc = Returns (matchedNamespaces (getMetricKey ns) mc) mc.
Proof.
  intros Hmu. unfold GetQueriedNamespaces. rewrite locked_unfold, Hmu.
  unfold gets. by rewrite unlock_lock.
Qed.

End MatchQuery.

(** ** C6: wildcard queries *)

Section WildcardQueries.

Context {regexp : Regexp}.

(** A key that the items of a query key match has at least the
    segments of the query key. *)
Lemma glob_match_segments wkey items key :
  glob_items wkey = Some items → re_match items key = true →
  (segments wkey ≤ segments key)%nat.
Proof.
  intros Hglob Hm.
  rewrite !segments_count_sep, <- (glob_items_count_sep _ _ Hglob).
  apply re_match_count_sep in Hm. lia.
Qed.

(** C6 (amended): for a regexp engine that agrees with the modelled
    part of the syntax, and a wildcard query whose key is within
    that part (separators, asterisks and ASCII bytes that are no
    regexp operators): an asterisk matches any run of bytes of one
    line, separators included, the pattern being anchored at the two
    ends of the key only; hence every catalog key matched by the
    query is a key of the key list with at least as many segments as
    the query pattern, and it may have more. *)
Theorem MatchQuery_segments (mc mc' : metricCatalog) (ns : list string)
    (nss : list (list string)) :
  agrees_on_fragment → in_fragment (getMetricKey ns) →
  MatchQuery ns mc = Returns (Ok nss) mc' →
  (∀ items s t, one_line s = true → re_match items t = true →
     re_match (ReAnyStar :: items) (s +:+ t) = true)
  ∧ Forall (λ n, ∃ key, key ∈ keys mc ∧ n = getMetricNamespace key
                 ∧ (segments (getMetricKey ns) ≤ segments key)%nat) nss.
Proof.
  intros Hagree [items Hitems] HQ. split; [apply re_match_star_absorbs|].
  destruct (Hagree _ _ Hitems) as (regex & Ec & Hsame).
  destruct (mutex mc) eqn:Hmu.
  { unfold MatchQuery in HQ. by rewrite locked_held in HQ. }
  rewrite MatchQuery_unfold in HQ by done.
  unfold derive in HQ. rewrite Ec in HQ.
  destruct (matchedKeys_of regex (keys mc)) as [|k l] eqn:El; [done|].
  rewrite <- El in HQ. injection HQ as <- _.
  apply Forall_forall. intros n (key & <- & Hkey)%list_elem_of_In%in_map_iff.
  apply list_elem_of_In, matchedKeys_of_elem in Hkey as [Hin Hm].
  exists key. split_and!; [done..|].
  rewrite Hsame in Hm. by eapply glob_match_segments.
Qed.

End WildcardQueries.

(** The modelled engine agrees with the modelled part of the syntax. *)
Lemma wildcard_fragment_agrees : agrees_on_fragment (H := wildcard_fragment).
Proof.
  intros wkey items Hitems. exists items. split; [|done].
  by rewrite MustCompile_wildcard_pattern.
Qed.

Lemma MatchQuery_segments_witness :
  Forall (λ n, ∃ key, key ∈ keys catalog_foo_bar ∧ n = getMetricNamespace key
               ∧ (segments (getMetricKey ["intel"; "mock"; "*"]) ≤ segments key)%nat)
    [["intel"; "mock"; "foo"]; ["intel"; "mock"; "bar"]].
Proof.
  eapply (MatchQuery_segments (regexp := wildcard_fragment)
            catalog_foo_bar _ ["intel"; "mock"; "*"]).
  - apply wildcard_fragment_agrees.
  - vm_compute. by eexists.
  - vm_compute. reflexivity.
Defined.

(** C6 as stated fails: the query /intel/* has two segments and
    matches the key of /intel/mock/foo, which has three. *)
Lemma MatchQuery_segments_counterexample :
  returned (MatchQuery ["intel"; "*"] catalog_foo)
  = Some (Ok [["intel"; "mock"; "foo"]])
  ∧ length ["intel"; "mock"; "foo"] ≠ length ["intel"; "*"].
Proof. split; [vm_compute; reflexivity | discriminate]. Qed.

(** ** The trie store *)

Section Trie.

Lemma trie_lookup_nil t : trie_lookup [] t = node_mts t.
Proof. done. Qed.

Lemma trie_lookup_cons s ns t :
  trie_lookup (s :: ns) t =
    match node_children t !! s with
    | Some c => trie_lookup ns c
    | None => ∅
    end.
Proof. unfold trie_lookup. simpl. by destruct (node_children t !! s). Qed.

Lemma trie_lookup_empty ns : trie_lookup ns NewMTTrie = ∅.
Proof. by destruct ns. Qed.

(** Storing an entry changes the versions of its namespace only. *)
Lemma trie_lookup_store ns' ns v m t :
  trie_lookup ns' (MTTrie_store ns v m t) =
    if decide (ns' = ns) then <[v := m]> (trie_lookup ns t)
    else trie_lookup ns' t.
Proof.
  revert ns' t. induction ns as [|s ns IH]; intros ns' t.
  - destruct ns' as [|s' ns']; cbn [MTTrie_store].
    + by rewrite decide_True.
    + rewrite decide_False by done. by rewrite !trie_lookup_cons.
  - destruct ns' as [|s' ns']; cbn [MTTrie_store].
    + rewrite decide_False by done. by rewrite !trie_lookup_nil.
    + rewrite !trie_lookup_cons. cbn [node_children].
      destruct (decide (s' = s)) as [->|Hs].
      * rewrite lookup_insert_eq, IH.
        destruct (decide (ns' = ns)) as [->|Hns].
        -- rewrite decide_True by done.
           destruct (node_children t !! s); simpl; [done|].
           by rewrite trie_lookup_empty.
        -- rewrite decide_False by congruence.
           destruct (node_children t !! s); simpl; [done|].
           by rewrite trie_lookup_empty.
      * rewrite lookup_insert_ne by done.
        by rewrite decide_False by congruence.
Qed.

Lemma trie_lookup_Add ns m t :
  trie_lookup ns (MTTrie_Add m t) =
    if decide (ns = namespace m) then <[Version m := m]> (trie_lookup (namespace m) t)
    else trie_lookup ns t.
Proof. apply trie_lookup_store. Qed.

(** Removing a namespace empties its versions and leaves the others. *)
Lemma trie_lookup_Remove ns' ns t :
  trie_lookup ns' (MTTrie_Remove ns t) =
    if decide (ns' = ns) then ∅ else trie_lookup ns' t.
Proof.
  revert ns' t. induction ns as [|s ns IH]; intros ns' t.
  - destruct ns' as [|s' ns']; cbn [MTTrie_Remove].
    + by rewrite decide_True.
    + rewrite decide_False by done. by rewrite !trie_lookup_cons.
  - destruct ns' as [|s' ns']; cbn [MTTrie_Remove].
    + rewrite decide_False by done.
      by destruct (node_children t !! s).
    + destruct (node_children t !! s) as [c|] eqn:Ec.
      * rewrite !trie_lookup_cons. cbn [node_children].
        destruct (decide (s' = s)) as [->|Hs].
        -- rewrite lookup_insert_eq, IH, Ec.
           destruct (decide (ns' = ns)) as [->|Hns].
           ++ by rewrite decide_True.
           ++ by rewrite decide_False by congruence.
        -- rewrite lookup_insert_ne by done.
           by rewrite decide_False by congruence.
      * destruct (decide (s' :: ns' = s :: ns)) as [[= -> ->]|Hne]; [|done].
        by rewrite trie_lookup_cons, Ec.
Qed.

Lemma trie_lookup_of_empty_node ns t :
  node_is_empty t = true → trie_lookup ns t = ∅.
Proof.
  unfold node_is_empty.
  intros [Hm%bool_decide_eq_true Hc%bool_decide_eq_true]%andb_prop.
  destruct ns as [|s ns]; [done|].
  by rewrite trie_lookup_cons, Hc, lookup_empty.
Qed.

(** Deleting by plugin filters the versions of every namespace. *)
Lemma trie_lookup_DeleteByPlugin ns lp t :
  trie_lookup ns (MTTrie_DeleteByPlugin lp t) =
    filter (λ kv, owned_by lp kv.2 = false) (trie_lookup ns t).
Proof.
  revert t. induction ns as [|s ns IH]; intros [m c]; [done|].
  rewrite !trie_lookup_cons. cbn [MTTrie_DeleteByPlugin node_children].
  rewrite lookup_omap. destruct (c !! s) as [c'|]; simpl.
  - destruct (node_is_empty (MTTrie_DeleteByPlugin lp c')) eqn:E; simpl.
    + by rewrite <- IH, trie_lookup_of_empty_node.
    + apply IH.
  - by rewrite map_filter_empty.
Qed.

(** What [MTTrie.Get] gives, from the versions of the namespace. *)
Lemma MTTrie_Get_lookup ns t :
  MTTrie_Get ns t =
    match (map_to_list (trie_lookup ns t)).*2 with
    | [] => Err (errorMetricNotFound ns None)
    | mts => Ok mts
    end.
Proof.
  unfold MTTrie_Get, trie_lookup.
  destruct (MTTrie_find ns t); [done|]. by rewrite map_to_list_empty.
Qed.

Lemma getVersions_lookup ns mc :
  getVersions ns mc =
    match (map_to_list (trie_lookup ns (tree mc))).*2 with
    | [] => Err (errorMetricNotFound ns None)
    | mts => Ok mts
    end.
Proof.
  unfold getVersions. rewrite MTTrie_Get_lookup. by destruct (_.*2).
Qed.

Lemma getVersions_Ok ns mc mts :
  getVersions ns mc = Ok mts →
  mts ≠ [] ∧ ∀ m, m ∈ mts ↔ ∃ k, trie_lookup ns (tree mc) !! k = Some m.
Proof.
  rewrite getVersions_lookup.
  destruct (_.*2) as [|m0 l] eqn:E; [done|]. intros [= <-]. split; [done|].
  intros m. rewrite <- E, list_elem_of_fmap. split.
  - intros ([k m'] & -> & H%elem_of_map_to_list). by exists k.
  - intros (k & H%elem_of_map_to_list). by exists (k, m).
Qed.

Lemma getVersions_registered ns mc :
  registered ns mc ↔ ∃ mts, getVersions ns mc = Ok mts.
Proof.
  unfold registered. rewrite getVersions_lookup.
  destruct (map_to_list _) as [|kv l] eqn:E; simpl.
  - apply map_to_list_empty_iff in E. rewrite E. split; [done|by intros [? ?]].
  - split; [by eexists|]. intros _ Hemp. rewrite Hemp, map_to_list_empty in E. done.
Qed.

End Trie.

(** ** C3: version resolution *)

Section VersionResolution.

Lemma getVersion_spec c ver :
  Forall (λ m, is_Some (Plugin m)) c →
  match getVersion c ver with
  | Done (Ok m) => m ∈ c ∧ Plugin_Version m = Done ver
  | Done (Err e) =>
      e = errMetricNotFound ∧ Forall (λ m, Plugin_Version m ≠ Done ver) c
  | Panicked _ => False
  end.
Proof.
  induction c as [|m c IH]; simpl; [done|].
  intros [[lp Hlp] Hc]%Forall_cons. specialize (IH Hc).
  unfold Plugin_Version at 1. rewrite Hlp.
  destruct (Z.eqb_spec (lp_Version lp) ver) as [<-|Hne].
  - split; [by left|]. unfold Plugin_Version. by rewrite Hlp.
  - destruct (getVersion c ver) as [[m'|e]|]; [|..|done].
    + destruct IH. split; [by right|done].
    + destruct IH as [-> IH]. split; [done|]. constructor; [|done].
      unfold Plugin_Version. rewrite Hlp. congruence.
Qed.

Lemma getLatest_fold cur l :
  let r := foldl (λ cur mt, if Version cur <? Version mt then mt else cur) cur l in
  (r = cur ∨ r ∈ l) ∧ Version cur ≤ Version r
  ∧ Forall (λ m', Version m' ≤ Version r) l.
Proof.
  revert cur. induction l as [|m l IH]; intros cur; simpl.
  - split_and!; [by left|lia|constructor].
  - destruct (Z.ltb_spec (Version cur) (Version m)) as [Hlt|Hge].
    + destruct (IH m) as (Hr & Hle & Hall). split_and!.
      * right. destruct Hr as [->|?]; [by left|by right].
      * lia.
      * by constructor.
    + destruct (IH cur) as (Hr & Hle & Hall). split_and!.
      * destruct Hr as [->|?]; [by left|right; by right].
      * done.
      * constructor; [lia|done].
Qed.

Lemma getLatest_spec c :
  c ≠ [] →
  ∃ m, getLatest c = Done m ∧ m ∈ c ∧ Forall (λ m', Version m' ≤ Version m) c.
Proof.
  destruct c as [|c0 c]; [done|]. intros _.
  eexists. split; [done|].
  destruct (getLatest_fold c0 (c0 :: c)) as (Hr & _ & Hall).
  split; [|done]. destruct Hr as [->|?]; [by left|done].
Qed.

Lemma Get_unfold ns v mc :
  mutex mc = false →
  Get ns v mc = match get ns v mc with
                | Done r => Returns r mc
                | Panicked p => Panics p mc
                end.
Proof.
  intros Hmu. unfold Get. rewrite locked_unfold, Hmu.
  change (get ns v (set_mutex true mc)) with (get ns v mc).
  unfold run_exec. destruct (get ns v mc); by rewrite unlock_lock.
Qed.

(** Version resolution as the code does it: for every namespace ns
    registered in the catalog and every requested version v: if
    v > 0 and every entry registered for ns has an owning plugin,
    Get(ns, v) returns an entry registered for ns whose owning
    plugin has version v, or fails MetricNotFound when no entry
    registered for ns has a plugin of that version; if v <= 0,
    Get(ns, v) returns the entry with the numerically highest
    version among those registered for ns (an entry whose explicit
    version is unset contributes its owning plugin's version). *)
Theorem Get_resolves_version (mc : metricCatalog) (ns : list string)
    (v : Z) (mts : list metricType) :
  mutex mc = false →
  getVersions ns mc = Ok mts →
  (0 < v → Forall (λ m, is_Some (Plugin m)) mts →
     match Get ns v mc with
     | Returns (Ok m) mc' =>
         mc' = mc ∧ m ∈ mts ∧ Plugin_Version m = Done v
     | Returns (Err e) mc' =>
         mc' = mc ∧ e = errorMetricNotFound ns (Some v)
         ∧ kind_of e = MetricNotFound
         ∧ Forall (λ m, Plugin_Version m ≠ Done v) mts
     | Panics _ _ | Blocks => False
     end)
  ∧ (v ≤ 0 →
     ∃ m, Get ns v mc = Returns (Ok m) mc ∧ m ∈ mts
          ∧ Forall (λ m', Version m' ≤ Version m) mts).
Proof.
  intros Hmu Hmts. rewrite Get_unfold by done. unfold get. rewrite Hmts.
  split.
  - intros Hv Hpl. rewrite (proj2 (Z.ltb_lt 0 v)) by done.
    pose proof (getVersion_spec mts v Hpl) as Hspec.
    destruct (getVersion mts v) as [[m|e]|]; [..|done].
    + by destruct Hspec.
    + by destruct Hspec.
  - intros Hv. rewrite (proj2 (Z.ltb_ge 0 v)) by done.
    destruct (getVersions_Ok _ _ _ Hmts) as [Hne _].
    destruct (getLatest_spec mts Hne) as (m & -> & Hin & Hmax).
    by exists m.
Qed.

Lemma Get_resolves_version_witness :
  (∃ m, Get ["intel"; "mock"; "foo"] 0 catalog_foo
        = Returns (Ok m) catalog_foo ∧ m ∈ [mock_foo]
        ∧ Forall (λ m', Version m' ≤ Version m) [mock_foo])
  ∧ match Get ["intel"; "mock"; "foo"] 1 catalog_foo with
    | Returns (Ok m) mc' =>
        mc' = catalog_foo ∧ m ∈ [mock_foo] ∧ Plugin_Version m = Done 1
    | Returns (Err e) mc' =>
        mc' = catalog_foo
        ∧ e = errorMetricNotFound ["intel"; "mock"; "foo"] (Some 1)
        ∧ kind_of e = MetricNotFound
        ∧ Forall (λ m, Plugin_Version m ≠ Done 1) [mock_foo]
    | Panics _ _ | Blocks => False
    end.
Proof.
  assert (mutex catalog_foo = false) as Hmu by reflexivity.
  assert (getVersions ["intel"; "mock"; "foo"] catalog_foo = Ok [mock_foo])
    as Hmts by (vm_compute; reflexivity).
  split.
  - apply (Get_resolves_version catalog_foo _ 0 _ Hmu Hmts). lia.
  - apply (Get_resolves_version catalog_foo _ 1 _ Hmu Hmts); [lia|].
    repeat constructor. by eexists.
Defined.

(** C3 (code bug): getVersion compares the requested version with
    the version of the owning plugin, not with the version of the
    entry.  With /intel/mock/foo registered at version 2 by version
    1 of its plugin, Get at version 2 fails MetricNotFound, and Get
    at version 1, at which nothing is registered, returns the entry
    of version 2. *)
Theorem Get_looks_up_plugin_version :
  let ns := ["intel"; "mock"; "foo"] in
  trie_lookup ns (tree catalog_foo_v2) !! 2 = Some mock_foo_v2
  ∧ Version mock_foo_v2 = 2
  ∧ returned (Get ns 2 catalog_foo_v2) = Some (Err (errorMetricNotFound ns (Some 2)))
  ∧ trie_lookup ns (tree catalog_foo_v2) !! 1 = None
  ∧ returned (Get ns 1 catalog_foo_v2) = Some (Ok mock_foo_v2)
  ∧ returned (Get ns 0 catalog_foo_v2) = Some (Ok mock_foo_v2).
Proof. vm_compute. done. Qed.

End VersionResolution.

(** ** Removing a key from the cache *)

Section RemoveMatchedKey.

Lemma removeMatchedKey_scan_fold key wkey mkeys mk :
  removeMatchedKey_scan key wkey mkeys mk
  = (foldl (scan_step key wkey) (mkeys, mk) (seq 0 (length mkeys))).2.
Proof. reflexivity. Qed.

(** Places that do not hold the key leave array and cache alone. *)
Lemma scan_step_skip key wkey arr mk idxs :
  (∀ i, i ∈ idxs → arr !! i ≠ Some key) →
  foldl (scan_step key wkey) (arr, mk) idxs = (arr, mk).
Proof.
  induction idxs as [|i idxs IH]; intros Hidx; simpl; [done|].
  assert (arr !! i ≠ Some key) as Hi by (apply Hidx; left).
  destruct (arr !! i) as [mkey|] eqn:E.
  - destruct (String.eqb_spec mkey key) as [->|_]; [done|].
    apply IH. intros j Hj. apply Hidx. by right.
  - apply IH. intros j Hj. apply Hidx. by right.
Qed.

Lemma last_place_tail (key : string) l2 :
  ∃ x, drop (length l2) (key :: l2) = [x] ∧ (l2 ≠ [] → x ∈ l2).
Proof.
  revert key. induction l2 as [|y l2 IH]; intros key.
  - by exists key.
  - destruct (IH y) as (x & Hx & Hin). exists x. split; [done|].
    intros _. destruct l2 as [|z l2].
    + injection Hx as <-. by left.
    + right. by apply Hin.
Qed.

Lemma last_place l1 (key : string) l2 :
  ∃ x, drop (length (l1 ++ key :: l2) - 1) (l1 ++ key :: l2) = [x]
       ∧ (l2 ≠ [] → x ∈ l2).
Proof.
  destruct (last_place_tail key l2) as (x & Hx & Hin). exists x.
  split; [|done]. rewrite length_app. simpl length.
  replace (length l1 + S (length l2) - 1)%nat
    with (length l1 + length l2)%nat by lia.
  by rewrite drop_app_add.
Qed.

(** The array once the key is removed in place. *)
Lemma remove_in_place_at l1 (key : string) l2 :
  ∃ x, remove_in_place (l1 ++ key :: l2) (length l1) = l1 ++ l2 ++ [x]
       ∧ (l2 ≠ [] → x ∈ l2).
Proof.
  destruct (last_place l1 key l2) as (x & Hx & Hin). exists x.
  split; [|done]. unfold remove_in_place. rewrite Hx.
  rewrite take_app_length.
  replace (S (length l1)) with (length (l1 ++ [key]))
    by (rewrite length_app; simpl; lia).
  replace (l1 ++ key :: l2) with ((l1 ++ [key]) ++ l2)
    by (by rewrite <- app_assoc).
  by rewrite drop_app_length.
Qed.

(** The inner loop on a list where the key occurs once. *)
Lemma removeMatchedKey_scan_found key wkey l1 l2 mk :
  key ∉ l1 → key ∉ l2 →
  removeMatchedKey_scan key wkey (l1 ++ key :: l2) mk
  = <[wkey := l1 ++ l2]> mk.
Proof.
  intros H1 H2. rewrite removeMatchedKey_scan_fold.
  rewrite length_app. simpl length.
  replace (length l1 + S (length l2))%nat
    with (length l1 + (1 + length l2))%nat by lia.
  rewrite seq_app, foldl_app. simpl seq. rewrite scan_step_skip.
  2:{ intros i Hi%elem_of_seq Hl. rewrite lookup_app_l in Hl by lia.
      apply H1. by eapply list_elem_of_lookup_2. }
  cbn [foldl]. unfold scan_step at 2.
  rewrite list_lookup_middle by done. rewrite String.eqb_refl.
  destruct (remove_in_place_at l1 key l2) as (x & -> & Hx).
  rewrite scan_step_skip.
  - cbn [snd]. f_equal. rewrite length_app. simpl length.
    replace (length l1 + S (length l2) - 1)%nat
      with (length (l1 ++ l2)) by (rewrite length_app; lia).
    by rewrite app_assoc, take_app_length.
  - intros i Hi%elem_of_seq Hl.
    destruct (decide (l2 = [])) as [->|Hne]; [simpl in Hi; lia|].
    rewrite lookup_app_r in Hl by lia.
    apply list_elem_of_lookup_2, elem_of_app in Hl as [?|Hl]; [done|].
    apply list_elem_of_singleton in Hl. subst x.
    by apply H2, Hx.
Qed.

Lemma removeMatchedKey_scan_absent key wkey mkeys mk :
  key ∉ mkeys → removeMatchedKey_scan key wkey mkeys mk = mk.
Proof.
  intros Hk. rewrite removeMatchedKey_scan_fold, scan_step_skip; [done|].
  intros i _ Hl. apply Hk. by eapply list_elem_of_lookup_2.
Qed.

Lemma filter_ne_absent (key : string) (l : list string) :
  key ∉ l → filter (λ k, k ≠ key) l = l.
Proof.
  induction l as [|x l IH]; [done|].
  intros [Hx Hl]%not_elem_of_cons. rewrite filter_cons, decide_True by done.
  by rewrite IH.
Qed.

(** On a list without repetition the inner loop leaves the list
    without the key. *)
Lemma removeMatchedKey_scan_NoDup key wkey mkeys mk :
  NoDup mkeys → mk !! wkey = Some mkeys →
  removeMatchedKey_scan key wkey mkeys mk
  = <[wkey := filter (λ k, k ≠ key) mkeys]> mk.
Proof.
  intros Hnd Hmk. destruct (decide (key ∈ mkeys)) as [Hin|Hnin].
  - apply list_elem_of_split in Hin as (l1 & l2 & ->).
    apply NoDup_app in Hnd as (_ & H1 & [H2 _]%NoDup_cons).
    assert (key ∉ l1) as Hl1 by (intros ?; eapply H1; [done|by left]).
    rewrite removeMatchedKey_scan_found by done. f_equal.
    rewrite filter_app, filter_cons, decide_False by (intros ?; done).
    by rewrite !filter_ne_absent.
  - rewrite removeMatchedKey_scan_absent, filter_ne_absent by done.
    by rewrite insert_id.
Qed.

End RemoveMatchedKey.

Section CacheUpdate.

Context {regexp : Regexp}.

Lemma removeMatchedKey_fold key mc L :
  foldl (λ mc '(wkey, mkeys),
           let mc := set_mKeys (removeMatchedKey_scan key wkey mkeys (mKeys mc)) mc in
           if bool_decide (length (default [] (mKeys mc !! wkey)) = 0%nat)
           then removeItemFromMatchingMap wkey mc
           else mc) mc L
  = set_mKeys (foldl (removeMatchedKey_step key) (mKeys mc) L) mc.
Proof.
  revert mc. induction L as [|[wkey mkeys] L IH]; intros mc.
  - simpl. by rewrite set_mKeys_id.
  - cbn [foldl]. rewrite IH.
    set (mc1 := set_mKeys (removeMatchedKey_scan key wkey mkeys (mKeys mc)) mc).
    assert (∀ b : bool,
               (if b then removeItemFromMatchingMap wkey mc1 else mc1)
               = set_mKeys (if b then delete wkey (mKeys mc1) else mKeys mc1) mc)
      as Hb.
    { intros []; [by rewrite removeItemFromMatchingMap_delete|done]. }
    by rewrite Hb.
Qed.

Lemma removeMatchedKey_step_lookup key mk wkey mkeys Q :
  mk !! wkey = Some mkeys → NoDup mkeys →
  removeMatchedKey_step key mk (wkey, mkeys) !! Q
  = if decide (Q = wkey) then without key mkeys else mk !! Q.
Proof.
  intros Hmk Hnd. unfold removeMatchedKey_step. cbn [fst snd].
  rewrite removeMatchedKey_scan_NoDup by done.
  rewrite lookup_insert_eq. cbn [default]. unfold without.
  destruct (filter _ mkeys) as [|k l] eqn:E.
  - rewrite bool_decide_true by done. case_decide as HQ.
    + subst. apply lookup_delete_eq.
    + rewrite lookup_delete_ne, lookup_insert_ne by done. done.
  - rewrite bool_decide_false by done. case_decide as HQ.
    + subst. apply lookup_insert_eq.
    + by rewrite lookup_insert_ne.
Qed.

Lemma removeMatchedKey_steps_lookup key L mk Q :
  NoDup L.*1 →
  (∀ wkey mkeys, (wkey, mkeys) ∈ L → mk !! wkey = Some mkeys ∧ NoDup mkeys) →
  foldl (removeMatchedKey_step key) mk L !! Q
  = if decide (Q ∈ L.*1) then mk !! Q ≫= without key else mk !! Q.
Proof.
  revert mk. induction L as [|[wkey mkeys] L IH]; intros mk Hnd HL.
  - case_decide as H; [by apply elem_of_nil in H|done].
  - cbn [foldl]. rewrite fmap_cons in Hnd. apply NoDup_cons in Hnd as [Hw Hnd].
    destruct (HL wkey mkeys) as [Hmk Hmkeys]; [by left|].
    rewrite IH; [|done|].
    + rewrite !removeMatchedKey_step_lookup by done.
      rewrite fmap_cons. cbn [fst].
      destruct (decide (Q = wkey)) as [->|HQ].
      * rewrite decide_False by done. rewrite decide_True by (by left).
        by rewrite Hmk.
      * destruct (decide (Q ∈ L.*1)) as [Hin|Hnin].
        -- by rewrite decide_True by (by right).
        -- rewrite decide_False; [done|]. by intros [?|?]%elem_of_cons.
    + intros w l Hwl. rewrite removeMatchedKey_step_lookup by done.
      rewrite decide_False.
      * apply HL. by right.
      * intros ->. apply Hw. apply list_elem_of_fmap. by exists (wkey, l).
Qed.

(** [removeMatchedKey] takes the key out of every cached list and
    drops the query keys left with nothing. *)
Lemma removeMatchedKey_spec key mc :
  cache_NoDup (mKeys mc) →
  removeMatchedKey key mc = set_mKeys (omap (without key) (mKeys mc)) mc.
Proof.
  intros Hnd. unfold removeMatchedKey. rewrite removeMatchedKey_fold.
  f_equal. apply map_eq. intros Q.
  rewrite removeMatchedKey_steps_lookup.
  - rewrite lookup_omap. case_decide as HQ; [done|].
    destruct (mKeys mc !! Q) as [l|] eqn:E; [|done].
    exfalso. apply HQ, list_elem_of_fmap. exists (Q, l).
    split; [done|]. by apply elem_of_map_to_list.
  - apply NoDup_fst_map_to_list.
  - intros wkey mkeys Hin%elem_of_map_to_list. split; [done|]. by eapply Hnd.
Qed.

Lemma for_each_addItemToMatchingMap L mc :
  (∀ wkey, wkey ∈ L → compiles wkey) →
  ∃ mk, for_each addItemToMatchingMap L mc = Returns () (set_mKeys mk mc)
        ∧ ∀ Q, mk !! Q = if decide (Q ∈ L) then derive (keys mc) Q
                         else mKeys mc !! Q.
Proof.
  revert mc. induction L as [|wkey L IH]; intros mc HL.
  - exists (mKeys mc). split; [by rewrite set_mKeys_id|].
    intros Q. by rewrite decide_False by apply not_elem_of_nil.
  - cbn [for_each]. unfold mbind, M_bind, bind.
    rewrite addItemToMatchingMap_spec.
    destruct (HL wkey) as [regex Hc]; [by left|]. rewrite Hc.
    fold (refresh wkey (keys mc) (mKeys mc)).
    destruct (IH (set_mKeys (refresh wkey (keys mc) (mKeys mc)) mc))
      as (mk & -> & Hmk); [intros w Hw; apply HL; by right|].
    exists mk. split; [done|]. intros Q. rewrite Hmk. cbn [keys mKeys set_mKeys].
    destruct (decide (Q ∈ L)) as [Hin|Hnin].
    + by rewrite decide_True by (by right).
    + destruct (decide (Q = wkey)) as [->|HQ].
      * rewrite decide_True by (by left). apply refresh_lookup.
      * rewrite decide_False by (by intros [?|?]%elem_of_cons).
        by apply refresh_lookup_ne.
Qed.

(** [updateMatchingMap] derives every cached query key afresh from
    the key list and drops the query keys that match nothing. *)
Lemma updateMatchingMap_spec mc :
  cache_compiles (mKeys mc) →
  updateMatchingMap mc
  = Returns () (set_mKeys (map_imap (λ wkey _, derive (keys mc) wkey) (mKeys mc)) mc).
Proof.
  intros Hc. unfold updateMatchingMap.
  destruct (for_each_addItemToMatchingMap (map_to_list (mKeys mc)).*1 mc)
    as (mk & -> & Hmk).
  { intros wkey ([w l] & -> & Hin%elem_of_map_to_list)%list_elem_of_fmap.
    by eapply Hc. }
  do 2 f_equal. apply map_eq. intros Q. rewrite Hmk, map_lookup_imap.
  destruct (mKeys mc !! Q) as [l|] eqn:E.
  - rewrite decide_True; [done|].
    apply list_elem_of_fmap. exists (Q, l). split; [done|].
    by apply elem_of_map_to_list.
  - rewrite decide_False; [done|].
    intros ([w l] & -> & Hin%elem_of_map_to_list)%list_elem_of_fmap.
    simpl in E. congruence.
Qed.

End CacheUpdate.

(** ** The public methods, unfolded *)

Section Methods.

Context {regexp : Regexp}.

Lemma removeMatchedKey_map_eq key mc :
  removeMatchedKey key mc = set_mKeys (removeMatchedKey_map key (mKeys mc)) mc.
Proof. apply removeMatchedKey_fold. Qed.

Lemma removeMatchedKey_map_spec key mk :
  cache_NoDup mk → removeMatchedKey_map key mk = omap (without key) mk.
Proof.
  intros Hnd.
  pose proof (removeMatchedKey_spec key
    {| tree := NewMTTrie; mutex := false; keys := []; mKeys := mk;
       currentIter := 0 |} Hnd) as H.
  rewrite removeMatchedKey_map_eq in H. by injection H.
Qed.

Lemma Add_unfold m mc :
  mutex mc = false →
  Add m mc =
    Returns () (set_tree (MTTrie_Add m (tree mc))
                  (set_keys (appendIfMissing (keys mc) (getMetricKey (namespace m))) mc)).
Proof.
  intros Hmu. unfold Add. rewrite locked_unfold, Hmu.
  destruct mc; simpl in *. by subst.
Qed.

Lemma Remove_unfold ns mc :
  mutex mc = false →
  Remove ns mc =
    Returns () (set_mKeys (removeMatchedKey_map (getMetricKey ns) (mKeys mc))
                  (set_tree (MTTrie_Remove ns (tree mc)) mc)).
Proof.
  intros Hmu. unfold Remove. rewrite locked_unfold, Hmu.
  unfold mbind, M_bind, bind, modify. rewrite removeMatchedKey_map_eq.
  destruct mc; simpl in *. by subst.
Qed.

Lemma RmUnloadedPluginMetrics_unfold lp mc :
  mutex mc = false → cache_compiles (mKeys mc) →
  RmUnloadedPluginMetrics lp mc =
    Returns () (set_mKeys (map_imap (λ wkey _, derive (keys mc) wkey) (mKeys mc))
                  (set_tree (MTTrie_DeleteByPlugin lp (tree mc)) mc)).
Proof.
  intros Hmu Hc. unfold RmUnloadedPluginMetrics. rewrite locked_unfold, Hmu.
  unfold mbind, M_bind, bind, modify. rewrite updateMatchingMap_spec by done.
  destruct mc; simpl in *. by subst.
Qed.

Lemma GetVersions_unfold ns mc :
  mutex mc = false → GetVersions ns mc = Returns (getVersions ns mc) mc.
Proof.
  intros Hmu. unfold GetVersions. rewrite locked_unfold, Hmu.
  unfold gets. by rewrite unlock_lock.
Qed.

Lemma Fetch_unfold ns mc :
  mutex mc = false → Fetch ns mc = Returns (MTTrie_Fetch ns (tree mc)) mc.
Proof.
  intros Hmu. unfold Fetch. rewrite locked_unfold, Hmu.
  unfold gets. by rewrite unlock_lock.
Qed.

Lemma Subscribe_unfold ns v mc :
  mutex mc = false →
  Subscribe ns v mc =
    match get ns v mc with
    | Panicked p => Panics p mc
    | Done (Err err) => Returns (Some err) mc
    | Done (Ok m) => Returns None (write_back ns (Subscribe_mt m) mc)
    end.
Proof.
  intros Hmu. unfold Subscribe. rewrite locked_unfold, Hmu.
  change (get ns v (set_mutex true mc)) with (get ns v mc).
  destruct (get ns v mc) as [[m|e]|p]; rewrite ?unlock_lock; try done.
  destruct mc; simpl in *. by subst.
Qed.

Lemma Unsubscribe_unfold ns v mc :
  mutex mc = false →
  Unsubscribe ns v mc =
    match get ns v mc with
    | Panicked p => Panics p mc
    | Done (Err err) => Returns (Some err) mc
    | Done (Ok m) =>
        Returns (Unsubscribe_mt m).2 (write_back ns (Unsubscribe_mt m).1 mc)
    end.
Proof.
  intros Hmu. unfold Unsubscribe. rewrite locked_unfold, Hmu.
  change (get ns v (set_mutex true mc)) with (get ns v mc).
  destruct (get ns v mc) as [[m|e]|p]; rewrite ?unlock_lock; try done.
  destruct (Unsubscribe_mt m). destruct mc; simpl in *. by subst.
Qed.

Lemma GetPlugin_state mns ver mc :
  mutex mc = false → state_after (GetPlugin mns ver mc) mc = mc.
Proof.
  intros Hmu. unfold GetPlugin, mbind, M_bind, bind.
  rewrite Get_unfold by done.
  by destruct (get mns ver mc) as [[m|e]|p].
Qed.

Lemma AddLoadedMetricType_state lp mt mc :
  state_after (AddLoadedMetricType lp mt mc) mc = mc
  ∨ ∃ m, namespace m = cm_Namespace mt
         ∧ state_after (AddLoadedMetricType lp mt mc) mc
           = state_after (Add m mc) mc.
Proof.
  unfold AddLoadedMetricType.
  destruct (validateMetricNamespace _); [by left|].
  destruct (lp_ConfigPolicy lp); [|by left].
  right. unfold mbind, M_bind, bind.
  match goal with |- context [Add ?m mc] => exists m end.
  split; [done|]. by destruct (Add _ mc).
Qed.

Lemma Next_unfold mc :
  Next mc =
    if Z.of_nat (length (keys mc)) <? wrap_int (currentIter mc + 1)
    then Returns false (set_currentIter 0 mc)
    else Returns true (set_currentIter (wrap_int (currentIter mc + 1)) mc).
Proof. unfold Next. simpl. by destruct (_ <? _). Qed.

End Methods.

(** ** What holds between calls *)

Section Invariant.

Context {regexp : Regexp}.

Lemma derive_Some keys wkey l :
  derive keys wkey = Some l →
  l ≠ [] ∧ NoDup l ∧ (∀ k, k ∈ l → k ∈ keys) ∧ compiles wkey.
Proof.
  intros Hd. split; [by eapply derive_nonempty|]. revert Hd.
  unfold derive, compiles.
  destruct (regexp_MustCompile _) as [regex|]; [|done].
  destruct (matchedKeys_of regex keys) as [|k0 l0] eqn:E; [done|].
  intros [= <-]. rewrite <- E. split_and!.
  - apply matchedKeys_of_NoDup.
  - intros k Hk. by apply matchedKeys_of_elem in Hk as [? _].
  - by eexists.
Qed.

Lemma without_Some key l l' :
  without key l = Some l' → l' = filter (λ k, k ≠ key) l ∧ l' ≠ [].
Proof.
  unfold without. destruct (filter _ l); [done|]. by intros [= <-].
Qed.

Lemma appendIfMissing_length l y :
  (length l ≤ length (appendIfMissing l y))%nat.
Proof.
  rewrite appendIfMissing_spec. case_decide; [done|].
  rewrite length_app. lia.
Qed.

Lemma getVersion_Ok_elem c ver m : getVersion c ver = Done (Ok m) → m ∈ c.
Proof.
  induction c as [|m0 c IH]; simpl; [done|].
  destruct (Plugin_Version m0) as [v|]; [|done].
  destruct (v =? ver).
  - intros [= <-]. by left.
  - intros H. right. by apply IH.
Qed.

Lemma get_Ok_lookup ns v mc m :
  get ns v mc = Done (Ok m) → ∃ k, trie_lookup ns (tree mc) !! k = Some m.
Proof.
  unfold get. destruct (getVersions ns mc) as [mts|e] eqn:Hmts; [|done].
  destruct (getVersions_Ok _ _ _ Hmts) as [Hne Hin]. intros Hget.
  apply Hin. destruct (0 <? v).
  - destruct (getVersion mts v) as [[m'|e]|] eqn:E; [|done..].
    injection Hget as <-. by eapply getVersion_Ok_elem.
  - destruct (getLatest_spec mts Hne) as (m' & Hl & Hm' & _).
    rewrite Hl in Hget. by injection Hget as <-.
Qed.

Lemma catalog_inv_new : catalog_inv newMetricCatalog.
Proof.
  split; simpl.
  - done.
  - apply NoDup_nil_2.
  - lia.
  - intros wkey l. by rewrite lookup_empty.
  - intros ns k m. by rewrite trie_lookup_empty, lookup_empty.
  - intros ns. unfold registered. simpl. by rewrite trie_lookup_empty.
Qed.

Lemma catalog_inv_Add m mc :
  catalog_inv mc →
  catalog_inv (set_tree (MTTrie_Add m (tree mc))
                 (set_keys (appendIfMissing (keys mc) (getMetricKey (namespace m))) mc)).
Proof.
  intros [Hmu Hk Hit Hc Ht Hr]. split; simpl.
  - done.
  - by apply appendIfMissing_NoDup.
  - pose proof (appendIfMissing_length (keys mc) (getMetricKey (namespace m))).
    lia.
  - intros wkey l Hl. destruct (Hc wkey l Hl) as (? & ? & Hin & ?).
    split_and!; [done..| |done].
    intros k Hkl. apply appendIfMissing_elem. left. by apply Hin.
  - intros ns k m'. rewrite trie_lookup_Add. case_decide as Hns.
    + subst ns. destruct (decide (k = Version m)) as [->|Hne].
      * rewrite lookup_insert_eq. by intros [= <-].
      * rewrite lookup_insert_ne by done. apply Ht.
    + apply Ht.
  - intros ns. unfold registered. simpl. rewrite trie_lookup_Add.
    intros Hreg. apply appendIfMissing_elem. case_decide as Hns.
    + right. by subst.
    + left. by apply Hr.
Qed.

Lemma catalog_inv_Remove ns mc :
  catalog_inv mc →
  catalog_inv (set_mKeys (removeMatchedKey_map (getMetricKey ns) (mKeys mc))
                 (set_tree (MTTrie_Remove ns (tree mc)) mc)).
Proof.
  intros [Hmu Hk Hit Hc Ht Hr]. split; simpl; [done..| | |].
  - intros wkey l'. rewrite removeMatchedKey_map_spec.
    2:{ intros w l Hl. by destruct (Hc w l Hl) as (_ & ? & _). }
    rewrite lookup_omap.
    destruct (mKeys mc !! wkey) as [l|] eqn:El; [|done]. simpl.
    intros [-> Hne]%without_Some.
    destruct (Hc wkey l El) as (_ & Hnd & Hin & Hcomp).
    split_and!; [done| | |done].
    + by apply NoDup_filter.
    + intros k [_ Hkl]%list_elem_of_filter. by apply Hin.
  - intros ns' k m. rewrite trie_lookup_Remove. case_decide; [done|]. apply Ht.
  - intros ns'. unfold registered. simpl. rewrite trie_lookup_Remove.
    case_decide; [done|]. apply Hr.
Qed.

Lemma catalog_inv_RmUnloaded lp mc :
  catalog_inv mc →
  catalog_inv (set_mKeys (map_imap (λ wkey _, derive (keys mc) wkey) (mKeys mc))
                 (set_tree (MTTrie_DeleteByPlugin lp (tree mc)) mc)).
Proof.
  intros [Hmu Hk Hit Hc Ht Hr]. split; simpl; [done..| | |].
  - intros wkey l'. rewrite map_lookup_imap.
    destruct (mKeys mc !! wkey) as [l|]; [|done]. simpl.
    apply derive_Some.
  - intros ns k m. rewrite trie_lookup_DeleteByPlugin.
    intros [Hl _]%map_lookup_filter_Some. by apply Ht.
  - intros ns. unfold registered. simpl. rewrite trie_lookup_DeleteByPlugin.
    intros Hreg. apply Hr. unfold registered. intros Hemp.
    apply Hreg. rewrite Hemp. apply map_filter_empty.
Qed.

Lemma catalog_inv_refresh wkey mc :
  catalog_inv mc → compiles wkey →
  catalog_inv (set_mKeys (refresh wkey (keys mc) (mKeys mc)) mc).
Proof.
  intros [Hmu Hk Hit Hc Ht Hr] Hcomp. split; simpl; [done..| |done|done].
  intros w l. destruct (decide (w = wkey)) as [->|Hne].
  - rewrite refresh_lookup. apply derive_Some.
  - rewrite refresh_lookup_ne by done. apply Hc.
Qed.

Lemma catalog_inv_Next mc :
  catalog_inv mc → catalog_inv (state_after (Next mc) mc).
Proof.
  intros [Hmu Hk Hit Hc Ht Hr]. rewrite Next_unfold.
  destruct (Z.ltb_spec (Z.of_nat (length (keys mc))) (wrap_int (currentIter mc + 1)));
    split; simpl; try done.
  - lia.
  - intros Hlen. specialize (Hit Hlen). pose proof min_int_neg.
    rewrite wrap_int_in_range in * by lia. lia.
Qed.

Lemma catalog_inv_write_back ns m m' mc k :
  catalog_inv mc →
  trie_lookup ns (tree mc) !! k = Some m →
  namespace m' = namespace m → Version m' = Version m →
  catalog_inv (write_back ns m' mc).
Proof.
  intros [Hmu Hk Hit Hc Ht Hr] Hm Hns Hv.
  destruct (Ht ns k m Hm) as [Hnsm Hvm].
  split; simpl; [done..| |].
  - intros ns' k' m''. rewrite trie_lookup_store. case_decide as Hns'.
    + subst ns'. destruct (decide (k' = Version m')) as [->|Hne].
      * rewrite lookup_insert_eq. intros [= <-]. split; congruence.
      * rewrite lookup_insert_ne by done. apply Ht.
    + apply Ht.
  - intros ns'. unfold registered. simpl. rewrite trie_lookup_store.
    case_decide as Hns'; [|apply Hr].
    intros _. subst ns'. apply Hr. unfold registered.
    intros Hemp. by rewrite Hemp, lookup_empty in Hm.
Qed.

Lemma Version_set_subscriptions n m :
  Version (set_subscriptions n m) = Version m.
Proof. done. Qed.

Lemma catalog_inv_call_op o mc : catalog_inv mc → catalog_inv (call_op o mc).
Proof.
  intros Hinv. pose proof (inv_mutex mc Hinv) as Hmu.
  destruct o; cbn [call_op].
  - done.
  - by rewrite GetQueriedNamespaces_unfold.
  - rewrite MatchQuery_unfold by done.
    destruct (regexp_MustCompile _) eqn:Ec; [|done].
    apply catalog_inv_refresh; [done|by eexists].
  - destruct (AddLoadedMetricType_state lp mt mc) as [->|(m & _ & ->)]; [done|].
    rewrite Add_unfold by done. by apply catalog_inv_Add.
  - rewrite RmUnloadedPluginMetrics_unfold; [|done|].
    + by apply catalog_inv_RmUnloaded.
    + intros w l Hl. by destruct (inv_cache mc Hinv w l Hl) as (_ & _ & _ & ?).
  - rewrite Add_unfold by done. by apply catalog_inv_Add.
  - rewrite Get_unfold by done. by destruct (get _ _ _).
  - by rewrite GetVersions_unfold.
  - by rewrite Fetch_unfold.
  - rewrite Remove_unfold by done. by apply catalog_inv_Remove.
  - unfold Item. by destruct (_ || _).
  - by apply catalog_inv_Next.
  - rewrite Subscribe_unfold by done.
    destruct (get ns version0 mc) as [[m|e]|p] eqn:Hget; [|done..].
    destruct (get_Ok_lookup _ _ _ _ Hget) as [k Hk].
    by eapply catalog_inv_write_back.
  - rewrite Unsubscribe_unfold by done.
    destruct (get ns version0 mc) as [[m|e]|p] eqn:Hget; [|done..].
    destruct (get_Ok_lookup _ _ _ _ Hget) as [k Hk].
    eapply catalog_inv_write_back; [done..| |];
      unfold Unsubscribe_mt; by destruct (_ =? _).
  - by rewrite GetPlugin_state.
Qed.

Lemma run_snoc ops o : run (ops ++ [o]) = call_op o (run ops).
Proof. unfold run. by rewrite foldl_app. Qed.

(** The invariant holds after every history of calls. *)
Lemma catalog_inv_run ops : catalog_inv (run ops).
Proof.
  induction ops as [|o ops IH] using rev_ind.
  - apply catalog_inv_new.
  - rewrite run_snoc. by apply catalog_inv_call_op.
Qed.

End Invariant.

(** ** C10: the iterator *)

Section Iterator.

Context {regexp : Regexp}.

Lemma call_op_currentIter o mc :
  catalog_inv mc → o ≠ OpNext →
  currentIter (call_op o mc) = currentIter mc.
Proof.
  intros Hinv Ho. pose proof (inv_mutex mc Hinv) as Hmu.
  destruct o; cbn [call_op]; try done.
  - by rewrite GetQueriedNamespaces_unfold.
  - rewrite MatchQuery_unfold by done. by destruct (regexp_MustCompile _).
  - destruct (AddLoadedMetricType_state lp mt mc) as [->|(m & _ & ->)]; [done|].
    by rewrite Add_unfold.
  - rewrite RmUnloadedPluginMetrics_unfold; [done..|].
    intros w l Hl. by destruct (inv_cache mc Hinv w l Hl) as (_ & _ & _ & ?).
  - by rewrite Add_unfold.
  - rewrite Get_unfold by done. by destruct (get _ _ _).
  - by rewrite GetVersions_unfold.
  - by rewrite Fetch_unfold.
  - by rewrite Remove_unfold.
  - unfold Item. by destruct (_ || _).
  - rewrite Subscribe_unfold by done. by destruct (get _ _ _) as [[?|?]|?].
  - rewrite Unsubscribe_unfold by done. by destruct (get _ _ _) as [[?|?]|?].
  - by rewrite GetPlugin_state.
Qed.

Lemma Item_cursor_zero mc :
  currentIter mc = 0 → Item mc = Panics IndexOutOfRange mc.
Proof. intros H. unfold Item. by rewrite H. Qed.

Lemma Next_false mc mc' : Next mc = Returns false mc' → currentIter mc' = 0.
Proof.
  rewrite Next_unfold. destruct (_ <? _); [|done]. by intros [= <-].
Qed.

(** A cursor other than zero was left by a call of Next that
    returned true, with no call of Next since. *)
Lemma cursor_set_by_Next ops :
  currentIter (run ops) ≠ 0 →
  ∃ ops1 ops2, ops = ops1 ++ OpNext :: ops2
               ∧ returned (Next (run ops1)) = Some true
               ∧ OpNext ∉ ops2.
Proof.
  induction ops as [|o ops IH] using rev_ind; [done|].
  rewrite run_snoc.
  assert (o = OpNext ∨ o ≠ OpNext) as [->|Ho] by (destruct o; auto).
  - intros Hcur. exists ops, []. split_and!; [done| |apply not_elem_of_nil].
    cbn [call_op] in Hcur. rewrite Next_unfold in *.
    by destruct (_ <? _).
  - rewrite call_op_currentIter by (done || apply catalog_inv_run).
    intros (ops1 & ops2 & -> & Hn & Hops2)%IH.
    exists ops1, (ops2 ++ [o]). split_and!; [by rewrite <- app_assoc|done|].
    intros [?|Hin%list_elem_of_singleton]%elem_of_app; congruence.
Qed.

Lemma Item_in_range mc :
  Z.of_nat (length (keys mc)) < max_int →
  0 < currentIter mc ≤ Z.of_nat (length (keys mc)) →
  ∃ r, Item mc = Returns r mc.
Proof.
  intros Hlen Hc. unfold Item. pose proof min_int_neg.
  rewrite wrap_int_in_range by lia.
  rewrite (proj2 (Z.ltb_ge _ _)), (proj2 (Z.leb_gt _ _)) by lia.
  by eexists.
Qed.

(** C10: a new catalog has its cursor at zero, and so has a catalog
    on which Next returned false; Item on a cursor of zero indexes
    the key list at -1 and panics; after any history of calls, Item
    returns only if a call of Next before it returned true, with no
    call of Next in between; and Item returns on the catalog that
    Next leaves when it returns true (the key list, a slice, having
    fewer elements than the largest int). *)
Theorem Item_only_after_Next (ops : list op) :
  currentIter newMetricCatalog = 0
  ∧ (∀ mc mc', Next mc = Returns false mc' → currentIter mc' = 0)
  ∧ (∀ mc, currentIter mc = 0 →
       wrap_int (currentIter mc - 1) = -1
       ∧ Item mc = Panics IndexOutOfRange mc)
  ∧ (∀ r mc', Item (run ops) = Returns r mc' →
       ∃ ops1 ops2, ops = ops1 ++ OpNext :: ops2
                    ∧ returned (Next (run ops1)) = Some true
                    ∧ OpNext ∉ ops2)
  ∧ (Z.of_nat (length (keys (run ops))) < max_int →
     ∀ mc', Next (run ops) = Returns true mc' → ∃ r, Item mc' = Returns r mc').
Proof.
  split_and!.
  - done.
  - apply Next_false.
  - intros mc H. split; [by rewrite H|by apply Item_cursor_zero].
  - intros r mc' HItem. apply cursor_set_by_Next. intros Hc.
    by rewrite Item_cursor_zero in HItem.
  - intros Hlen mc'. rewrite Next_unfold.
    pose proof (inv_iter _ (catalog_inv_run ops) Hlen) as Hit.
    pose proof min_int_neg.
    rewrite wrap_int_in_range by lia.
    destruct (Z.ltb_spec (Z.of_nat (length (keys (run ops))))
                (currentIter (run ops) + 1)); [done|].
    intros [= <-]. apply Item_in_range; simpl; lia.
Qed.

End Iterator.

Lemma Item_only_after_Next_witness :
  Item newMetricCatalog = Panics IndexOutOfRange newMetricCatalog
  ∧ ∃ r, Item (run [OpAdd mock_foo; OpNext])
         = Returns r (run [OpAdd mock_foo; OpNext]).
Proof.
  destruct (Item_only_after_Next [OpAdd mock_foo])
    as (Hnew & _ & Hzero & _ & Hnext).
  split.
  - apply Hzero, Hnew.
  - apply Hnext; [vm_compute; reflexivity|].
    vm_compute. reflexivity.
Defined.

(** ** C8: adding twice *)

Section AddTwice.

Context {regexp : Regexp}.

Lemma filter_version_none (L : list (Z * metricType)) v :
  (∀ k m, (k, m) ∈ L → Version m = k) → v ∉ L.*1 →
  filter (λ m, Version m = v) L.*2 = [].
Proof.
  induction L as [|[k m] L IH]; intros HL Hv; [done|].
  rewrite fmap_cons in Hv. apply not_elem_of_cons in Hv as [Hk Hv].
  rewrite fmap_cons, filter_cons. cbn [snd].
  rewrite decide_False.
  - apply IH; [|done]. intros k' m' H. apply HL. by right.
  - rewrite (HL k m) by (by left). simpl in Hk. congruence.
Qed.

Lemma filter_version_unique (L : list (Z * metricType)) v m :
  NoDup L.*1 → (∀ k m', (k, m') ∈ L → Version m' = k) → (v, m) ∈ L →
  filter (λ m', Version m' = v) L.*2 = [m].
Proof.
  induction L as [|[k m0] L IH]; intros Hnd HL Hin.
  - by apply elem_of_nil in Hin.
  - rewrite fmap_cons in Hnd. apply NoDup_cons in Hnd as [Hk Hnd].
    rewrite fmap_cons, filter_cons. cbn [snd].
    assert (∀ k' m', (k', m') ∈ L → Version m' = k') as HL'
      by (intros k' m' H; apply HL; by right).
    apply elem_of_cons in Hin as [[= <- <-]|Hin].
    + rewrite decide_True by (apply HL; by left).
      f_equal. by apply filter_version_none.
    + rewrite decide_False; [by apply IH|].
      rewrite (HL k m0) by (by left). intros ->.
      apply Hk. apply list_elem_of_fmap. by exists (v, m).
Qed.

(** Storing in the same place twice leaves what the second call
    stores. *)
Lemma MTTrie_store_store ns v m1 m2 t :
  MTTrie_store ns v m2 (MTTrie_store ns v m1 t) = MTTrie_store ns v m2 t.
Proof.
  revert t. induction ns as [|s ns IH]; intros [mts c]; simpl.
  - by rewrite insert_insert_eq.
  - rewrite lookup_insert_eq, insert_insert_eq. simpl. by rewrite IH.
Qed.

Lemma appendIfMissing_idemp l y :
  appendIfMissing (appendIfMissing l y) y = appendIfMissing l y.
Proof.
  rewrite (appendIfMissing_spec (appendIfMissing l y)).
  rewrite decide_True; [done|]. apply appendIfMissing_elem. by right.
Qed.

Lemma Version_eq m1 m2 :
  version m1 = version m2 → Plugin m1 = Plugin m2 → Version m1 = Version m2.
Proof. unfold Version. by intros -> ->. Qed.

(** C8: after any history of calls, adding two entries with the same
    namespace and version from the same plugin, one after the other,
    leaves exactly one entry reachable at that namespace and version,
    the second one, which has taken the place of the first; the
    canonical key occurs exactly once in the key list; and adding
    the same entry a second time changes nothing. *)
Theorem Add_twice (ops : list op) (m1 m2 : metricType) :
  namespace m1 = namespace m2 → version m1 = version m2 →
  Plugin m1 = Plugin m2 →
  let mc1 := call_op (OpAdd m1) (run ops) in
  let mc2 := call_op (OpAdd m2) mc1 in
  trie_lookup (namespace m1) (tree mc1) !! Version m1 = Some m1
  ∧ trie_lookup (namespace m2) (tree mc2) !! Version m2 = Some m2
  ∧ (∃ mts, getVersions (namespace m2) mc2 = Ok mts
            ∧ filter (λ m, Version m = Version m2) mts = [m2])
  ∧ occurrences (getMetricKey (namespace m2)) (keys mc2) = 1%nat
  ∧ call_op (OpAdd m2) mc2 = mc2.
Proof.
  intros Hns Hver Hpl mc1 mc2.
  pose proof (Version_eq _ _ Hver Hpl) as HV.
  pose proof (catalog_inv_run (ops ++ [OpAdd m1])) as Hinv1.
  rewrite run_snoc in Hinv1. fold mc1 in Hinv1.
  pose proof (catalog_inv_call_op (OpAdd m2) mc1 Hinv1) as Hinv2.
  fold mc2 in Hinv2.
  assert (tree mc1 = MTTrie_Add m1 (tree (run ops))) as Ht1.
  { unfold mc1. cbn [call_op].
    by rewrite Add_unfold by apply catalog_inv_run. }
  assert (mc2 = set_tree (MTTrie_Add m2 (tree mc1))
                  (set_keys (appendIfMissing (keys mc1) (getMetricKey (namespace m2)))
                     mc1)) as Hmc2.
  { unfold mc2. cbn [call_op]. by rewrite Add_unfold by apply Hinv1. }
  assert (trie_lookup (namespace m2) (tree mc2) !! Version m2 = Some m2) as Hl2.
  { rewrite Hmc2. cbn [tree set_tree].
    by rewrite trie_lookup_Add, decide_True, lookup_insert_eq. }
  split_and!.
  - by rewrite Ht1, trie_lookup_Add, decide_True, lookup_insert_eq.
  - done.
  - rewrite getVersions_lookup.
    pose proof (filter_version_unique
                  (map_to_list (trie_lookup (namespace m2) (tree mc2)))
                  (Version m2) m2) as Hf.
    destruct ((map_to_list _).*2) as [|m0 l] eqn:E.
    + exfalso. apply fmap_nil_inv, map_to_list_empty_iff in E.
      by rewrite E, lookup_empty in Hl2.
    + eexists. split; [done|]. apply Hf.
      * apply NoDup_fst_map_to_list.
      * intros k m' H%elem_of_map_to_list.
        by destruct (inv_trie _ Hinv2 _ _ _ H).
      * by apply elem_of_map_to_list.
  - rewrite Hmc2. cbn [keys set_tree set_keys].
    apply appendIfMissing_occurrences, Hinv1.
  - cbn [call_op]. rewrite Add_unfold by apply Hinv2.
    rewrite Hmc2. unfold set_tree, set_keys. simpl.
    unfold MTTrie_Add. rewrite MTTrie_store_store, appendIfMissing_idemp.
    done.
Qed.

End AddTwice.

Lemma Add_twice_witness :
  let mc2 := call_op (OpAdd mock_foo) (call_op (OpAdd mock_foo) (run [])) in
  trie_lookup (namespace mock_foo) (tree mc2) !! Version mock_foo = Some mock_foo
  ∧ occurrences (getMetricKey (namespace mock_foo)) (keys mc2) = 1%nat.
Proof.
  destruct (Add_twice [] mock_foo mock_foo) as (_ & H2 & _ & H4 & _);
    [reflexivity..|].
  by split.
Defined.

(** ** C2: the key list *)

Section KeyList.

Context {regexp : Regexp}.

(** The key list has no key twice and holds the key of every
    namespace with a registered version. *)
Lemma keys_cover_registered ops :
  NoDup (keys (run ops))
  ∧ ∀ ns, registered ns (run ops) → getMetricKey ns ∈ keys (run ops).
Proof.
  split; [apply inv_keys | apply inv_registered]; apply catalog_inv_run.
Qed.

(** Neither Remove nor RmUnloadedPluginMetrics touches the key list. *)
Lemma keys_after_removal ops :
  (∀ ns, keys (call_op (OpRemove ns) (run ops)) = keys (run ops))
  ∧ (∀ lp, keys (call_op (OpRmUnloadedPluginMetrics lp) (run ops)) = keys (run ops)).
Proof.
  pose proof (catalog_inv_run ops) as Hinv.
  pose proof (inv_mutex _ Hinv) as Hmu. split.
  - intros ns. cbn [call_op]. by rewrite Remove_unfold.
  - intros lp. cbn [call_op]. rewrite RmUnloadedPluginMetrics_unfold; [done..|].
    intros w l Hl. by destruct (inv_cache _ Hinv w l Hl) as (_ & _ & _ & ?).
Qed.

End KeyList.

(** C2 (code bug): the key list keeps the key of a namespace that
    Remove or RmUnloadedPluginMetrics has left without registered
    version: after Add of /intel/mock/foo and its removal, by either
    method, intel.mock.foo is still in the key list, so that
    MatchQuery of /intel/mock/* finds the removed namespace again,
    and the cache that RmUnloadedPluginMetrics derives afresh still
    holds it. *)
Theorem keys_keep_removed_namespace :
  let ns := ["intel"; "mock"; "foo"] in
  let Q := ["intel"; "mock"; "*"] in
  let removed := run [OpAdd mock_foo; OpRemove ns] in
  let unloaded := run [OpAdd mock_foo; OpMatchQuery Q;
                       OpRmUnloadedPluginMetrics mock1] in
  keys removed = ["intel.mock.foo"] ∧ ¬ registered ns removed
  ∧ returned (MatchQuery Q removed) = Some (Ok [ns])
  ∧ keys unloaded = ["intel.mock.foo"] ∧ ¬ registered ns unloaded
  ∧ returned (GetQueriedNamespaces Q unloaded) = Some (Ok [ns]).
Proof.
  split_and!; try (vm_compute; reflexivity).
  - intros H. apply H. vm_compute. reflexivity.
  - intros H. apply H. vm_compute. reflexivity.
Qed.

(** ** C1: the cache after a mutation *)

Section CacheConsistency.

Context {regexp : Regexp}.






(** MatchQuery after a history of calls, for a pattern that compiles. *)
Lemma MatchQuery_run (ops : list op) (Q : list string) (regex : Regexp_t) :
  regexp_MustCompile (wildcard_pattern (getMetricKey Q)) = Some regex →
  let mc := run ops in
  let matched := filter (λ k, regexp_matches regex k = true) (keys mc) in
  MatchQuery Q mc
  = Returns (namespaces_of Q matched)
      (set_mKeys (refresh (getMetricKey Q) (keys mc) (mKeys mc)) mc)
  ∧ derive (keys mc) (getMetricKey Q)
    = match matched with [] => None | _ => Some matched end.
Proof.
  intros Hc mc matched. pose proof (catalog_inv_run ops) as Hinv. fold mc in Hinv.
  assert (derive (keys mc) (getMetricKey Q)
          = match matched with [] => None | _ => Some matched end) as Hd.
  { unfold derive. rewrite Hc, matchedKeys_of_filter by apply Hinv.
    fold matched. by destruct matched. }
  split; [|done]. rewrite MatchQuery_unfold by apply Hinv. rewrite Hc, Hd.
  f_equal. unfold namespaces_of. by destruct matched.
Qed.


End CacheConsistency.



(** ** C9: the mutex *)

Section LockDiscipline.

Context {regexp : Regexp}.

Lemma locked_discipline {A} (body : M A) :
  ignores_mutex body → waits_for_mutex (locked body) ∧ releases_mutex (locked body).
Proof.
  intros Hbody. split.
  - intros mc Hmu. by apply locked_held.
  - intros mc Hmu. rewrite locked_unfold, Hmu.
    specialize (Hbody (set_mutex true mc)). by destruct (body _).
Qed.

Lemma ignores_mutex_gets {A} (f : metricCatalog → A) : ignores_mutex (gets f).
Proof. by intros mc. Qed.

Lemma ignores_mutex_bind {A B} (m : M A) (k : A → M B) :
  ignores_mutex m → (∀ a, ignores_mutex (k a)) → ignores_mutex (m ≫= k).
Proof.
  intros Hm Hk mc. unfold mbind, M_bind, bind.
  specialize (Hm mc). destruct (m mc) as [a mc'| |]; [|done..].
  specialize (Hk a mc'). destruct (k a mc'); congruence.
Qed.

Lemma ignores_mutex_addItemToMatchingMap wkey :
  ignores_mutex (addItemToMatchingMap wkey).
Proof.
  intros mc. rewrite addItemToMatchingMap_spec.
  by destruct (regexp_MustCompile _).
Qed.

Lemma ignores_mutex_for_each {A} (f : A → M unit) l :
  (∀ a, ignores_mutex (f a)) → ignores_mutex (for_each f l).
Proof.
  intros Hf. induction l as [|a l IH]; [done|].
  cbn [for_each]. apply ignores_mutex_bind; [apply Hf|by intros _].
Qed.

Lemma ignores_mutex_updateMatchingMap : ignores_mutex updateMatchingMap.
Proof.
  intros mc. unfold updateMatchingMap.
  apply (ignores_mutex_for_each addItemToMatchingMap).
  apply ignores_mutex_addItemToMatchingMap.
Qed.

(** X25: the ten methods that open with Lock and a deferred Unlock
    do nothing as long as another caller holds the mutex, and, called
    with the mutex free, come to an end and leave the mutex free,
    whether they return or panic. *)
Lemma locking_methods :
  (∀ ns, waits_for_mutex (GetQueriedNamespaces ns) ∧ releases_mutex (GetQueriedNamespaces ns))
  ∧ (∀ ns, waits_for_mutex (MatchQuery ns) ∧ releases_mutex (MatchQuery ns))
  ∧ (∀ lp, waits_for_mutex (RmUnloadedPluginMetrics lp)
           ∧ releases_mutex (RmUnloadedPluginMetrics lp))
  ∧ (∀ m, waits_for_mutex (Add m) ∧ releases_mutex (Add m))
  ∧ (∀ ns v, waits_for_mutex (Get ns v) ∧ releases_mutex (Get ns v))
  ∧ (∀ ns, waits_for_mutex (GetVersions ns) ∧ releases_mutex (GetVersions ns))
  ∧ (∀ ns, waits_for_mutex (Fetch ns) ∧ releases_mutex (Fetch ns))
  ∧ (∀ ns, waits_for_mutex (Remove ns) ∧ releases_mutex (Remove ns))
  ∧ (∀ ns v, waits_for_mutex (Subscribe ns v) ∧ releases_mutex (Subscribe ns v))
  ∧ (∀ ns v, waits_for_mutex (Unsubscribe ns v) ∧ releases_mutex (Unsubscribe ns v)).
Proof.
  split_and!; intros; apply locked_discipline.
  - apply ignores_mutex_gets.
  - apply ignores_mutex_bind; [apply ignores_mutex_addItemToMatchingMap|].
    intros _. apply ignores_mutex_gets.
  - apply ignores_mutex_bind; [by intros mc|]. intros _.
    apply ignores_mutex_updateMatchingMap.
  - apply ignores_mutex_bind; [by intros mc|]. by intros _ mc.
  - intros mc. unfold run_exec. by destruct (get _ _ _).
  - apply ignores_mutex_gets.
  - apply ignores_mutex_gets.
  - apply ignores_mutex_bind; [by intros mc|]. intros _ mc.
    unfold modify. by rewrite removeMatchedKey_map_eq.
  - intros mc. by destruct (get _ _ _) as [[?|?]|?].
  - intros mc. destruct (get _ _ _) as [[m|?]|?]; [|done..].
    by destruct (Unsubscribe_mt m).
Qed.

Lemma Keys_Item_Next_ignore_mutex :
  ignores_mutex Keys ∧ ignores_mutex Item ∧ ignores_mutex Next.
Proof.
  split_and!; intros mc.
  - done.
  - unfold Item. by destruct (_ || _).
  - rewrite Next_unfold. by destruct (_ <? _).
Qed.

End LockDiscipline.

(** C9 (code bug): Keys, Item and Next do not take the mutex.  On a
    catalog whose mutex another caller holds, where Add waits, Keys
    returns the key list, Next moves the cursor and returns, and Item
    reads key list and trie and returns. *)
Theorem Keys_Item_Next_take_no_mutex :
  let held := set_mutex true catalog_foo in
  Add mock_bar held = Blocks
  ∧ Keys held = Returns ["intel.mock.foo"] held
  ∧ Next held = Returns true (set_currentIter 1 held)
  ∧ Item (set_currentIter 1 held)
    = Returns ("intel.mock.foo", [mock_foo]) (set_currentIter 1 held).
Proof. split_and!; vm_compute; reflexivity. Qed.

(** ** Subscribing through the catalog *)

Section CatalogSubscriptions.

Context {regexp : Regexp}.

Lemma MTTrie_store_id ns v m t :
  trie_lookup ns t !! v = Some m → MTTrie_store ns v m t = t.
Proof.
  revert t. induction ns as [|s ns IH]; intros [mts c].
  - rewrite trie_lookup_nil. simpl. intros H. by rewrite insert_id.
  - rewrite trie_lookup_cons. simpl.
    destruct (c !! s) as [c'|] eqn:Ec; [|by rewrite lookup_empty].
    intros H. simpl. by rewrite IH, insert_id.
Qed.

Lemma write_back_id ns m mc k :
  catalog_inv mc → trie_lookup ns (tree mc) !! k = Some m →
  write_back ns m mc = mc.
Proof.
  intros Hinv Hm. destruct (inv_trie _ Hinv _ _ _ Hm) as [_ <-].
  unfold write_back. rewrite MTTrie_store_id by done. by destruct mc.
Qed.

(** Subscribe and Unsubscribe of the catalog resolve the entry with
    get and count on it in place: Subscribe leaves the entry with
    its count raised in the place of the entry; Unsubscribe on a
    count of zero returns the NegativeSubscriptionCount error and
    leaves the catalog as it is, and otherwise leaves the entry with
    its count lowered in the place of the entry. *)
Lemma catalog_Subscribe_Unsubscribe ops ns v m :
  get ns v (run ops) = Done (Ok m) →
  (∃ mc', Subscribe ns v (run ops) = Returns None mc'
          ∧ trie_lookup ns (tree mc') !! Version m = Some (Subscribe_mt m))
  ∧ (subscriptions m = 0 →
     Unsubscribe ns v (run ops) = Returns (Some errNegativeSubCount) (run ops))
  ∧ (subscriptions m ≠ 0 →
     ∃ mc', Unsubscribe ns v (run ops) = Returns None mc'
            ∧ trie_lookup ns (tree mc') !! Version m
              = Some (set_subscriptions (wrap_int (subscriptions m - 1)) m)).
Proof.
  intros Hget. pose proof (catalog_inv_run ops) as Hinv.
  pose proof (inv_mutex _ Hinv) as Hmu.
  destruct (get_Ok_lookup _ _ _ _ Hget) as [k Hk].
  rewrite Subscribe_unfold, Unsubscribe_unfold, Hget by done.
  split_and!.
  - eexists. split; [done|]. cbn [write_back tree set_tree].
    by rewrite trie_lookup_store, decide_True, lookup_insert_eq.
  - intros H0. unfold Unsubscribe_mt. rewrite H0. simpl.
    by erewrite write_back_id.
  - intros H0%Z.eqb_neq. unfold Unsubscribe_mt. rewrite H0. simpl.
    eexists. split; [done|]. cbn [write_back tree set_tree].
    by rewrite trie_lookup_store, decide_True, lookup_insert_eq.
Qed.

End CatalogSubscriptions.

(** ** The key codec, from keys to namespaces *)

Section KeyCodecInverse.

Lemma Split_nonempty s sep : strings_Split s sep ≠ [].
Proof.
  destruct s as [|c s]; [done|]. cbn [strings_Split].
  destruct (Ascii.eqb c sep); [done|]. by destruct (strings_Split s sep).
Qed.

Lemma Join_Split s : strings_Join (strings_Split s ".") "." = s.
Proof.
  induction s as [|c s IH]; [done|]. cbn [strings_Split].
  pose proof (Split_nonempty s ".") as Hne.
  destruct (Ascii.eqb_spec c ".") as [->|Hc].
  - destruct (strings_Split s ".") as [|p ps]; [done|].
    change (strings_Join (EmptyString :: p :: ps) ".")
      with (String "." (strings_Join (p :: ps) ".")).
    by rewrite IH.
  - destruct (strings_Split s ".") as [|p ps]; [done|].
    rewrite <- IH. by destruct ps.
Qed.

Lemma Split_dot_free s : Forall dot_free (strings_Split s ".").
Proof.
  induction s as [|c s IH]; [by repeat constructor|]. cbn [strings_Split].
  destruct (Ascii.eqb c ".") eqn:Ec; [by constructor|].
  destruct (strings_Split s ".") as [|p ps]; [repeat constructor|].
  - unfold dot_free. cbn [string_mem]. by rewrite Ascii.eqb_sym, Ec.
  - apply Forall_cons in IH as [Hp Hps]. constructor; [|done].
    unfold dot_free in *. cbn [string_mem]. by rewrite Ascii.eqb_sym, Ec.
Qed.

(** X1: for every key, getMetricNamespace followed by getMetricKey
    gives the key back; the namespace of a key is never empty, none
    of its segments contains the separator, and it has one segment
    more than the key has separators. *)
Theorem getMetricKey_getMetricNamespace (key : string) :
  getMetricKey (getMetricNamespace key) = key
  ∧ getMetricNamespace key ≠ []
  ∧ Forall dot_free (getMetricNamespace key)
  ∧ length (getMetricNamespace key) = S (count_sep key).
Proof.
  split_and!.
  - apply Join_Split.
  - apply Split_nonempty.
  - apply Split_dot_free.
  - apply Split_length.
Qed.

End KeyCodecInverse.

(** ** Helpers of the package *)

Section PackageHelpers.

(** X2: appendIfMissing returns the key list itself when it holds
    the key, and the key list with the key at its end otherwise; the
    key list is a prefix of the result, the result holds the key, a
    key list without repetition stays so, and appending the same key
    again changes nothing. *)
Theorem appendIfMissing_appends_once (keys : list string) (ns : string) :
  (ns ∈ keys → appendIfMissing keys ns = keys)
  ∧ (ns ∉ keys → appendIfMissing keys ns = keys ++ [ns])
  ∧ keys `prefix_of` appendIfMissing keys ns
  ∧ ns ∈ appendIfMissing keys ns
  ∧ (NoDup keys → NoDup (appendIfMissing keys ns))
  ∧ appendIfMissing (appendIfMissing keys ns) ns = appendIfMissing keys ns.
Proof.
  rewrite !appendIfMissing_spec.
  destruct (decide (ns ∈ keys)) as [Hin|Hnin].
  - rewrite ?decide_True by done. split_and!; try done.
  - rewrite decide_True by (apply elem_of_app; right; apply list_elem_of_here).
    split_and!; try done.
    + by exists [ns].
    + apply elem_of_app. right. apply list_elem_of_here.
    + intros Hnd. apply NoDup_app. split_and!; [done| |apply NoDup_singleton].
      by intros x Hx ->%list_elem_of_singleton.
Qed.

Lemma appendIfMissing_appends_once_witness :
  appendIfMissing ["intel.mock.foo"] "intel.mock.foo" = ["intel.mock.foo"]
  ∧ appendIfMissing ["intel.mock.foo"] "intel.mock.bar"
    = ["intel.mock.foo"; "intel.mock.bar"].
Proof.
  destruct (appendIfMissing_appends_once ["intel.mock.foo"] "intel.mock.foo")
    as (Hin & _).
  destruct (appendIfMissing_appends_once ["intel.mock.foo"] "intel.mock.bar")
    as (_ & Hnin & _).
  split.
  - apply Hin, list_elem_of_here.
  - apply Hnin. by intros ?%list_elem_of_singleton.
Defined.

(** The fold of getLatest keeps the entry at hand unless a later one
    has a strictly higher version. *)
Lemma getLatest_fold_first cur l :
  let r := foldl (λ cur mt, if Version cur <? Version mt then mt else cur) cur l in
  Forall (λ m', Version m' ≤ Version r) l
  ∧ ((r = cur)
     ∨ ∃ i, l !! i = Some r ∧ Version cur < Version r
            ∧ ∀ j m', (j < i)%nat → l !! j = Some m' → Version m' < Version r).
Proof.
  revert cur. induction l as [|mt l IH]; intros cur; simpl; [by split; [|left]|].
  destruct (Z.ltb_spec (Version cur) (Version mt)) as [Hlt|Hge].
  - destruct (IH mt) as (Hall & Hr). simpl in *. split.
    + constructor; [|done]. destruct Hr as [->|(i & _ & ? & _)]; lia.
    + right. destruct Hr as [->|(i & Hi & Hlt' & Hbefore)].
      * exists 0%nat. split_and!; [done..|]. intros j m' Hj. lia.
      * exists (S i). split_and!; [done|lia|].
        intros [|j] m' Hj Hm'; simpl in Hm'.
        -- by injection Hm' as <-.
        -- apply (Hbefore j); [lia|done].
  - destruct (IH cur) as (Hall & Hr). simpl in *. split.
    + constructor; [|done]. destruct Hr as [->|(i & _ & ? & _)]; lia.
    + destruct Hr as [->|(i & Hi & Hlt' & Hbefore)]; [by left|].
      right. exists (S i). split_and!; [done..|].
      intros [|j] m' Hj Hm'; simpl in Hm'.
      * injection Hm' as <-. lia.
      * apply (Hbefore j); [lia|done].
Qed.

(** X3: getLatest indexes its argument at 0 and so panics on the
    empty list; on any other list it returns the first of the
    entries of highest version: no entry has a higher version, and
    every entry before it has a strictly lower one. *)
Theorem getLatest_first_of_highest (c : list metricType) :
  getLatest [] = Panicked IndexOutOfRange
  ∧ (c ≠ [] →
     ∃ i m, getLatest c = Done m ∧ c !! i = Some m
            ∧ Forall (λ m', Version m' ≤ Version m) c
            ∧ ∀ j m', (j < i)%nat → c !! j = Some m' → Version m' < Version m).
Proof.
  split; [done|]. destruct c as [|c0 c]; [done|]. intros _.
  unfold getLatest.
  destruct (getLatest_fold_first c0 (c0 :: c)) as (Hall & Hr).
  destruct Hr as [Hr|(i & Hi & _ & Hbefore)].
  - exists 0%nat, c0. rewrite Hr in *. split_and!; [done..|]. intros j m' Hj. lia.
  - eexists i, _. split_and!; [done..|]. done.
Qed.

Lemma getLatest_first_of_highest_witness :
  ∃ i m, getLatest [mock_foo; mock_foo_v2; mock_bar] = Done m
         ∧ [mock_foo; mock_foo_v2; mock_bar] !! i = Some m
         ∧ Forall (λ m', Version m' ≤ Version m) [mock_foo; mock_foo_v2; mock_bar]
         ∧ ∀ j m', (j < i)%nat → [mock_foo; mock_foo_v2; mock_bar] !! j = Some m' →
                   Version m' < Version m.
Proof.
  apply (getLatest_first_of_highest [mock_foo; mock_foo_v2; mock_bar]).
  discriminate.
Defined.

(** X4: getVersion returns the first entry whose plugin has the
    version asked for; when it meets an entry without plugin before
    such an entry it panics on the nil pointer; and it returns
    errMetricNotFound when every entry has a plugin of another
    version, as on the empty list. *)
Theorem getVersion_first_match (c : list metricType) (ver : Z) :
  match getVersion c ver with
  | Done (Ok m) =>
      ∃ i, c !! i = Some m ∧ Plugin_Version m = Done ver
           ∧ Forall (other_version ver) (take i c)
  | Done (Err e) => e = errMetricNotFound ∧ Forall (other_version ver) c
  | Panicked p =>
      p = NilDereference
      ∧ ∃ i m, c !! i = Some m ∧ Plugin m = None
               ∧ Forall (other_version ver) (take i c)
  end.
Proof.
  induction c as [|m c IH]; cbn [getVersion]; [by split|].
  unfold Plugin_Version at 1.
  destruct (Plugin m) as [lp|] eqn:Hlp.
  - destruct (Z.eqb_spec (lp_Version lp) ver) as [Hv|Hv].
    + exists 0%nat. split_and!; [done| |by constructor].
      unfold Plugin_Version. by rewrite Hlp, Hv.
    + assert (other_version ver m) as Hm.
      { exists (lp_Version lp). unfold Plugin_Version. by rewrite Hlp. }
      destruct (getVersion c ver) as [[m'|e]|p].
      * destruct IH as (i & Hi & Hpv & Hbefore).
        exists (S i). split_and!; [done..|]. by constructor.
      * destruct IH as [-> Hall]. split; [done|]. by constructor.
      * destruct IH as (-> & i & m' & Hi & Hnil & Hbefore). split; [done|].
        exists (S i), m'. split_and!; [done..|]. by constructor.
  - split; [done|]. exists 0%nat, m. split_and!; [done..|]. by constructor.
Qed.

Lemma getVersion_Ok_version c ver m :
  getVersion c ver = Done (Ok m) → Plugin_Version m = Done ver.
Proof.
  induction c as [|m0 c IH]; cbn [getVersion]; [done|].
  destruct (Plugin_Version m0) as [v|] eqn:Hv; [|done].
  destruct (Z.eqb_spec v ver) as [->|_]; [|done]. by intros [= <-].
Qed.

Lemma getVersion_Panicked c ver p :
  getVersion c ver = Panicked p →
  p = NilDereference ∧ ∃ m, m ∈ c ∧ Plugin m = None.
Proof.
  induction c as [|m0 c IH]; cbn [getVersion]; [done|].
  unfold Plugin_Version at 1. destruct (Plugin m0) as [lp|] eqn:Hlp.
  - destruct (lp_Version lp =? ver); [done|].
    intros (-> & m & Hm & Hnil)%IH. split; [done|]. exists m.
    split; [by apply list_elem_of_further|done].
  - intros [= <-]. split; [done|]. exists m0. split; [apply list_elem_of_here|done].
Qed.

(** X5: Subscribe followed by Unsubscribe gives the entry back and
    returns no error, for a count from zero to the largest int (at
    the largest int the count wraps to the smallest and back); and
    Unsubscribe followed by Subscribe gives the entry back when the
    count is above zero. *)
Theorem Unsubscribe_mt_Subscribe_mt (m : metricType) :
  0 ≤ subscriptions m ≤ max_int →
  Unsubscribe_mt (Subscribe_mt m) = (m, None)
  ∧ (0 < subscriptions m →
     (Unsubscribe_mt m).2 = None
     ∧ Subscribe_mt (Unsubscribe_mt m).1 = m).
Proof.
  intros Hm. pose proof max_int_pos. pose proof min_int_neg.
  split.
  - unfold Unsubscribe_mt, Subscribe_mt. cbn [subscriptions set_subscriptions].
    destruct (decide (subscriptions m = max_int)) as [Hmax|Hmax].
    + assert (wrap_int (subscriptions m + 1) = min_int) as ->.
      { rewrite Hmax. by vm_compute. }
      rewrite (proj2 (Z.eqb_neq min_int 0)) by lia.
      assert (wrap_int (min_int - 1) = max_int) as -> by (by vm_compute).
      rewrite <- Hmax. f_equal. by destruct m.
    + rewrite wrap_int_in_range by lia.
      rewrite (proj2 (Z.eqb_neq _ 0)) by lia.
      rewrite wrap_int_in_range by lia.
      replace (subscriptions m + 1 - 1) with (subscriptions m) by lia.
      f_equal. by destruct m.
  - intros Hpos. unfold Unsubscribe_mt, Subscribe_mt.
    rewrite (proj2 (Z.eqb_neq _ 0)) by lia. cbn [fst snd subscriptions set_subscriptions].
    split; [done|]. rewrite (wrap_int_in_range (subscriptions m - 1)) by lia.
    rewrite wrap_int_in_range by lia.
    replace (subscriptions m - 1 + 1) with (subscriptions m) by lia.
    by destruct m.
Qed.

Lemma Unsubscribe_mt_Subscribe_mt_witness :
  Unsubscribe_mt (Subscribe_mt (set_subscriptions max_int mock_foo))
  = (set_subscriptions max_int mock_foo, None).
Proof.
  apply (Unsubscribe_mt_Subscribe_mt (set_subscriptions max_int mock_foo)).
  by vm_compute.
Defined.

End PackageHelpers.

(** ** The cache, function by function *)

Section CacheFunctions.

Context {regexp : Regexp}.

(** X6: matchedNamespaces fails MetricNotFound exactly when the
    cache holds no key for the query key (no entry, or an empty
    list); otherwise it returns one namespace for each cached key,
    in the order of the cached list, and each namespace joins back
    to its key: convertKeysToNamespaces drops no key, a key never
    splitting into zero segments. *)
Theorem matchedNamespaces_one_per_key (wkey : string) (mc : metricCatalog) :
  convertKeysToNamespaces (default [] (mKeys mc !! wkey))
  = map getMetricNamespace (default [] (mKeys mc !! wkey))
  ∧ match matchedNamespaces wkey mc with
    | Ok nss =>
        ∃ mkeys, mKeys mc !! wkey = Some mkeys ∧ mkeys ≠ []
                 ∧ nss = map getMetricNamespace mkeys
                 ∧ length nss = length mkeys
                 ∧ map getMetricKey nss = mkeys
    | Err e =>
        e = errorMetricNotFound (getMetricNamespace wkey) None
        ∧ (mKeys mc !! wkey = None ∨ mKeys mc !! wkey = Some [])
    end.
Proof.
  split; [apply convertKeysToNamespaces_map|].
  rewrite matchedNamespaces_spec.
  destruct (mKeys mc !! wkey) as [[|k l]|]; [by split; [|right]| |by split; [|left]].
  exists (k :: l). split_and!; [done..| |].
  - by rewrite length_map.
  - rewrite <- list_fmap_compose. rewrite <- (list_fmap_id (k :: l)) at 2.
    apply list_fmap_ext. intros i key _. apply Join_Split.
Qed.

(** X7: after any history of calls, MatchQuery of a query whose
    pattern compiles returns the namespaces of the keys of the key
    list that the pattern matches, in the order of the key list, or
    MetricNotFound when it matches none; it caches these keys under
    the query key, leaves the other query keys, the key list and the
    trie as they are, and releases the mutex. *)
Theorem MatchQuery_returns_matching_keys (ops : list op) (Q : list string)
    (regex : Regexp_t) :
  regexp_MustCompile (wildcard_pattern (getMetricKey Q)) = Some regex →
  let mc := run ops in
  let matched := filter (λ k, regexp_matches regex k = true) (keys mc) in
  ∃ mc', MatchQuery Q mc = Returns (namespaces_of Q matched) mc'
         ∧ cached_keys Q mc' = matched
         ∧ (∀ wkey, wkey ≠ getMetricKey Q → mKeys mc' !! wkey = mKeys mc !! wkey)
         ∧ keys mc' = keys mc ∧ tree mc' = tree mc
         ∧ currentIter mc' = currentIter mc ∧ mutex mc' = false.
Proof.
  intros Hc mc matched. pose proof (catalog_inv_run ops) as Hinv. fold mc in Hinv.
  destruct (MatchQuery_run ops Q regex Hc) as [HQ Hd]. fold mc matched in HQ, Hd.
  eexists. split; [apply HQ|]. cbn [mKeys keys tree currentIter mutex set_mKeys].
  split_and!; try done.
  - unfold cached_keys. cbn [mKeys set_mKeys]. rewrite refresh_lookup, Hd.
    by destruct matched.
  - intros wkey Hw. by rewrite refresh_lookup_ne.
  - apply Hinv.
Qed.

(** X8: when MatchQuery returns, GetQueriedNamespaces of the same
    query on the catalog it leaves returns the same result, and so
    does MatchQuery again, the catalog staying as it is. *)
Theorem GetQueriedNamespaces_after_MatchQuery (mc mc' : metricCatalog)
    (Q : list string) (r : ret (list (list string))) :
  MatchQuery Q mc = Returns r mc' →
  GetQueriedNamespaces Q mc' = Returns r mc'
  ∧ MatchQuery Q mc' = Returns r mc'.
Proof.
  intros HQ.
  destruct (mutex mc) eqn:Hmu.
  { unfold MatchQuery in HQ. by rewrite locked_held in HQ. }
  rewrite MatchQuery_unfold in HQ by done.
  destruct (regexp_MustCompile _) as [regex|] eqn:Hc; [|done].
  injection HQ as <- <-.
  assert (mutex (set_mKeys (refresh (getMetricKey Q) (keys mc) (mKeys mc)) mc)
          = false) as Hmu' by done.
  split.
  - rewrite GetQueriedNamespaces_unfold by done. f_equal.
    rewrite matchedNamespaces_spec. cbn [mKeys set_mKeys].
    rewrite refresh_lookup.
    destruct (derive _ _) as [l|] eqn:Hd; [|done].
    destruct l as [|k l]; [|done]. by apply derive_nonempty in Hd.
  - rewrite MatchQuery_unfold by done. rewrite Hc.
    cbn [keys mKeys set_mKeys]. f_equal.
    destruct mc as [t mu ks mk it]. unfold set_mKeys. cbn. f_equal.
    unfold refresh. destruct (derive ks (getMetricKey Q)) as [l|].
    + apply insert_insert_eq.
    + apply delete_delete_eq.
Qed.

End CacheFunctions.

Lemma MatchQuery_returns_matching_keys_witness :
  returned (MatchQuery ["intel"; "mock"; "*"] (run [OpAdd mock_foo; OpAdd mock_bar]))
  = Some (Ok [["intel"; "mock"; "foo"]; ["intel"; "mock"; "bar"]]).
Proof.
  destruct (MatchQuery_returns_matching_keys (regexp := wildcard_fragment)
              [OpAdd mock_foo; OpAdd mock_bar] ["intel"; "mock"; "*"]
              [ReLit "i"; ReLit "n"; ReLit "t"; ReLit "e"; ReLit "l"; ReLit ".";
               ReLit "m"; ReLit "o"; ReLit "c"; ReLit "k"; ReLit "."; ReAnyStar])
    as (mc' & -> & _); [vm_compute; reflexivity|].
  vm_compute. reflexivity.
Defined.

Lemma GetQueriedNamespaces_after_MatchQuery_witness :
  ∃ mc', GetQueriedNamespaces ["intel"; "mock"; "*"] mc'
         = Returns (Ok [["intel"; "mock"; "foo"]; ["intel"; "mock"; "bar"]]) mc'.
Proof.
  eexists.
  eapply (GetQueriedNamespaces_after_MatchQuery catalog_foo_bar _
            ["intel"; "mock"; "*"]).
  vm_compute. reflexivity.
Defined.

(** ** Keeping the cache *)

Section CacheMaintenance.

Context {regexp : Regexp}.

Lemma without_absent key l l' : without key l = Some l' → key ∉ l'.
Proof.
  intros [-> _]%without_Some. rewrite list_elem_of_filter. by intros [? _].
Qed.

(** X9: on a cache whose lists are without repetition,
    removeMatchedKey takes the key out of every cached list, keeping
    the order of the other keys, and drops the query keys whose list
    becomes empty; it adds no query key and touches nothing but the
    cache.  (The lists are rewritten in place while they are ranged
    over.) *)
Theorem removeMatchedKey_filters_every_list (key : string) (mc : metricCatalog) :
  cache_NoDup (mKeys mc) →
  let mc' := removeMatchedKey key mc in
  (∀ wkey, mKeys mc' !! wkey
           = mKeys mc !! wkey ≫= λ l, match filter (λ k, k ≠ key) l with
                                       | [] => None
                                       | l' => Some l'
                                       end)
  ∧ (∀ wkey l, mKeys mc' !! wkey = Some l → l ≠ [] ∧ key ∉ l)
  ∧ keys mc' = keys mc ∧ tree mc' = tree mc
  ∧ currentIter mc' = currentIter mc ∧ mutex mc' = mutex mc.
Proof.
  intros Hnd mc'. unfold mc'. rewrite removeMatchedKey_spec by done.
  cbn [mKeys keys tree currentIter mutex set_mKeys]. split_and!; try done.
  - intros wkey. by rewrite lookup_omap.
  - intros wkey l. rewrite lookup_omap.
    destruct (mKeys mc !! wkey) as [l0|]; [|done].
    change (without key l0 = Some l → l ≠ [] ∧ key ∉ l).
    intros Hl. split; [|by eapply without_absent].
    by destruct (without_Some _ _ _ Hl).
Qed.

(** X10: on a cache whose query keys have patterns that compile,
    updateMatchingMap derives every cached query key afresh from the
    key list and drops the ones that match no key; it adds no query
    key, touches nothing but the cache, and changes nothing when it
    runs a second time. *)
Theorem updateMatchingMap_rederives_cache (mc : metricCatalog) :
  cache_compiles (mKeys mc) →
  ∃ mc', updateMatchingMap mc = Returns () mc'
         ∧ (∀ wkey, mKeys mc' !! wkey
                    = mKeys mc !! wkey ≫= λ _, derive (keys mc) wkey)
         ∧ keys mc' = keys mc ∧ tree mc' = tree mc
         ∧ currentIter mc' = currentIter mc ∧ mutex mc' = mutex mc
         ∧ updateMatchingMap mc' = Returns () mc'.
Proof.
  intros Hc. rewrite updateMatchingMap_spec by done.
  eexists. split; [done|]. cbn [mKeys keys tree currentIter mutex set_mKeys].
  split_and!; try done.
  - intros wkey. apply map_lookup_imap.
  - rewrite updateMatchingMap_spec.
    + cbn [mKeys keys set_mKeys]. f_equal.
      destruct mc as [t mu ks mk it]. unfold set_mKeys. cbn. f_equal.
      apply map_eq. intros wkey. rewrite !map_lookup_imap.
      destruct (mk !! wkey) as [l0|]; [|done]. cbn.
      by destruct (derive ks wkey).
    + intros wkey l. cbn [mKeys set_mKeys]. rewrite map_lookup_imap.
      destruct (mKeys mc !! wkey) as [l0|] eqn:Hl0; [|done].
      intros _. by eapply Hc.
Qed.

End CacheMaintenance.

Lemma cache_mock_lookup wkey l :
  cache_mock !! wkey = Some l →
  wkey = "intel.mock.*" ∧ l = ["intel.mock.foo"; "intel.mock.bar"].
Proof. unfold cache_mock. by intros [<- <-]%lookup_singleton_Some. Qed.

Lemma removeMatchedKey_filters_every_list_witness :
  mKeys (removeMatchedKey "intel.mock.foo" catalog_cached) !! "intel.mock.*"
  = Some ["intel.mock.bar"].
Proof.
  destruct (removeMatchedKey_filters_every_list "intel.mock.foo" catalog_cached)
    as (Hlookup & _).
  - intros wkey l [_ ->]%cache_mock_lookup.
    apply NoDup_cons. split; [by intros ?%list_elem_of_singleton|].
    apply NoDup_singleton.
  - rewrite Hlookup. vm_compute. reflexivity.
Defined.

Lemma updateMatchingMap_rederives_cache_witness :
  ∃ mc', updateMatchingMap catalog_cached = Returns () mc'
         ∧ mKeys mc' !! "intel.mock.*" = Some ["intel.mock.foo"; "intel.mock.bar"].
Proof.
  destruct (updateMatchingMap_rederives_cache catalog_cached)
    as (mc' & Hrun & Hlookup & _).
  - intros wkey l [-> _]%cache_mock_lookup. vm_compute. by eexists.
  - exists mc'. split; [done|]. rewrite Hlookup. vm_compute. reflexivity.
Defined.

(** ** The public methods, one by one *)

Section PublicMethods.

Context {regexp : Regexp}.

(** X11: AddLoadedMetricType validates the namespace first and
    returns the InvalidNamespace error of the validator, then
    returns the error of a nil config policy, in both cases without
    taking the mutex and without touching the catalog; otherwise it
    waits for the mutex and adds an entry for the plugin with the
    namespace, version, time, tags and labels advertised, a
    subscription count of zero and the policy node of the namespace:
    the key goes to the key list if missing, the entry to the trie,
    the cache stays as it is, and nil is returned. *)
Theorem AddLoadedMetricType_outcomes (lp : loadedPlugin) (mt : coreMetric)
    (mc : metricCatalog) :
  match validateMetricNamespace (cm_Namespace mt), lp_ConfigPolicy lp with
  | Some err, _ =>
      AddLoadedMetricType lp mt mc = Returns (Some err) mc
      ∧ kind_of err = InvalidNamespace
  | None, None =>
      AddLoadedMetricType lp mt mc = Returns (Some errConfigPolicyNil) mc
  | None, Some cp =>
      if mutex mc then AddLoadedMetricType lp mt mc = Blocks
      else
        ∃ m mc', AddLoadedMetricType lp mt mc = Returns None mc'
          ∧ Plugin m = Some lp ∧ namespace m = cm_Namespace mt
          ∧ version m = cm_Version mt
          ∧ lastAdvertisedTime m = cm_LastAdvertisedTime mt
          ∧ tags m = cm_Tags mt ∧ labels m = cm_Labels mt
          ∧ subscriptions m = 0
          ∧ policy m = Some (ConfigPolicy_Get cp (cm_Namespace mt))
          ∧ keys mc' = appendIfMissing (keys mc) (getMetricKey (cm_Namespace mt))
          ∧ tree mc' = MTTrie_Add m (tree mc)
          ∧ mKeys mc' = mKeys mc ∧ currentIter mc' = currentIter mc
          ∧ mutex mc' = false
  end.
Proof.
  unfold AddLoadedMetricType.
  destruct (validateMetricNamespace (cm_Namespace mt)) as [err|] eqn:Hv.
  - split; [done|]. unfold validateMetricNamespace in Hv.
    destruct (existsb _ _); [by injection Hv as <-|].
    destruct (strings_HasSuffix _ _); [by injection Hv as <-|done].
  - destruct (lp_ConfigPolicy lp) as [cp|]; [|done].
    destruct (mutex mc) eqn:Hmu.
    + unfold mbind, M_bind, bind, Add. by rewrite locked_held.
    + unfold mbind, M_bind, bind. rewrite Add_unfold by done.
      eexists {| Plugin := Some lp; namespace := cm_Namespace mt;
                 version := cm_Version mt;
                 lastAdvertisedTime := cm_LastAdvertisedTime mt;
                 subscriptions := 0;
                 policy := Some (ConfigPolicy_Get cp (cm_Namespace mt));
                 config := None; data := None; source := EmptyString;
                 labels := cm_Labels mt; tags := cm_Tags mt; timestamp := 0 |}, _.
      split; [done|]. by split_and!.
Qed.

(** X12: the methods that only ask (GetQueriedNamespaces, Get,
    GetVersions, Fetch, GetPlugin, Keys) leave the catalog exactly as
    they found it, whether they return a result, return an error or
    panic; so does Item. *)
Theorem asking_leaves_catalog :
  (∀ ns, read_only (GetQueriedNamespaces ns))
  ∧ (∀ ns v, read_only (Get ns v))
  ∧ (∀ ns, read_only (GetVersions ns))
  ∧ (∀ ns, read_only (Fetch ns))
  ∧ (∀ mns ver, read_only (GetPlugin mns ver))
  ∧ read_only Keys
  ∧ read_only Item.
Proof.
  split_and!.
  - intros ns mc Hmu. by rewrite GetQueriedNamespaces_unfold.
  - intros ns v mc Hmu. rewrite Get_unfold by done. by destruct (get ns v mc).
  - intros ns mc Hmu. by rewrite GetVersions_unfold.
  - intros ns mc Hmu. by rewrite Fetch_unfold.
  - intros mns ver mc Hmu. unfold GetPlugin, mbind, M_bind, bind.
    rewrite Get_unfold by done. by destruct (get mns ver mc) as [[m|e]|p].
  - by intros mc Hmu.
  - intros mc Hmu. unfold Item. by destruct (_ || _).
Qed.

(** X13: when GetPlugin is asked for a version above zero and
    returns without error, it returns a plugin, never nil, and the
    plugin has exactly that version. *)
Theorem GetPlugin_version (mns : list string) (ver : Z) (mc mc' : metricCatalog)
    (p : option loadedPlugin) :
  0 < ver →
  GetPlugin mns ver mc = Returns (Ok p) mc' →
  ∃ lp, p = Some lp ∧ lp_Version lp = ver.
Proof.
  intros Hver. unfold GetPlugin, mbind, M_bind, bind.
  destruct (mutex mc) eqn:Hmu.
  { unfold Get. by rewrite locked_held. }
  rewrite Get_unfold by done. unfold get.
  destruct (getVersions mns mc) as [mts|e]; [|done].
  rewrite (proj2 (Z.ltb_lt 0 ver)) by done.
  destruct (getVersion mts ver) as [[m|e]|pn] eqn:Hg; [|done..].
  apply getVersion_Ok_version in Hg as Hpv.
  intros [= <- _]. unfold Plugin_Version in Hpv.
  destruct (Plugin m) as [lp|]; [|done]. injection Hpv as Hpv. by exists lp.
Qed.

End PublicMethods.

Lemma GetPlugin_version_witness :
  ∃ lp, Some mock1 = Some lp ∧ lp_Version lp = 1.
Proof.
  apply (GetPlugin_version ["intel"; "mock"; "foo"] 1 catalog_foo catalog_foo);
    [lia|].
  vm_compute. reflexivity.
Defined.

(** ** The iterator, all the way round *)

Section Traversal.

Lemma set_currentIter_id mc : set_currentIter (currentIter mc) mc = mc.
Proof. by destruct mc. Qed.

Lemma after_Next_S n mc :
  after_Next (S n) mc = state_after (Next (after_Next n mc)) (after_Next n mc).
Proof. done. Qed.

Lemma after_Next_cursor n mc :
  currentIter mc = 0 → Z.of_nat (length (keys mc)) < max_int →
  (n ≤ length (keys mc))%nat →
  after_Next n mc = set_currentIter (Z.of_nat n) mc.
Proof.
  intros Hc Hlen. pose proof min_int_neg.
  induction n as [|n IH]; intros Hn.
  - change (mc = set_currentIter 0 mc).
    rewrite <- (set_currentIter_id mc) at 1. by rewrite Hc.
  - rewrite after_Next_S, IH by lia. rewrite Next_unfold.
    cbn [currentIter keys set_currentIter].
    rewrite wrap_int_in_range by lia.
    rewrite (proj2 (Z.ltb_ge _ _)) by lia.
    cbn [state_after]. unfold set_currentIter. cbn. f_equal. lia.
Qed.

Lemma foldl_snoc_id {A} (l acc : list A) :
  foldl (λ mts mt, mts ++ [mt]) acc l = acc ++ l.
Proof.
  revert acc. induction l as [|x l IH]; intros acc; simpl.
  - by rewrite app_nil_r.
  - by rewrite IH, <- app_assoc.
Qed.

(** X14: on a catalog whose cursor is zero, as Next leaves it when
    it returns false, and whose key list has fewer elements than the
    largest int, Next returns true once for each key of the key
    list, Item after the i-th of these calls returns the i-th key
    with the entries the trie has for the namespace of the key (none
    when it has none), and the call of Next after the last key
    returns false and leaves the catalog as it was at the start. *)
Theorem Next_Item_visit_every_key (mc : metricCatalog) :
  currentIter mc = 0 → Z.of_nat (length (keys mc)) < max_int →
  (∀ i key, keys mc !! i = Some key →
     Next (after_Next i mc) = Returns true (after_Next (S i) mc)
     ∧ Item (after_Next (S i) mc)
       = Returns (key, match MTTrie_Get (getMetricNamespace key) (tree mc) with
                       | Ok mts => mts
                       | Err _ => []
                       end) (after_Next (S i) mc))
  ∧ Next (after_Next (length (keys mc)) mc) = Returns false mc.
Proof.
  intros Hc Hlen. pose proof min_int_neg. split.
  - intros i key Hi. pose proof (lookup_lt_Some _ _ _ Hi) as Hlt.
    rewrite !after_Next_cursor by (done || lia). split.
    + rewrite Next_unfold. cbn [currentIter keys set_currentIter].
      rewrite wrap_int_in_range by lia.
      rewrite (proj2 (Z.ltb_ge _ _)) by lia.
      unfold set_currentIter. cbn. do 2 f_equal. lia.
    + unfold Item. cbn [currentIter keys tree set_currentIter].
      rewrite wrap_int_in_range by lia.
      rewrite (proj2 (Z.ltb_ge _ _)), (proj2 (Z.leb_gt _ _)) by lia.
      cbn [orb]. replace (Z.to_nat (Z.of_nat (S i) - 1)) with i by lia.
      rewrite Hi. cbn [default]. do 2 f_equal.
      apply (foldl_snoc_id _ []).
  - rewrite after_Next_cursor by (done || lia). rewrite Next_unfold.
    cbn [currentIter keys set_currentIter].
    rewrite wrap_int_in_range by lia.
    rewrite (proj2 (Z.ltb_lt _ _)) by lia. f_equal.
    unfold set_currentIter. cbn. rewrite <- Hc. by destruct mc.
Qed.

Lemma Next_Item_visit_every_key_witness :
  Item (after_Next 2 catalog_foo_bar)
  = Returns ("intel.mock.bar", [mock_bar]) (after_Next 2 catalog_foo_bar)
  ∧ Next (after_Next 2 catalog_foo_bar) = Returns false catalog_foo_bar.
Proof.
  destruct (Next_Item_visit_every_key catalog_foo_bar) as (Hvisit & Hend);
    [reflexivity|vm_compute; reflexivity|].
  split; [|apply Hend].
  destruct (Hvisit 1%nat "intel.mock.bar") as (_ & ->); [reflexivity|].
  vm_compute. reflexivity.
Defined.

End Traversal.

(** ** What every history of calls keeps *)

Section Histories.

Context {regexp : Regexp}.

Lemma appendIfMissing_prefix l y : l `prefix_of` appendIfMissing l y.
Proof.
  rewrite appendIfMissing_spec. destruct (decide (y ∈ l)); [done|].
  by exists [y].
Qed.

Lemma call_op_keys o mc :
  catalog_inv mc → keys mc `prefix_of` keys (call_op o mc).
Proof.
  intros Hinv. pose proof (inv_mutex mc Hinv) as Hmu.
  destruct o; cbn [call_op]; try done.
  - by rewrite GetQueriedNamespaces_unfold.
  - rewrite MatchQuery_unfold by done. by destruct (regexp_MustCompile _).
  - destruct (AddLoadedMetricType_state lp mt mc) as [->|(m & _ & ->)]; [done|].
    rewrite Add_unfold by done. apply appendIfMissing_prefix.
  - rewrite RmUnloadedPluginMetrics_unfold; [done..|].
    intros w l Hl. by destruct (inv_cache mc Hinv w l Hl) as (_ & _ & _ & ?).
  - rewrite Add_unfold by done. apply appendIfMissing_prefix.
  - rewrite Get_unfold by done. by destruct (get _ _ _).
  - by rewrite GetVersions_unfold.
  - by rewrite Fetch_unfold.
  - by rewrite Remove_unfold.
  - unfold Item. by destruct (_ || _).
  - rewrite Next_unfold. by destruct (_ <? _).
  - rewrite Subscribe_unfold by done. by destruct (get _ _ _) as [[?|?]|?].
  - rewrite Unsubscribe_unfold by done. by destruct (get _ _ _) as [[?|?]|?].
  - by rewrite GetPlugin_state.
Qed.

Lemma run_app ops ops' :
  run (ops ++ ops') = foldl (λ mc o, call_op o mc) (run ops) ops'.
Proof. unfold run. apply foldl_app. Qed.

(** X15: the key list only grows: whatever calls follow a history,
    the key list after the history is a prefix of the key list after
    the longer history, so that a key keeps its place in the key
    list for ever and no call, Remove and RmUnloadedPluginMetrics
    included, takes a key out. *)
Theorem keys_only_grow (ops ops' : list op) :
  keys (run ops) `prefix_of` keys (run (ops ++ ops'))
  ∧ ∀ i key, keys (run ops) !! i = Some key →
             keys (run (ops ++ ops')) !! i = Some key.
Proof.
  assert (keys (run ops) `prefix_of` keys (run (ops ++ ops'))) as Hpre.
  { induction ops' as [|o ops' IH] using rev_ind.
    - by rewrite app_nil_r.
    - rewrite app_assoc, run_snoc. etrans; [apply IH|].
      apply call_op_keys, catalog_inv_run. }
  split; [done|]. intros i key Hi. destruct Hpre as [k ->].
  by apply lookup_app_l_Some.
Qed.

(** X16: after every history of calls on a new catalog the mutex is
    free, the key list is without repetition, every list of the
    cache is non-empty, without repetition and made of keys of the
    key list, every namespace with a registered version has its key
    in the key list, and the cursor is between zero and the length
    of the key list (the key list having fewer elements than the
    largest int). *)
Theorem catalog_between_calls (ops : list op) :
  let mc := run ops in
  mutex mc = false
  ∧ NoDup (keys mc)
  ∧ (∀ wkey l, mKeys mc !! wkey = Some l →
       l ≠ [] ∧ NoDup l ∧ ∀ k, k ∈ l → k ∈ keys mc)
  ∧ (∀ ns, (∃ mts, getVersions ns mc = Ok mts) → getMetricKey ns ∈ keys mc)
  ∧ (Z.of_nat (length (keys mc)) < max_int →
     0 ≤ currentIter mc ≤ Z.of_nat (length (keys mc))).
Proof.
  intros mc. destruct (catalog_inv_run ops) as [Hmu Hkeys Hiter Hcache _ Hreg].
  fold mc in Hmu, Hkeys, Hiter, Hcache, Hreg. split_and!; try done.
  - intros wkey l Hl. by destruct (Hcache wkey l Hl) as (? & ? & ? & _).
  - intros ns Hns. by apply Hreg, getVersions_registered.
Qed.

End Histories.

(** ** Counting subscriptions through the catalog *)

Section CountingThroughCatalog.

Context {regexp : Regexp}.

Lemma get_get_of ns v mc : get ns v mc = get_of (entries ns mc) ns v.
Proof.
  unfold get, get_of, entries. rewrite getVersions_lookup.
  by destruct ((map_to_list (trie_lookup ns (tree mc))).*2).
Qed.

Lemma resolves_get ns v mc r : resolves ns v mc r → get ns v mc = r.
Proof. intros Hr. rewrite get_get_of. by apply Hr. Qed.

Lemma entries_elem ns mc x :
  x ∈ entries ns mc ↔ ∃ k, trie_lookup ns (tree mc) !! k = Some x.
Proof.
  unfold entries. rewrite list_elem_of_fmap. split.
  - intros ([k x'] & -> & Hx). exists k. by apply elem_of_map_to_list.
  - intros [k Hk]. exists (k, x). split; [done|]. by apply elem_of_map_to_list.
Qed.

(** The entries of a namespace have versions that differ. *)
Lemma entries_versions ns mc x y :
  catalog_inv mc → x ∈ entries ns mc → y ∈ entries ns mc →
  Version x = Version y → x = y.
Proof.
  intros Hinv [kx Hx]%entries_elem [ky Hy]%entries_elem Hv.
  destruct (inv_trie _ Hinv _ _ _ Hx) as [_ <-].
  destruct (inv_trie _ Hinv _ _ _ Hy) as [_ <-].
  rewrite Hv in Hx. rewrite Hx in Hy. by injection Hy.
Qed.

(** The entries once the count of one of them is rewritten in place. *)
Lemma entries_write_back ns mc m k n :
  catalog_inv mc → trie_lookup ns (tree mc) !! k = Some m →
  ∃ g : metricType → metricType,
    entries ns (write_back ns (set_subscriptions n m) mc) = g <$> entries ns mc
    ∧ g m = set_subscriptions n m
    ∧ ∀ x, x ∈ entries ns mc → (x ≠ m ∧ g x = x) ∨ (x = m).
Proof.
  intros Hinv Hk. destruct (inv_trie _ Hinv _ _ _ Hk) as [Hns Hv].
  set (m' := set_subscriptions n m).
  set (mp := trie_lookup ns (tree mc)) in *.
  set (g := λ x : metricType, if decide (Version x = k) then m' else x).
  assert (∀ i x, mp !! i = Some x → g x = if decide (i = k) then m' else x) as Hgi.
  { intros i x Hx. destruct (inv_trie _ Hinv _ _ _ Hx) as [_ Hvx].
    unfold g. by rewrite Hvx. }
  exists g. split_and!.
  - unfold entries. cbn [write_back tree set_tree].
    rewrite trie_lookup_store, decide_True by done. fold mp.
    assert (<[Version m' := m']> mp = g <$> mp) as ->.
    { apply map_eq. intros i. rewrite lookup_fmap.
      change (Version m') with (Version m). rewrite Hv.
      destruct (decide (i = k)) as [->|Hi].
      - rewrite lookup_insert_eq, Hk. cbn. by rewrite (Hgi k m), decide_True.
      - rewrite lookup_insert_ne by done.
        destruct (mp !! i) as [x|] eqn:Hx; [|done]. cbn.
        by rewrite (Hgi i x), decide_False. }
    rewrite map_to_list_fmap, <- !list_fmap_compose.
    apply list_fmap_ext. by intros i [j x] _.
  - unfold g. by rewrite decide_True.
  - intros x [i Hx]%entries_elem. fold mp in Hx.
    destruct (decide (i = k)) as [->|Hne].
    + right. rewrite Hk in Hx. by injection Hx.
    + left. split; [|by rewrite (Hgi i x Hx), decide_False].
      intros ->. destruct (inv_trie _ Hinv _ _ _ Hx) as [_ Hvx]. congruence.
Qed.

(** getLatest on a list whose entries have versions that differ: the
    entry of highest version, wherever it stands. *)
Lemma getLatest_highest c m :
  (∀ x y, x ∈ c → y ∈ c → Version x = Version y → x = y) →
  m ∈ c → Forall (λ x, Version x ≤ Version m) c →
  getLatest c = Done m.
Proof.
  intros Hdiff Hm Hmax.
  assert (c ≠ []) as Hne by (intros ->; by apply not_elem_of_nil in Hm).
  destruct (getLatest_spec c Hne) as (r & -> & Hr & Hrmax). f_equal.
  apply Hdiff; [done..|].
  pose proof (proj1 (Forall_forall _ _) Hmax r Hr).
  pose proof (proj1 (Forall_forall _ _) Hrmax m Hm). cbn in *. lia.
Qed.

(** getVersion on a list whose entries all have a plugin, one of them
    only of the version asked for: that entry, wherever it stands. *)
Lemma getVersion_only c ver m :
  (∀ x, x ∈ c → is_Some (Plugin x) ∧ (Plugin_Version x = Done ver → x = m)) →
  m ∈ c → Plugin_Version m = Done ver →
  getVersion c ver = Done (Ok m).
Proof.
  intros Hc Hm Hv. induction c as [|x c IH]; [by apply not_elem_of_nil in Hm|].
  cbn [getVersion].
  destruct (Hc x) as [[lp Hlp] Hx]; [apply list_elem_of_here|].
  assert (Plugin_Version x = Done (lp_Version lp)) as Hpv.
  { unfold Plugin_Version. by rewrite Hlp. }
  rewrite Hpv. destruct (Z.eqb_spec (lp_Version lp) ver) as [Heq|Hne].
  - rewrite Heq in Hpv. by rewrite (Hx Hpv).
  - apply IH.
    + intros y Hy. by apply Hc, list_elem_of_further.
    + apply elem_of_cons in Hm as [->|Hm]; [|done]. congruence.
Qed.

(** What it takes for get to come to an entry in whatever order. *)
Lemma resolves_Ok ns v mc m :
  resolves ns v mc (Done (Ok m)) →
  m ∈ entries ns mc
  ∧ if 0 <? v
    then Plugin_Version m = Done v
         ∧ ∀ x, x ∈ entries ns mc →
                is_Some (Plugin x) ∧ (Plugin_Version x = Done v → x = m)
    else Forall (λ x, Version x ≤ Version m) (entries ns mc).
Proof.
  intros Hr. pose proof (Hr (entries ns mc) (reflexivity _)) as Hself.
  assert (m ∈ entries ns mc) as Hm.
  { unfold get_of in Hself. destruct (entries ns mc) as [|x l] eqn:He; [done|].
    destruct (0 <? v).
    - destruct (getVersion (x :: l) v) as [[m'|e]|p] eqn:Hg; [|done..].
      injection Hself as ->. by eapply getVersion_Ok_elem.
    - destruct (getLatest_spec (x :: l)) as (r & Hl & Hin & _); [done|].
      rewrite Hl in Hself. by injection Hself as <-. }
  split; [done|]. destruct (0 <? v) eqn:Hv.
  - split.
    + unfold get_of in Hself. rewrite Hv in Hself.
      destruct (entries ns mc) as [|x l]; [done|].
      destruct (getVersion (x :: l) v) as [[m'|e]|p] eqn:Hg; [|done..].
      injection Hself as ->. by eapply getVersion_Ok_version.
    + intros x [k Hk]%elem_of_Permutation.
      pose proof (Hr (x :: k) (symmetry Hk)) as Hx.
      unfold get_of in Hx. rewrite Hv in Hx. cbn [getVersion] in Hx.
      unfold Plugin_Version in *. destruct (Plugin x) as [lp|]; [|done].
      split; [by eexists|]. intros [= Hlp]. rewrite Hlp, Z.eqb_refl in Hx.
      by injection Hx.
  - unfold get_of in Hself. rewrite Hv in Hself.
    destruct (entries ns mc) as [|x l]; [done|].
    destruct (getLatest_spec (x :: l)) as (r & Hl & _ & Hmax); [done|].
    rewrite Hl in Hself. by injection Hself as <-.
Qed.

(** And what is enough. *)
Lemma resolves_Ok_intro ns v mc m :
  catalog_inv mc → m ∈ entries ns mc →
  (if 0 <? v
   then Plugin_Version m = Done v
        ∧ ∀ x, x ∈ entries ns mc →
               is_Some (Plugin x) ∧ (Plugin_Version x = Done v → x = m)
   else Forall (λ x, Version x ≤ Version m) (entries ns mc)) →
  resolves ns v mc (Done (Ok m)).
Proof.
  intros Hinv Hm Hcond mts Hperm.
  assert (m ∈ mts) as Hm' by (by rewrite Hperm).
  unfold get_of. destruct mts as [|x l] eqn:Hmts; [by apply not_elem_of_nil in Hm'|].
  rewrite <- Hmts in *. destruct (0 <? v).
  - destruct Hcond as [Hv Hall]. rewrite (getVersion_only mts v m); [done| |done..].
    intros y Hy. apply Hall. by rewrite <- Hperm.
  - rewrite (getLatest_highest mts m); [done| |done|by rewrite Hperm].
    intros y z Hy Hz. rewrite Hperm in Hy, Hz. by apply (entries_versions ns mc).
Qed.

(** The entry that get comes to in whatever order is the one it comes
    to, in whatever order, once its count is rewritten in place. *)
Lemma resolves_write_back ns v mc m n :
  catalog_inv mc → resolves ns v mc (Done (Ok m)) →
  catalog_inv (write_back ns (set_subscriptions n m) mc)
  ∧ resolves ns v (write_back ns (set_subscriptions n m) mc)
      (Done (Ok (set_subscriptions n m))).
Proof.
  intros Hinv Hr. destruct (resolves_Ok _ _ _ _ Hr) as [Hm Hcond].
  destruct (proj1 (entries_elem _ _ _) Hm) as [k Hk].
  assert (catalog_inv (write_back ns (set_subscriptions n m) mc)) as Hinv'.
  { by eapply catalog_inv_write_back. }
  split; [done|].
  destruct (entries_write_back ns mc m k n Hinv Hk) as (g & Hg & Hgm & Hgx).
  assert (∀ y, y ∈ g <$> entries ns mc →
            ∃ x, x ∈ entries ns mc ∧ y = g x ∧ Version y = Version x
                 ∧ Plugin y = Plugin x ∧ (x = m → y = set_subscriptions n m)) as Hy.
  { intros y (x & -> & Hx)%list_elem_of_fmap. exists x. split; [done|].
    destruct (Hgx x Hx) as [[Hne ->]| ->]; [by split_and!|].
    rewrite Hgm. by split_and!. }
  apply resolves_Ok_intro; [done|..].
  - rewrite Hg, <- Hgm. apply list_elem_of_fmap. by exists m.
  - rewrite Hg. destruct (0 <? v).
    + destruct Hcond as [Hv Hall]. split; [done|].
      intros y (x & Hx & -> & _ & Hpl & Hxm)%Hy.
      destruct (Hall x Hx) as [Hsome Honly]. rewrite Hpl. split; [done|].
      intros Hpv. apply Hxm, Honly. unfold Plugin_Version in *. by rewrite <- Hpl.
    + apply Forall_forall. intros y (x & Hx & -> & Hvy & _)%Hy.
      rewrite Hvy. change (Version (set_subscriptions n m)) with (Version m).
      by apply (proj1 (Forall_forall _ _) Hcond).
Qed.

Lemma Get_returned ns v mc r :
  mutex mc = false →
  returned (Get ns v mc) = Some r ↔ get ns v mc = Done r.
Proof.
  intros Hmu. rewrite Get_unfold by done.
  destruct (get ns v mc) as [r'|p]; cbn; [|done]. split; by intros [= ->].
Qed.

(** X17: after any history of calls, with the trie returning the
    entries of a namespace in any order, the same or another at each
    call: when get fails in whatever order, Subscribe and
    Unsubscribe return the error and change nothing; when get comes
    to one entry in whatever order, Subscribe returns nil and get
    then comes, in whatever order, to that entry with its count
    raised by one (by the wrapping increment), Unsubscribe on a
    count of zero returns errNegativeSubCount and changes nothing,
    and Unsubscribe on another count returns nil and get then comes
    to the entry with its count lowered by one.  For a version of
    zero or less get comes to the same result in whatever order, the
    entries of a namespace having versions that differ; for a
    version above zero it does when every entry has a plugin and one
    entry only has a plugin of that version. *)
Theorem Subscribe_then_Get (ops : list op) (ns : list string) (v : Z) :
  let mc := run ops in
  (∀ e, resolves ns v mc (Done (Err e)) →
     Subscribe ns v mc = Returns (Some e) mc
     ∧ Unsubscribe ns v mc = Returns (Some e) mc)
  ∧ (∀ m, resolves ns v mc (Done (Ok m)) →
       (∃ mc', Subscribe ns v mc = Returns None mc'
               ∧ resolves ns v mc' (Done (Ok (Subscribe_mt m)))
               ∧ Get ns v mc' = Returns (Ok (Subscribe_mt m)) mc'
               ∧ SubscriptionCount (Subscribe_mt m)
                 = wrap_int (SubscriptionCount m + 1))
       ∧ (SubscriptionCount m = 0 →
          Unsubscribe ns v mc = Returns (Some errNegativeSubCount) mc)
       ∧ (SubscriptionCount m ≠ 0 →
          ∃ mc' m', Unsubscribe ns v mc = Returns None mc'
                    ∧ resolves ns v mc' (Done (Ok m'))
                    ∧ Get ns v mc' = Returns (Ok m') mc'
                    ∧ m' = (Unsubscribe_mt m).1
                    ∧ SubscriptionCount m' = wrap_int (SubscriptionCount m - 1)))
  ∧ (v ≤ 0 → ∃ r, get ns v mc = Done r ∧ resolves ns v mc (Done r))
  ∧ (∀ m, 0 < v → m ∈ entries ns mc → Plugin_Version m = Done v →
       (∀ x, x ∈ entries ns mc →
             is_Some (Plugin x) ∧ (Plugin_Version x = Done v → x = m)) →
       resolves ns v mc (Done (Ok m))).
Proof.
  intros mc. pose proof (catalog_inv_run ops) as Hinv. fold mc in Hinv.
  pose proof (inv_mutex _ Hinv) as Hmu. split_and!.
  - intros e He%resolves_get.
    by rewrite Subscribe_unfold, Unsubscribe_unfold, He.
  - intros m Hr. pose proof (resolves_get _ _ _ _ Hr) as Hm.
    destruct (get_Ok_lookup _ _ _ _ Hm) as [k Hk].
    rewrite Subscribe_unfold, Unsubscribe_unfold, Hm by done. split_and!.
    + destruct (resolves_write_back ns v mc m (wrap_int (subscriptions m + 1))
                  Hinv Hr) as [Hinv' Hr'].
      eexists. split; [done|]. unfold Subscribe_mt. split_and!; [done| |done].
      rewrite Get_unfold by apply Hinv'.
      by rewrite (resolves_get _ _ _ _ Hr').
    + unfold SubscriptionCount. intros H0. unfold Unsubscribe_mt. rewrite H0.
      cbn [fst snd Z.eqb]. by erewrite write_back_id.
    + unfold SubscriptionCount. intros H0%Z.eqb_neq.
      unfold Unsubscribe_mt. rewrite H0. cbn [fst snd].
      destruct (resolves_write_back ns v mc m (wrap_int (subscriptions m - 1))
                  Hinv Hr) as [Hinv' Hr'].
      eexists _, _. split; [done|]. split_and!; [done| |done..].
      rewrite Get_unfold by apply Hinv'.
      by rewrite (resolves_get _ _ _ _ Hr').
  - intros Hv. rewrite get_get_of.
    destruct (entries ns mc) as [|x l] eqn:He.
    + eexists. split; [done|]. intros mts Hperm. rewrite He in Hperm.
      by apply Permutation_nil_r in Hperm as ->.
    + destruct (getLatest_spec (x :: l)) as (m & Hl & Hin & Hmax); [done|].
      exists (Ok m). split.
      * unfold get_of. by rewrite (proj2 (Z.ltb_ge 0 v)), Hl by done.
      * apply resolves_Ok_intro; [done|by rewrite He|].
        rewrite (proj2 (Z.ltb_ge 0 v)) by done. by rewrite He.
  - intros m Hv Hm Hpv Hall. apply resolves_Ok_intro; [done..|].
    by rewrite (proj2 (Z.ltb_lt 0 v)).
Qed.

End CountingThroughCatalog.

Lemma Subscribe_then_Get_witness :
  ∃ mc', Subscribe ["intel"; "mock"; "foo"] 1 (run [OpAdd mock_foo])
         = Returns None mc'
         ∧ Get ["intel"; "mock"; "foo"] 1 mc' = Returns (Ok (Subscribe_mt mock_foo)) mc'.
Proof.
  destruct (Subscribe_then_Get [OpAdd mock_foo] ["intel"; "mock"; "foo"] 1)
    as (_ & Hok & _).
  destruct (Hok mock_foo) as ((mc' & HS & _ & HG & _) & _).
  - intros mts Hperm.
    assert (entries ["intel"; "mock"; "foo"] (run [OpAdd mock_foo]) = [mock_foo])
      as He by (vm_compute; reflexivity).
    rewrite He in Hperm. apply Permutation_singleton_r in Hperm as ->.
    vm_compute. reflexivity.
  - by exists mc'.
Defined.

(** ** The validator and the joined name *)

Section ValidatorJoined.

(** X18: validateMetricNamespace looks at the concatenation of the
    segments only: two namespaces with the same concatenation are
    both accepted or both turned down with the same kind of error,
    so that the empty namespace and empty segments pass; and a
    disallowed character is reported before an asterisk at the
    end. *)
Theorem validateMetricNamespace_sees_joined_name (ns ns' : list string) :
  (strings_Join ns EmptyString = strings_Join ns' EmptyString →
   match validateMetricNamespace ns, validateMetricNamespace ns' with
   | None, None => True
   | Some (errorMetricContainsNotAllowedChars a),
     Some (errorMetricContainsNotAllowedChars b) => a = ns ∧ b = ns'
   | Some (errorMetricEndsWithAsterisk a),
     Some (errorMetricEndsWithAsterisk b) => a = ns ∧ b = ns'
   | _, _ => False
   end)
  ∧ (contains_one_of disallowed ns →
     validateMetricNamespace ns = Some (errorMetricContainsNotAllowedChars ns))
  ∧ validateMetricNamespace [] = None
  ∧ (validateMetricNamespace (EmptyString :: ns) = None
     ↔ validateMetricNamespace ns = None).
Proof.
  split_and!.
  - intros Hj. rewrite !validateMetricNamespace_cases, Hj.
    destruct (existsb _ disallowed); [done|].
    by destruct (strings_HasSuffix _ _).
  - intros Hc%contains_one_of_disallowed.
    by rewrite validateMetricNamespace_cases, Hc.
  - done.
  - rewrite !validateMetricNamespace_cases.
    assert (strings_Join (EmptyString :: ns) EmptyString
            = strings_Join ns EmptyString) as -> by (by destruct ns).
    destruct (existsb _ disallowed); [done|].
    by destruct (strings_HasSuffix _ _).
Qed.

Lemma validateMetricNamespace_sees_joined_name_witness :
  match validateMetricNamespace ["intel"; "mock*"],
        validateMetricNamespace ["intelmock"; "*"] with
  | Some (errorMetricEndsWithAsterisk a), Some (errorMetricEndsWithAsterisk b) =>
      a = ["intel"; "mock*"] ∧ b = ["intelmock"; "*"]
  | _, _ => False
  end.
Proof.
  destruct (validateMetricNamespace_sees_joined_name
              ["intel"; "mock*"] ["intelmock"; "*"]) as (Hsame & _).
  apply Hsame. reflexivity.
Defined.

End ValidatorJoined.

(** ** What the patterns of queries match *)

Section QueryPatterns.

Lemma re_match_lits p r s :
  re_match (lits p ++ r) s = true ↔ ∃ t, s = p +:+ t ∧ re_match r t = true.
Proof.
  revert s. induction p as [|c p IH]; intros s.
  - cbn [lits app]. split; [by exists s|]. by intros (t & -> & Ht).
  - cbn [lits app re_match]. destruct s as [|c' s].
    + split; [done|]. by intros (t & [=] & _).
    + rewrite andb_true_iff, IH. split.
      * intros [Hc%Ascii.eqb_eq (t & -> & Ht)]. subst c'. by exists t.
      * intros (t & [= -> ->] & Ht). split; [apply Ascii.eqb_refl|by exists t].
Qed.

Lemma re_match_any s : re_match [ReAnyStar] s = one_line s.
Proof.
  induction s as [|c s IH]; [done|].
  rewrite re_match_star, IH. by cbn [re_match one_line].
Qed.

Lemma glob_items_app p q :
  glob_items (p +:+ q)
  = l1 ← glob_items p; l2 ← glob_items q; Some (l1 ++ l2).
Proof.
  induction p as [|c p IH].
  - change (EmptyString +:+ q) with q. change (glob_items EmptyString) with (Some (@nil re_item)).
    cbn. by destruct (glob_items q).
  - change (String c p +:+ q) with (String c (p +:+ q)).
    cbn [glob_items]. rewrite IH.
    destruct (Ascii.eqb c "."); [|destruct (Ascii.eqb c "*"); [|destruct (re_literal c)]];
      try done; destruct (glob_items p) as [l1|]; try done;
      cbn; by destruct (glob_items q).
Qed.

Lemma glob_items_no_asterisk wkey r :
  string_mem "*" wkey = false → glob_items wkey = Some r → r = lits wkey.
Proof.
  revert r. induction wkey as [|c wkey IH]; intros r Hs Hg.
  - by injection Hg as <-.
  - cbn [string_mem] in Hs. apply orb_false_iff in Hs as [Hc Hs].
    rewrite Ascii.eqb_sym in Hc. cbn [glob_items] in Hg. rewrite Hc in Hg.
    cbn [lits].
    destruct (Ascii.eqb_spec c ".") as [->|_].
    + destruct (glob_items wkey) as [r'|]; [|done]. injection Hg as <-.
      f_equal. by apply IH.
    + destruct (re_literal c); [|done].
      destruct (glob_items wkey) as [r'|]; [|done]. injection Hg as <-.
      f_equal. by apply IH.
Qed.

Lemma glob_items_plain wkey : plain_key wkey = true → glob_items wkey = Some (lits wkey).
Proof.
  induction wkey as [|c wkey IH]; [done|]. cbn [plain_key glob_items lits].
  intros [Hc Hw]%andb_true_iff. rewrite (IH Hw).
  destruct (Ascii.eqb_spec c ".") as [->|_]; [done|].
  cbn [orb] in Hc. rewrite Hc.
  destruct (Ascii.eqb_spec c "*") as [->|_]; [|done]. by vm_compute in Hc.
Qed.

Lemma filter_eq_NoDup (wkey : string) (P : string → Prop) `{!∀ k, Decision (P k)}
    (l : list string) :
  NoDup l → (∀ k, P k ↔ k = wkey) →
  filter P l = if decide (wkey ∈ l) then [wkey] else [].
Proof.
  intros Hnd HP. induction Hnd as [|x l Hx Hnd IH]; [done|].
  rewrite filter_cons. destruct (decide (P x)) as [Hpx|Hpx].
  - apply HP in Hpx. subst x. rewrite decide_True by apply list_elem_of_here.
    rewrite IH. by rewrite decide_False.
  - rewrite IH. assert (x ≠ wkey) as Hne by (intros Heq; by apply Hpx, HP).
    destruct (decide (wkey ∈ l)) as [Hin|Hnin].
    + by rewrite decide_True by (by apply list_elem_of_further).
    + rewrite decide_False; [done|]. by intros [?|?]%elem_of_cons.
Qed.

(** X19: a query key without asterisk whose pattern compiles matches
    one key, itself; so, after any history of calls, MatchQuery of
    such a query returns the namespace of the query key when that
    key is in the key list and fails MetricNotFound otherwise. *)
Theorem MatchQuery_without_asterisk (ops : list op) (Q : list string)
    (regex : list re_item) :
  string_mem "*" (getMetricKey Q) = false →
  regexp_MustCompile (wildcard_pattern (getMetricKey Q)) = Some regex →
  (∀ key, regexp_matches regex key = true ↔ key = getMetricKey Q)
  ∧ returned (MatchQuery Q (run ops))
    = Some (if decide (getMetricKey Q ∈ keys (run ops))
            then Ok [getMetricNamespace (getMetricKey Q)]
            else Err (errorMetricNotFound
                        (getMetricNamespace (getMetricKey Q)) None)).
Proof.
  intros Hs Hc.
  assert (∀ key, regexp_matches regex key = true ↔ key = getMetricKey Q) as Hm.
  { intros key. rewrite MustCompile_wildcard_pattern in Hc.
    rewrite (glob_items_no_asterisk _ _ Hs Hc).
    change (re_match (lits (getMetricKey Q)) key = true ↔ key = getMetricKey Q).
    rewrite <- (app_nil_r (lits _)), re_match_lits. split.
    - intros (t & -> & Ht). destruct t; [|done]. clear.
      induction (getMetricKey Q) as [|c s IH]; [done|].
      change (String c s +:+ EmptyString) with (String c (s +:+ EmptyString)).
      by rewrite IH.
    - intros ->. exists EmptyString. split; [|done].
      clear. induction (getMetricKey Q) as [|c s IH]; [done|].
      change (String c s +:+ EmptyString) with (String c (s +:+ EmptyString)).
      by rewrite <- IH. }
  split; [done|].
  destruct (MatchQuery_run (regexp := wildcard_fragment) ops Q regex Hc)
    as [-> _].
  cbn [returned]. f_equal.
  rewrite (filter_eq_NoDup (getMetricKey Q)); [|apply catalog_inv_run|done].
  by destruct (decide _).
Qed.

(** X20: a query that ends with an asterisk after a namespace
    without asterisk matches exactly the keys that begin with the
    key of that namespace and a separator, whatever follows on the
    same line, further separators included: every key below the
    namespace, at any depth. *)
Theorem trailing_asterisk_matches_below (ns : list string) (regex : list re_item)
    (key : string) :
  ns ≠ [] → plain_key (getMetricKey ns) = true →
  regexp_MustCompile (wildcard_pattern (getMetricKey (ns ++ ["*"]))) = Some regex →
  regexp_matches regex key = true
  ↔ ∃ rest, key = getMetricKey ns +:+ "." +:+ rest ∧ one_line rest = true.
Proof.
  intros Hne Hp Hc.
  assert (getMetricKey (ns ++ ["*"]) = getMetricKey ns +:+ ".*") as Hkey.
  { unfold getMetricKey. clear Hp Hc.
    induction ns as [|s ns IH]; [done|]. destruct ns as [|s' ns]; [done|].
    change (strings_Join ((s :: s' :: ns) ++ ["*"]) ".")
      with (s +:+ "." +:+ strings_Join ((s' :: ns) ++ ["*"]) ".").
    rewrite IH by done.
    change (strings_Join (s :: s' :: ns) ".")
      with (s +:+ "." +:+ strings_Join (s' :: ns) ".").
    by rewrite !string_app_assoc. }
  rewrite MustCompile_wildcard_pattern, Hkey, glob_items_app in Hc.
  rewrite (glob_items_plain _ Hp) in Hc. cbn in Hc. injection Hc as <-.
  change (re_match (lits (getMetricKey ns) ++ [ReLit "."; ReAnyStar]) key = true
          ↔ ∃ rest, key = getMetricKey ns +:+ "." +:+ rest ∧ one_line rest = true).
  rewrite re_match_lits. split.
  - intros (t & -> & Ht). destruct t as [|c t]; [done|].
    cbn [re_match] in Ht. apply andb_true_iff in Ht as [<-%Ascii.eqb_eq Ht].
    exists t. split; [done|]. by rewrite <- re_match_any.
  - intros (rest & -> & Hr). exists ("." +:+ rest). split; [done|].
    change ("." +:+ rest) with (String "." rest). cbn [re_match].
    rewrite Ascii.eqb_refl. cbn [andb]. by rewrite <- re_match_any in Hr.
Qed.

End QueryPatterns.

Lemma MatchQuery_without_asterisk_witness :
  returned (MatchQuery ["intel"; "mock"; "foo"] (run [OpAdd mock_foo; OpAdd mock_bar]))
  = Some (Ok [["intel"; "mock"; "foo"]]).
Proof.
  destruct (MatchQuery_without_asterisk [OpAdd mock_foo; OpAdd mock_bar]
              ["intel"; "mock"; "foo"] (lits "intel.mock.foo")) as (_ & ->);
    [reflexivity|vm_compute; reflexivity|].
  vm_compute. reflexivity.
Defined.

Lemma trailing_asterisk_matches_below_witness :
  re_match (lits "intel." ++ [ReAnyStar]) "intel.mock.foo" = true.
Proof.
  apply (trailing_asterisk_matches_below ["intel"] (lits "intel." ++ [ReAnyStar])
           "intel.mock.foo"); [discriminate|reflexivity|reflexivity|].
  exists "mock.foo". split; reflexivity.
Defined.

(** ** snapctl: the namespace asked of the server *)

Section SnapctlNamespace.

Import snapctl.

Lemma drop_bytes_split n s :
  (n ≤ String.length s)%nat →
  ∃ p, s = p +:+ drop_bytes n s ∧ String.length p = n
       ∧ String.length (drop_bytes n s) = (String.length s - n)%nat.
Proof.
  revert s. induction n as [|n IH]; intros s Hn.
  - exists EmptyString. split_and!; [done..|]. cbn. lia.
  - destruct s as [|c s]; [cbn in Hn; lia|].
    destruct (IH s) as (p & Hp & Hlen & Hlen'); [cbn in Hn; lia|].
    exists (String c p). split_and!.
    + cbn [drop_bytes]. change (String c p +:+ drop_bytes n s)
        with (String c (p +:+ drop_bytes n s)). by rewrite <- Hp.
    + cbn. by rewrite Hlen.
    + done.
Qed.

Lemma length_append (s t : string) :
  String.length (s +:+ t) = (String.length s + String.length t)%nat.
Proof.
  induction s as [|c s IH]; [done|].
  change (String c s +:+ t) with (String c (s +:+ t)). cbn. by rewrite IH.
Qed.

Lemma drop_bytes_append p t : drop_bytes (String.length p) (p +:+ t) = t.
Proof. induction p as [|c p IH]; [by destruct t|]. apply IH. Qed.

Lemma slice_from_suffix p t :
  slice_from (p +:+ t) (Z.of_nat (String.length (p +:+ t)) - Z.of_nat (String.length t))
  = Some t.
Proof.
  unfold slice_from. rewrite length_append.
  rewrite (proj2 (Z.ltb_ge _ _)), (proj2 (Z.ltb_ge _ _)) by lia. cbn [orb].
  replace (Z.to_nat _) with (String.length p) by lia.
  by rewrite drop_bytes_append.
Qed.

Lemma append_inj_r p q (t u : string) :
  String.length t = String.length u → p +:+ t = q +:+ u → t = u.
Proof.
  intros Hlen Heq.
  assert (String.length p = String.length q) as Hpq.
  { apply (f_equal String.length) in Heq. rewrite !length_append in Heq. lia. }
  revert q Hpq Heq. induction p as [|c p IH]; intros [|d q] Hpq Heq; try done.
  injection Heq as _ Heq. apply (IH q); [|done]. by injection Hpq.
Qed.

(** X21: listMetrics asks the server for "/*" when no namespace is
    given; it panics, the slice expression ns[len(ns)-2:] being out
    of range, when the namespace has one byte, as "/" has; and for a
    longer namespace it asks for a namespace that ends with "/*":
    the namespace itself when it ends so, and else the namespace
    followed by "*" when it ends with "/" and by "/*" when not.
    Doing the same to the result gives the result again. *)
Theorem listMetrics_namespace (ns : string) :
  match String.length ns with
  | 0%nat => listMetrics_ns ns = Finishes "/*"
  | 1%nat => listMetrics_ns ns = SliceBoundsOutOfRange
  | _ =>
      ∃ q, listMetrics_ns ns = Finishes q
           ∧ ends_with q "/*"
           ∧ (ends_with ns "/*" → q = ns)
           ∧ (¬ ends_with ns "/*" → ends_with ns "/" → q = ns +:+ "*")
           ∧ (¬ ends_with ns "/*" → ¬ ends_with ns "/" → q = ns +:+ "/*")
           ∧ listMetrics_ns q = Finishes q
  end.
Proof.
  assert (∀ p, listMetrics_ns (p +:+ "/*") = Finishes (p +:+ "/*")) as Hfix.
  { intros p. unfold listMetrics_ns.
    assert (p +:+ "/*" ≠ EmptyString) as Hne by (by destruct p).
    rewrite (proj2 (String.eqb_neq _ _) Hne). cbn [negb].
    pose proof (slice_from_suffix p "/*") as Hs.
    change (Z.of_nat (String.length "/*")) with 2 in Hs. by rewrite Hs. }
  destruct ns as [|c1 [|c2 s]]; [done..|].
  cbn [String.length]. cbv iota.
  set (ns := String c1 (String c2 s)).
  assert (2 ≤ String.length ns)%nat as Hlen by (cbn; lia).
  destruct (drop_bytes_split (String.length ns - 2) ns) as (p2 & Hp2 & Hl2 & Hd2); [lia|].
  destruct (drop_bytes_split (String.length ns - 1) ns) as (p1 & Hp1 & Hl1 & Hd1); [lia|].
  assert (slice_from ns (Z.of_nat (String.length ns) - 2)
          = Some (drop_bytes (String.length ns - 2) ns)) as Hs2.
  { unfold slice_from.
    rewrite (proj2 (Z.ltb_ge _ _)), (proj2 (Z.ltb_ge _ _)) by lia. cbn [orb].
    do 2 f_equal. lia. }
  assert (slice_from ns (Z.of_nat (String.length ns) - 1)
          = Some (drop_bytes (String.length ns - 1) ns)) as Hs1.
  { unfold slice_from.
    rewrite (proj2 (Z.ltb_ge _ _)), (proj2 (Z.ltb_ge _ _)) by lia. cbn [orb].
    do 2 f_equal. lia. }
  assert (ends_with ns "/*" ↔ drop_bytes (String.length ns - 2) ns = "/*") as H2.
  { split.
    - intros [p Hp]. apply (append_inj_r p2 p); [|by rewrite <- Hp2].
      rewrite Hd2. cbn. lia.
    - intros Hd. exists p2. by rewrite <- Hd. }
  assert (ends_with ns "/" ↔ drop_bytes (String.length ns - 1) ns = "/") as H1.
  { split.
    - intros [p Hp]. apply (append_inj_r p1 p); [|by rewrite <- Hp1].
      rewrite Hd1. cbn. lia.
    - intros Hd. exists p1. by rewrite <- Hd. }
  assert (listMetrics_ns ns
          = if String.eqb (drop_bytes (String.length ns - 2) ns) "/*"
            then Finishes ns
            else if String.eqb (drop_bytes (String.length ns - 1) ns) "/"
            then Finishes (ns +:+ "*") else Finishes (ns +:+ "/*")) as Hval.
  { unfold listMetrics_ns. change (String.eqb ns EmptyString) with false.
    cbn [negb]. rewrite Hs2.
    destruct (String.eqb (drop_bytes (String.length ns - 2) ns) "/*"); [done|].
    cbn [negb]. by rewrite Hs1. }
  clearbody ns. rewrite Hval.
  destruct (String.eqb_spec (drop_bytes (String.length ns - 2) ns) "/*") as [He|He].
  - exists ns. apply H2 in He as Hex. destruct (Hex) as [p Hp].
    split_and!; try done; rewrite Hp; apply Hfix.
  - rewrite <- H2 in He.
    destruct (String.eqb_spec (drop_bytes (String.length ns - 1) ns) "/") as [He1|He1].
    + exists (ns +:+ "*"). apply H1 in He1 as Hex. destruct (Hex) as [p Hp].
      assert (ns +:+ "*" = p +:+ "/*") as Hq.
      { rewrite Hp. by rewrite string_app_assoc. }
      split_and!; try done; try (by exists p); rewrite Hq; apply Hfix.
    + exists (ns +:+ "/*"). rewrite <- H1 in He1.
      split_and!; try done; try (by exists ns); apply Hfix.
Qed.

Lemma listMetrics_namespace_witness :
  listMetrics_ns "/" = SliceBoundsOutOfRange
  ∧ ∃ q, listMetrics_ns "/intel/" = Finishes q ∧ ends_with q "/*".
Proof.
  split; [apply (listMetrics_namespace "/")|].
  destruct (listMetrics_namespace "/intel/") as (q & Hq & Hends & _).
  by exists q.
Defined.

End SnapctlNamespace.

(** ** snapctl: the rows of the list of metrics *)

Section SnapctlRows.

Import snapctl.

Lemma nat_of_ascii_inj a b : nat_of_ascii a = nat_of_ascii b → a = b.
Proof.
  intros H. rewrite <- (ascii_nat_embedding a), <- (ascii_nat_embedding b).
  by rewrite H.
Qed.

Lemma string_le_total : Total string_le.
Proof.
  intros s. unfold string_le. induction s as [|a s IH]; intros [|b t]; cbn [string_leb];
    [by left..|by right|].
  destruct (Nat.ltb_spec (nat_of_ascii a) (nat_of_ascii b)) as [|Hab]; [by left|].
  destruct (Nat.ltb_spec (nat_of_ascii b) (nat_of_ascii a)) as [|Hba]; [by right|].
  assert (a = b) as -> by (apply nat_of_ascii_inj; lia).
  rewrite Ascii.eqb_refl. cbn [orb andb]. apply IH.
Qed.

Lemma string_le_trans : Transitive string_le.
Proof.
  intros s. unfold string_le. induction s as [|a s IH]; intros [|b t] [|c u]; cbn [string_leb];
    try done.
  intros [Hab|[Hab Hst]%andb_true_iff]%orb_true_iff
         [Hbc|[Hbc Htu]%andb_true_iff]%orb_true_iff.
  - apply Nat.ltb_lt in Hab, Hbc. apply orb_true_iff. left. apply Nat.ltb_lt. lia.
  - apply Ascii.eqb_eq in Hbc as <-. by rewrite Hab.
  - apply Ascii.eqb_eq in Hab as ->. by rewrite Hbc.
  - apply Ascii.eqb_eq in Hab as ->. rewrite Hbc. cbn.
    rewrite (IH _ _ Hst Htu). apply orb_true_r.
Qed.

Lemma metsByVer_snoc catalog mt :
  metsByVer (catalog ++ [mt])
  = <[mt_Namespace mt :=
        default [] (metsByVer catalog !! mt_Namespace mt)
        ++ [strconv_Itoa (mt_Version mt)]]> (metsByVer catalog).
Proof. unfold metsByVer. by rewrite foldl_app. Qed.

(** What the map holds for a namespace: the versions of its metrics,
    in the order of the catalog, and nothing when it has no metric. *)
Lemma metsByVer_lookup catalog ns :
  metsByVer catalog !! ns
  = match versions_of ns catalog with
    | [] => None
    | vs => Some (strconv_Itoa <$> vs)
    end.
Proof.
  induction catalog as [|mt catalog IH] using rev_ind; [done|].
  rewrite metsByVer_snoc. unfold versions_of in *. rewrite filter_app, fmap_app.
  destruct (decide (mt_Namespace mt = ns)) as [<-|Hne].
  - rewrite lookup_insert_eq, IH.
    rewrite filter_cons_True, filter_nil by done.
    destruct (mt_Version <$> filter _ catalog) as [|v vs]; [done|].
    cbn. by rewrite fmap_app.
  - rewrite lookup_insert_ne, IH by done.
    rewrite filter_cons_False, filter_nil, app_nil_r by done.
    done.
Qed.

Lemma versions_of_nonempty ns catalog :
  versions_of ns catalog ≠ [] ↔ ∃ mt, mt ∈ catalog ∧ mt_Namespace mt = ns.
Proof.
  unfold versions_of. split.
  - destruct (filter _ catalog) as [|mt l] eqn:Hf; [done|]. intros _.
    assert (mt ∈ filter (λ mt, mt_Namespace mt = ns) catalog) as Hmt.
    { rewrite Hf. apply list_elem_of_here. }
    apply list_elem_of_filter in Hmt as [? ?]. by exists mt.
  - intros (mt & Hin & Hns) Hf%fmap_nil_inv.
    assert (mt ∈ filter (λ mt, mt_Namespace mt = ns) catalog) as Hmt.
    { by apply list_elem_of_filter. }
    rewrite Hf in Hmt. by apply not_elem_of_nil in Hmt.
Qed.

Lemma StronglySorted_strict (l : list string) :
  StronglySorted string_le l → NoDup l → StronglySorted string_lt l.
Proof.
  induction 1 as [|x l Hl IH Hx]; intros Hnd; constructor.
  - apply IH. by apply NoDup_cons in Hnd as [_ ?].
  - apply NoDup_cons in Hnd as [Hnin _]. apply Forall_forall.
    intros y Hy. split; [by eapply Forall_forall in Hx|].
    by intros ->.
Qed.

(** The rows for a catalog: one for each namespace, the namespaces in
    strictly increasing order, each with its versions in the order of
    the catalog. *)
Lemma listMetrics_rows_spec (catalog : list Metric) :
  ∃ nss,
    listMetrics_rows catalog
    = ["NAMESPACE"; "VERSIONS"]
      :: map (λ ns, [ns; strings_Join (strconv_Itoa <$> versions_of ns catalog) ","])
           nss
    ∧ StronglySorted string_lt nss
    ∧ ∀ ns, ns ∈ nss ↔ ∃ mt, mt ∈ catalog ∧ mt_Namespace mt = ns.
Proof.
  set (m := metsByVer catalog).
  set (nss := sort_Strings (map_to_list m).*1).
  assert (nss ≡ₚ (map_to_list m).*1) as Hperm by apply merge_sort_Permutation.
  assert (∀ ns, ns ∈ nss ↔ ∃ mt, mt ∈ catalog ∧ mt_Namespace mt = ns) as Hin.
  { intros ns. rewrite Hperm. rewrite list_elem_of_fmap. split.
    - intros ([ns' vs] & -> & Hl). apply elem_of_map_to_list in Hl. cbn.
      unfold m in Hl. rewrite metsByVer_lookup in Hl.
      apply versions_of_nonempty. by destruct (versions_of ns' catalog).
    - intros Hex. destruct (m !! ns) as [vs|] eqn:Hl.
      + exists (ns, vs). split; [done|]. by apply elem_of_map_to_list.
      + unfold m in Hl. rewrite metsByVer_lookup in Hl.
        apply versions_of_nonempty in Hex.
        by destruct (versions_of ns catalog). }
  exists nss. split_and!; [|..|done].
  - unfold listMetrics_rows. fold m nss. f_equal.
    apply list_fmap_ext. intros i ns Hi. do 2 f_equal.
    unfold m. rewrite metsByVer_lookup.
    by destruct (versions_of ns catalog).
  - apply StronglySorted_strict.
    + apply (@StronglySorted_merge_sort _ string_le _ string_le_trans string_le_total).
    + rewrite Hperm. apply NoDup_fst_map_to_list.
Qed.

(** X22: when listMetrics runs to its end, the client has returned
    no error for the namespace made to end with "/*" and the version
    given, and what is printed is the header and then one row for
    each namespace that has a metric in the catalog returned, no
    namespace twice, the rows in strictly increasing order of the
    namespaces byte by byte; the row of a namespace lists, joined by
    commas, the decimal versions of its metrics in the order in
    which the catalog has them.  When the client returns an error,
    listMetrics exits with code 1. *)
Theorem listMetrics_rows_grouped (FetchMetrics : string → Z → GetMetricsResult)
    (ns : string) (ver : Z) (q : string) :
  listMetrics_ns ns = Finishes q →
  let mts := FetchMetrics q ver in
  match r_Err mts with
  | Some _ => listMetrics FetchMetrics ns ver = Exits 1
  | None =>
      ∃ nss,
        listMetrics FetchMetrics ns ver
        = Finishes
            (["NAMESPACE"; "VERSIONS"]
             :: map (λ n, [n; strings_Join
                                (strconv_Itoa <$> versions_of n (r_Catalog mts)) ","])
                  nss)
        ∧ StronglySorted string_lt nss
        ∧ ∀ n, n ∈ nss ↔ ∃ mt, mt ∈ r_Catalog mts ∧ mt_Namespace mt = n
  end.
Proof.
  intros Hq mts. unfold listMetrics. rewrite Hq. fold mts.
  destruct (r_Err mts) as [e|]; [done|].
  destruct (listMetrics_rows_spec (r_Catalog mts)) as (nss & -> & Hsorted & Hin).
  by exists nss.
Qed.

End SnapctlRows.

Lemma listMetrics_rows_grouped_witness :
  ∃ nss,
    snapctl.listMetrics fetch_mock "/intel" 0
    = snapctl.Finishes
        (["NAMESPACE"; "VERSIONS"]
         :: map (λ n, [n; strings_Join
                            (snapctl.strconv_Itoa
                               <$> versions_of n (snapctl.r_Catalog (fetch_mock "/intel/*" 0)))
                            ","])
              nss)
    ∧ StronglySorted string_lt nss
    ∧ ∀ n, n ∈ nss ↔ ∃ mt, mt ∈ snapctl.r_Catalog (fetch_mock "/intel/*" 0)
                           ∧ snapctl.mt_Namespace mt = n.
Proof.
  apply (listMetrics_rows_grouped fetch_mock "/intel" 0 "/intel/*").
  reflexivity.
Defined.

(** ** tribe: the address of the node *)

Section TribeAddress.

Import tribe.

Context {net : Net}.

Lemma addrs_text_first addrs :
  match addrs_text addrs with
  | Some text =>
      ∃ j addr, addrs !! j = Some addr ∧ addr_text addr = Some text
                ∧ Forall (λ addr, addr_text addr = None) (take j addrs)
  | None => Forall (λ addr, addr_text addr = None) addrs
  end.
Proof.
  induction addrs as [|addr addrs IH]; cbn [addrs_text]; [by constructor|].
  destruct (addr_text addr) as [text|] eqn:Ha.
  - exists 0%nat, addr. split_and!; [done..|]. by constructor.
  - destruct (addrs_text addrs) as [text|].
    + destruct IH as (j & addr' & Hj & Ht & Hbefore).
      exists (S j), addr'. split_and!; [done..|]. by constructor.
    + by constructor.
Qed.

Lemma addr_text_Some addr text :
  addr_text addr = Some text →
  ∃ ip ip4, (addr = IPAddr (Some ip) ∨ addr = IPNet (Some ip))
            ∧ IP_IsLoopback ip = false ∧ IP_To4 ip = Some ip4
            ∧ text = IP_String ip4.
Proof.
  unfold addr_text. intros Ht.
  assert (∃ ip, (addr = IPAddr (Some ip) ∨ addr = IPNet (Some ip))
                ∧ (if IP_IsLoopback ip then None
                   else match IP_To4 ip with
                        | None => None
                        | Some ip4 => Some (IP_String ip4)
                        end) = Some text) as (ip & Haddr & Hip).
  { destruct addr as [[ip|]|[ip|]|]; try done; exists ip; split; auto. }
  destruct (IP_IsLoopback ip) eqn:Hlo; [done|].
  destruct (IP_To4 ip) as [ip4|] eqn:H4; [|done]. injection Hip as <-.
  by exists ip, ip4.
Qed.

(** X23: getIP returns the text of the 4-byte form of the first
    address, in the order of the interfaces and of their addresses,
    that is an IP address or an IP network with a non-nil IP that is
    no loopback address and has a 4-byte form, provided that every
    interface before the one with that address could list its
    addresses; it returns "127.0.0.1" when the interfaces cannot be
    listed, when an interface that cannot list its addresses comes
    before any such address, and when there is no such address. *)
Theorem getIP_first_address (interfaces : option (list Interface)) :
  match interfaces with
  | None => getIP interfaces = "127.0.0.1"
  | Some ifaces =>
      (∃ i iface addrs j addr ip ip4,
          ifaces !! i = Some iface ∧ Addrs iface = Some addrs
          ∧ addrs !! j = Some addr
          ∧ (addr = IPAddr (Some ip) ∨ addr = IPNet (Some ip))
          ∧ IP_IsLoopback ip = false ∧ IP_To4 ip = Some ip4
          ∧ Forall no_address (take i ifaces)
          ∧ Forall (λ addr, addr_text addr = None) (take j addrs)
          ∧ getIP interfaces = IP_String ip4)
      ∨ (getIP interfaces = "127.0.0.1"
         ∧ (Forall no_address ifaces
            ∨ ∃ i iface, ifaces !! i = Some iface ∧ Addrs iface = None
                         ∧ Forall no_address (take i ifaces)))
  end.
Proof.
  destruct interfaces as [ifaces|]; [|done]. cbn [getIP].
  induction ifaces as [|iface ifaces IH]; cbn [ifaces_text].
  - right. split; [done|]. left. constructor.
  - destruct (Addrs iface) as [addrs|] eqn:Hi.
    + pose proof (addrs_text_first addrs) as Hfirst.
      destruct (addrs_text addrs) as [text|].
      * destruct Hfirst as (j & addr & Hj & Ht & Hbefore).
        destruct (addr_text_Some _ _ Ht) as (ip & ip4 & Haddr & Hlo & H4 & ->).
        left. exists 0%nat, iface, addrs, j, addr, ip, ip4.
        split_and!; try done; constructor.
      * assert (no_address iface) as Hno by (by exists addrs).
        destruct IH as [(i & iface' & addrs' & j & addr & ip & ip4 & Hl & Ha
                          & Hj & Haddr & Hlo & H4 & Hbefore & Hbefore' & Hres)
                       |[Hres [Hall|(i & iface' & Hl & Ha & Hbefore)]]].
        -- left. exists (S i), iface', addrs', j, addr, ip, ip4.
           split_and!; try done; by constructor.
        -- right. split; [done|]. left. by constructor.
        -- right. split; [done|]. right. exists (S i), iface'.
           split_and!; try done; by constructor.
    + right. split; [done|]. right. exists 0%nat, iface.
      split_and!; try done; constructor.
Qed.

End TribeAddress.

(** ** Which calls can panic *)

Section Panics.

Context {regexp : Regexp}.

(** X24: after any history of calls, RmUnloadedPluginMetrics
    returns: it compiles the cached query keys again, each of which
    MatchQuery has compiled before.  Get for a version of zero or
    less returns, with an entry or an error: getLatest is never
    handed an empty list.  Get panics only for a version above zero
    and a namespace one of whose entries has no plugin.  MatchQuery
    panics exactly when the pattern of the query does not compile,
    and then leaves the catalog as it was, the mutex free. *)
Theorem calls_that_panic (ops : list op) :
  let mc := run ops in
  (∀ lp, ∃ mc', RmUnloadedPluginMetrics lp mc = Returns () mc')
  ∧ (∀ ns v, v ≤ 0 → ∃ r, Get ns v mc = Returns r mc)
  ∧ (∀ ns v p mc', Get ns v mc = Panics p mc' →
       0 < v ∧ p = NilDereference
       ∧ ∃ mts m, getVersions ns mc = Ok mts ∧ m ∈ mts ∧ Plugin m = None)
  ∧ (∀ ns, regexp_MustCompile (wildcard_pattern (getMetricKey ns)) = None
           ↔ MatchQuery ns mc = Panics RegexpCompile mc)
  ∧ (∀ ns p mc', MatchQuery ns mc = Panics p mc' →
       regexp_MustCompile (wildcard_pattern (getMetricKey ns)) = None).
Proof.
  intros mc. pose proof (catalog_inv_run ops) as Hinv. fold mc in Hinv.
  pose proof (inv_mutex _ Hinv) as Hmu. split_and!.
  - intros lp. rewrite RmUnloadedPluginMetrics_unfold; [by eexists|done|].
    intros w l Hl. by destruct (inv_cache _ Hinv w l Hl) as (_ & _ & _ & ?).
  - intros ns v Hv. rewrite Get_unfold by done. unfold get.
    destruct (getVersions ns mc) as [mts|e] eqn:Hmts; [|by eexists].
    rewrite (proj2 (Z.ltb_ge 0 v)) by done.
    destruct (getVersions_Ok _ _ _ Hmts) as [Hne _].
    destruct (getLatest_spec mts Hne) as (m & -> & _). by eexists.
  - intros ns v p mc'. rewrite Get_unfold by done. unfold get.
    destruct (getVersions ns mc) as [mts|e] eqn:Hmts; [|done].
    destruct (Z.ltb_spec 0 v) as [Hv|Hv].
    + destruct (getVersion mts v) as [[m|e]|p'] eqn:Hg; [done..|].
      intros [= <- <-].
      destruct (getVersion_Panicked _ _ _ Hg) as (-> & m & Hm & Hnil).
      split_and!; [done..|]. by exists mts, m.
    + destruct (getVersions_Ok _ _ _ Hmts) as [Hne _].
      by destruct (getLatest_spec mts Hne) as (m & -> & _).
  - intros ns. rewrite MatchQuery_unfold by done.
    by destruct (regexp_MustCompile _).
  - intros ns p mc'. rewrite MatchQuery_unfold by done.
    by destruct (regexp_MustCompile _).
Qed.

End Panics.
